(** * CRD management of the Azure Service Operator, and the ARM cloud error

    A shallow embedding of
    - [v2/internal/crdmanagement/manager.go]: the comparators, the search for
      matching CRDs, the installation planner, the namespace fix-up and the
      leader-coordinated apply engine;
    - [v2/internal/genericarmclient/cloud_error.go]: [CloudError.UnmarshalJSON].

    Part I holds the definitions, in the order of the source; Part II holds
    the lemmas and theorems. *)

From stdpp Require Import gmap strings list fin_maps.
From Stdlib.Strings Require Import Byte.


(* ===================================================================== *)
(** * Part I: definitions *)
(* ===================================================================== *)

(** ** The Kubernetes types the code reads and writes

    [apiextensions.CustomResourceDefinition] is declared by the Kubernetes
    libraries. The fields [manager.go] touches keep their names. A Go pointer
    that the code tests against [nil] is an [option]; so is a map or a slice
    whose [nil] differs from its empty value under [reflect.DeepEqual]. The
    schema of a version is kept in serialised form. *)

#[global] Instance byte_eq_dec : EqDecision byte := Byte.byte_eq_dec.

Record ServiceReference := {
  Namespace : string;
  ServiceName : string;
  Path : option string;
  Port : option Z;
}.

Record WebhookClientConfig := {
  URL : option string;
  Service : option ServiceReference;
  CABundle : option (list byte);
}.

Record WebhookConversion := {
  ClientConfig : option WebhookClientConfig;
  ConversionReviewVersions : option (list string);
}.

Record CustomResourceConversion := {
  Strategy : string;
  Webhook : option WebhookConversion;
}.

Record CustomResourceDefinitionNames := {
  Plural : string;
  Singular : string;
  Kind : string;
  ListKind : string;
}.

Record CustomResourceDefinitionVersion := {
  VersionName : string;
  Served : bool;
  Storage : bool;
  Schema : option string;
}.

Record CustomResourceDefinitionSpec := {
  Group : string;
  Names : CustomResourceDefinitionNames;
  Scope : string;
  Versions : option (list CustomResourceDefinitionVersion);
  Conversion : option CustomResourceConversion;
  PreserveUnknownFields : bool;
}.

Record CustomResourceDefinition := {
  Name : string;
  Labels : option (gmap string string);
  Annotations : option (gmap string string);
  Spec : CustomResourceDefinitionSpec;
}.

#[global] Instance ServiceReference_eq_dec : EqDecision ServiceReference.
Proof. solve_decision. Defined.
#[global] Instance WebhookClientConfig_eq_dec : EqDecision WebhookClientConfig.
Proof. solve_decision. Defined.
#[global] Instance WebhookConversion_eq_dec : EqDecision WebhookConversion.
Proof. solve_decision. Defined.
#[global] Instance CustomResourceConversion_eq_dec : EqDecision CustomResourceConversion.
Proof. solve_decision. Defined.
#[global] Instance CustomResourceDefinitionNames_eq_dec : EqDecision CustomResourceDefinitionNames.
Proof. solve_decision. Defined.
#[global] Instance CustomResourceDefinitionVersion_eq_dec : EqDecision CustomResourceDefinitionVersion.
Proof. solve_decision. Defined.
#[global] Instance CustomResourceDefinitionSpec_eq_dec : EqDecision CustomResourceDefinitionSpec.
Proof. solve_decision. Defined.
#[global] Instance CustomResourceDefinition_eq_dec : EqDecision CustomResourceDefinition.
Proof. solve_decision. Defined.

(** The zero value of each struct: what Go gives for a missing map entry. *)
Definition zeroNames : CustomResourceDefinitionNames :=
  {| Plural := ""; Singular := ""; Kind := ""; ListKind := "" |}.

Definition zeroSpec : CustomResourceDefinitionSpec :=
  {| Group := ""; Names := zeroNames; Scope := ""; Versions := None;
     Conversion := None; PreserveUnknownFields := false |}.

Definition zeroCRD : CustomResourceDefinition :=
  {| Name := ""; Labels := None; Annotations := None; Spec := zeroSpec |}.

(** Assignments to one field, the rest of the struct kept. *)
Definition set_Namespace (s : ServiceReference) (ns : string) : ServiceReference :=
  {| Namespace := ns; ServiceName := ServiceName s; Path := Path s; Port := Port s |}.

Definition set_Service (c : WebhookClientConfig) (s : option ServiceReference)
  : WebhookClientConfig :=
  {| URL := URL c; Service := s; CABundle := CABundle c |}.

Definition set_CABundle (c : WebhookClientConfig) (b : option (list byte))
  : WebhookClientConfig :=
  {| URL := URL c; Service := Service c; CABundle := b |}.

Definition set_ClientConfig (w : WebhookConversion) (c : option WebhookClientConfig)
  : WebhookConversion :=
  {| ClientConfig := c; ConversionReviewVersions := ConversionReviewVersions w |}.

Definition set_Webhook (c : CustomResourceConversion) (w : option WebhookConversion)
  : CustomResourceConversion :=
  {| Strategy := Strategy c; Webhook := w |}.

Definition set_Conversion (s : CustomResourceDefinitionSpec)
    (c : option CustomResourceConversion) : CustomResourceDefinitionSpec :=
  {| Group := Group s; Names := Names s; Scope := Scope s; Versions := Versions s;
     Conversion := c; PreserveUnknownFields := PreserveUnknownFields s |}.

Definition set_Spec (crd : CustomResourceDefinition) (s : CustomResourceDefinitionSpec)
  : CustomResourceDefinition :=
  {| Name := Name crd; Labels := Labels crd; Annotations := Annotations crd; Spec := s |}.

Definition set_Annotations (crd : CustomResourceDefinition)
    (a : option (gmap string string)) : CustomResourceDefinition :=
  {| Name := Name crd; Labels := Labels crd; Annotations := a; Spec := Spec crd |}.

(** ** Constants of [manager.go] *)

Definition ServiceOperatorVersionLabelOld : string := "serviceoperator.azure.com/version".
Definition ServiceOperatorVersionLabel : string := "app.kubernetes.io/version".
Definition ServiceOperatorAppLabel : string := "app.kubernetes.io/name".
Definition ServiceOperatorAppValue : string := "azure-service-operator".
Definition certMgrInjectCAFromAnnotation : string := "cert-manager.io/inject-ca-from".

(** ** Values and copies

    On values a deep copy is the value itself: the tree of structs is rebuilt
    field by field, and a [nil] map or slice stays [nil]. Module [Shared]
    below has the copy on a store of shared objects. *)
Definition DeepCopy (crd : CustomResourceDefinition) : CustomResourceDefinition := crd.

(** ** Comparators

    A comparator is a [func(a, b CustomResourceDefinition) bool]. It is
    handed two structs by value, but [Spec.Conversion] and what lies below
    it are reached through pointers: what a comparator assigns there is an
    assignment to the objects of its caller, which [FindMatchingCRDs]
    hands to the next comparator and stores in its result. So a comparator
    gives, beside its answer, its two arguments as it leaves them. The
    caller passes deep copies, which share nothing with each other or with
    anything else; module [Shared] below has the objects and the pointers
    themselves. *)

Definition comparator : Type :=
  CustomResourceDefinition → CustomResourceDefinition →
  bool * (CustomResourceDefinition * CustomResourceDefinition).

Definition ignoreCABundle (a : CustomResourceDefinition) : CustomResourceDefinition :=
  match Conversion (Spec a) with
  | Some conv =>
      match Webhook conv with
      | Some wh =>
          match ClientConfig wh with
          | Some cc =>
              set_Spec a (set_Conversion (Spec a) (Some (set_Webhook conv
                (Some (set_ClientConfig wh (Some (set_CABundle cc None)))))))
          | None => a
          end
      | None => a
      end
  | None => a
  end.

Definition ignoreConversionWebhook (a : CustomResourceDefinition) : CustomResourceDefinition :=
  match Conversion (Spec a) with
  | Some conv =>
      match Webhook conv with
      | Some _ => set_Spec a (set_Conversion (Spec a) (Some (set_Webhook conv None)))
      | None => a
      end
  | None => a
  end.

Definition SpecEqual : comparator := λ a b,
  let a := ignoreCABundle a in
  let b := ignoreCABundle b in
  (bool_decide (Spec a = Spec b), (a, b)).

Definition SpecEqualIgnoreConversionWebhook : comparator := λ a b,
  let a := ignoreConversionWebhook a in
  let b := ignoreConversionWebhook b in
  (bool_decide (Spec a = Spec b), (a, b)).

(** [v, ok := m[k]] on a map that is not [nil]: the zero value when absent. *)
Definition lookup_ok (m : gmap string string) (k : string) : string * bool :=
  match m !! k with
  | Some v => (v, true)
  | None => ("", false)
  end.

(** [VersionEqual] assigns nothing. *)
Definition VersionEqual : comparator := λ a b,
  (match Labels a, Labels b with
   | None, None => true
   | None, Some _ | Some _, None => false
   | Some la, Some lb =>
       let '(aVersion, aOk) := lookup_ok la ServiceOperatorVersionLabel in
       let '(bVersion, bOk) := lookup_ok lb ServiceOperatorVersionLabel in
       if negb aOk && negb bOk then true
       else bool_decide (aVersion = bVersion)
   end,
   (a, b)).

(** ** FindMatchingCRDs and FindNonMatchingCRDs *)

(** [existingCRDs[crd.Name] = crd] for each entry in turn: a later entry with
    the same name replaces an earlier one. *)
Definition indexByName (existing : list CustomResourceDefinition)
  : gmap string CustomResourceDefinition :=
  foldl (λ m crd, <[Name crd := crd]> m) ∅ existing.

(** The inner loop: [equal] starts [true] and the first comparator that
    returns [false] ends the loop. Every comparator is called on the same
    two copies, so each sees what those before it assigned; the loop gives
    [equal] and the two copies as the comparators that ran leave them. *)
Fixpoint compareAll (comparators : list comparator)
    (existingCRD goalCRD : CustomResourceDefinition)
  : bool * (CustomResourceDefinition * CustomResourceDefinition) :=
  match comparators with
  | [] => (true, (existingCRD, goalCRD))
  | c :: rest =>
      let '(r, (existingCRD, goalCRD)) := c existingCRD goalCRD in
      if negb r then (false, (existingCRD, goalCRD))
      else compareAll rest existingCRD goalCRD
  end.

(** [matching[goalCRD.Name] = goalCRD] stores the copy of the goal CRD as
    the comparators leave it, under [goalCRD.Name], a field of the struct of
    the loop that no callee can assign to. *)
Definition FindMatchingCRDs (existing goal : list CustomResourceDefinition)
    (comparators : list comparator) : gmap string CustomResourceDefinition :=
  let existingCRDs := indexByName existing in
  foldl (λ matching goalCRD,
           let existingCRD := default zeroCRD (existingCRDs !! Name goalCRD) in
           let existingCRD := DeepCopy existingCRD in
           let goalCRD := DeepCopy goalCRD in
           let '(equal, (_, goalCRD')) := compareAll comparators existingCRD goalCRD in
           if equal
           then <[Name goalCRD := goalCRD']> matching
           else matching)
        ∅ goal.

(** [func(a, b) bool { return !c(a, b) }]: what [c] assigns, it assigns. *)
Definition invert (c : comparator) : comparator := λ a b,
  let '(r, ab) := c a b in (negb r, ab).

Definition FindNonMatchingCRDs (existing goal : list CustomResourceDefinition)
    (comparators : list comparator) : gmap string CustomResourceDefinition :=
  let invertedComparators := invert <$> comparators in
  FindMatchingCRDs existing goal invertedComparators.

(** ** fixCRDNamespace *)

(** [strings.Split(s, sep)] for a separator of one character: the pieces
    between the separators, one more than there are separators. *)
Fixpoint strings_Split (s : string) (sep : Ascii.ascii) : list string :=
  match s with
  | EmptyString => [EmptyString]
  | String c rest =>
      if decide (c = sep) then EmptyString :: strings_Split rest sep
      else match strings_Split rest sep with
           | piece :: pieces => String c piece :: pieces
           | [] => [String c EmptyString]
           end
  end.

Definition slash : Ascii.ascii := Ascii.ascii_of_nat 47.

Definition fixServiceNamespace (result : CustomResourceDefinition) (namespace : string)
  : CustomResourceDefinition :=
  match Conversion (Spec result) with
  | Some conv =>
      match Webhook conv with
      | Some wh =>
          match ClientConfig wh with
          | Some cc =>
              match Service cc with
              | Some svc =>
                  set_Spec result (set_Conversion (Spec result) (Some (set_Webhook conv
                    (Some (set_ClientConfig wh (Some (set_Service cc
                      (Some (set_Namespace svc namespace)))))))))
              | None => result
              end
          | None => result
          end
      | None => result
      end
  | None => result
  end.

Definition fixInjectCAFrom (result : CustomResourceDefinition) (namespace : string)
  : CustomResourceDefinition :=
  match Annotations result with
  | Some annotations =>
      if bool_decide (0 < size annotations) then
        match annotations !! certMgrInjectCAFromAnnotation with
        | Some injectCAFrom =>
            let split := strings_Split injectCAFrom slash in
            match split with
            | [_; name] =>
                set_Annotations result
                  (Some (<[certMgrInjectCAFromAnnotation := namespace +:+ "/" +:+ name]>
                           annotations))
            | _ => result
            end
        | None => result
        end
      else result
  | None => result
  end.

Definition fixCRDNamespace (crd : CustomResourceDefinition) (namespace : string)
  : CustomResourceDefinition :=
  let result := DeepCopy crd in
  let result := fixServiceNamespace result namespace in
  let result := fixInjectCAFrom result namespace in
  result.

Definition fixCRDNamespaceRefs (crds : list CustomResourceDefinition) (namespace : string)
  : list CustomResourceDefinition :=
  foldl (λ results crd, results ++ [fixCRDNamespace crd namespace]) [] crds.

(** ** Installation instructions

    [CRDInstallationInstruction], [FilterResult] and [DiffResult] are declared
    in another file of the package; [manager.go] uses the constants below. A reason is the format string that
    [fmt.Sprintf] fills, with its arguments. *)

Inductive FilterResultT := MatchedExistingCRD | MatchedPattern | Excluded.
Inductive DiffResultT := NoDifference | SpecDifferent | VersionDifferent.

Inductive FilterReasonT :=
  | (* "%q was not matched by CRD pattern and did not already exist in cluster" *)
    ReasonNotMatched (matchString : string)
  | (* "A CRD named %q was already installed, considering that existing CRD for update" *)
    ReasonAlreadyInstalled (matchString : string)
  | (* "CRD named %q matched pattern %q" *)
    ReasonMatchedPattern (matchString pattern : string).

#[global] Instance FilterResultT_eq_dec : EqDecision FilterResultT.
Proof. solve_decision. Defined.
#[global] Instance DiffResultT_eq_dec : EqDecision DiffResultT.
Proof. solve_decision. Defined.
#[global] Instance FilterReasonT_eq_dec : EqDecision FilterReasonT.
Proof. solve_decision. Defined.

Record CRDInstallationInstruction := {
  CRD : CustomResourceDefinition;
  FilterResult : FilterResultT;
  FilterReason : FilterReasonT;
  DiffResult : DiffResultT;
}.

#[global] Instance CRDInstallationInstruction_eq_dec : EqDecision CRDInstallationInstruction.
Proof. solve_decision. Defined.

Definition set_Filter (i : CRDInstallationInstruction) (r : FilterResultT)
    (why : FilterReasonT) : CRDInstallationInstruction :=
  {| CRD := CRD i; FilterResult := r; FilterReason := why; DiffResult := DiffResult i |}.

Definition set_DiffResult (i : CRDInstallationInstruction) (d : DiffResultT)
  : CRDInstallationInstruction :=
  {| CRD := CRD i; FilterResult := FilterResult i; FilterReason := FilterReason i;
     DiffResult := d |}.

(** The order in which the passes of the planner move a classification:
    towards [MatchedPattern], and towards [VersionDifferent]. *)
Definition filterRank (r : FilterResultT) : nat :=
  match r with Excluded => 0 | MatchedExistingCRD => 1 | MatchedPattern => 2 end.

Definition diffRank (d : DiffResultT) : nat :=
  match d with NoDifference => 0 | SpecDifferent => 1 | VersionDifferent => 2 end.

(** Modelled from the spec: [ShouldApply] of [CRDInstallationInstruction] is
    declared in another file of the package; "an instruction is applied iff
    FilterResult is not Excluded and DiffResult is not NoDifference". *)
Definition ShouldApply (i : CRDInstallationInstruction) : bool :=
  bool_decide (FilterResult i ≠ Excluded) && bool_decide (DiffResult i ≠ NoDifference).

(** ** Errors *)

Inductive error :=
  | (* [matcher.WasMatched()]: the patterns that matched nothing *)
    PatternValidationError (unmatched : list string)
  | (* "Couldn't find goal CRD %q. This is unexpected!" *)
    MissingGoalCRD (name : string)
  | (* an error of the cluster client *)
    ClientError (message : string)
  | (* [eris.Wrap(err, message)] *)
    Wrap (cause : error) (message : string).

(** ** The pattern matcher

    [match.NewStringMatcher] lives in the package [internal/util/match] and
    [makeMatchString] in another file of this package. The planner is stated
    over any implementation of what it needs from them: the match string of a CRD, the individual patterns of a pattern
    specification, and whether one pattern matches a value. *)
Class MatchLibrary := {
  makeMatchString : CustomResourceDefinition → string;
  patternsOf : string → list string;
  patternMatches : string → string → bool;
}.

Record MatchResult := {
  Matched : bool;
  MatchingPattern : string;
}.

(** A matcher remembers, for each of its patterns, whether it has matched. *)
Record StringMatcher := {
  clauses : list (string * bool);
}.

Section Planner.
Context `{ML : MatchLibrary}.

(** Modelled from the spec: [match.NewStringMatcher] is missing; the pattern
    specification holds "one or more glob-like name patterns", none of which
    has matched yet. *)
Definition NewStringMatcher (patterns : string) : StringMatcher :=
  {| clauses := (λ p, (p, false)) <$> patternsOf patterns |}.

(** Modelled from the spec: [StringMatcher.Matches] is missing; it
    "evaluates a selector-pattern string against candidate names, flags
    matches": a value is matched when any pattern matches it, and every
    pattern that matches it is flagged as used. *)
Definition Matches (m : StringMatcher) (value : string) : MatchResult * StringMatcher :=
  let hits := filter (λ c, patternMatches c.1 value = true) (clauses m) in
  ({| Matched := bool_decide (hits ≠ []);
      MatchingPattern := default "" (fst <$> head hits) |},
   {| clauses := (λ c, (c.1, c.2 || patternMatches c.1 value)) <$> clauses m |}).

(** Modelled from the spec: [StringMatcher.WasMatched] is missing; it gives
    an "error if any individual pattern in the spec matched nothing", an
    error that can "enumerate every unmatched pattern". *)
Definition WasMatched (m : StringMatcher) : option error :=
  let unmatched := fst <$> filter (λ c, c.2 = false) (clauses m) in
  match unmatched with
  | [] => None
  | _ => Some (PatternValidationError unmatched)
  end.

(** *** DetermineCRDsToInstallOrUpgrade, pass by pass

    [resultMap] maps a name to a pointer to an instruction; an assignment
    through the pointer is an update of the map at that name. A [range]
    over a Go map visits the entries in an unspecified order, here the
    order of [map_to_list]; Part II shows that the results do not depend
    on it. *)

Definition seedInstruction (crd : CustomResourceDefinition) : CRDInstallationInstruction :=
  {| CRD := crd;
     FilterResult := Excluded;
     FilterReason := ReasonNotMatched (makeMatchString crd);
     DiffResult := NoDifference |}.

Definition seedResultMap (goalCRDs : list CustomResourceDefinition)
  : gmap string CRDInstallationInstruction :=
  foldl (λ resultMap crd, <[Name crd := seedInstruction crd]> resultMap) ∅ goalCRDs.

Definition filterCRDsByExisting (existingCRDs : list CustomResourceDefinition)
    (resultMap : gmap string CRDInstallationInstruction)
  : gmap string CRDInstallationInstruction :=
  foldl (λ resultMap crd,
           match resultMap !! Name crd with
           | None => resultMap
           | Some result =>
               <[Name crd := set_Filter result MatchedExistingCRD
                               (ReasonAlreadyInstalled (makeMatchString crd))]> resultMap
           end)
        resultMap existingCRDs.

Definition patternStep
    (acc : gmap string CRDInstallationInstruction * StringMatcher)
    (entry : string * CRDInstallationInstruction)
  : gmap string CRDInstallationInstruction * StringMatcher :=
  let '(resultMap, matcher) := acc in
  let '(name, goal) := entry in
  let matchString := makeMatchString (CRD goal) in
  let '(matchResult, matcher) := Matches matcher matchString in
  if Matched matchResult
  then (<[name := set_Filter goal MatchedPattern
                    (ReasonMatchedPattern (makeMatchString (CRD goal))
                                          (MatchingPattern matchResult))]> resultMap,
        matcher)
  else (resultMap, matcher).

Definition filterCRDsByPatterns (patterns : string)
    (resultMap : gmap string CRDInstallationInstruction)
  : error + gmap string CRDInstallationInstruction :=
  if decide (patterns = "") then inr resultMap
  else
    let matcher := NewStringMatcher patterns in
    let '(resultMap, matcher) :=
      foldl patternStep (resultMap, matcher) (map_to_list resultMap) in
    match WasMatched matcher with
    | Some err => inl err
    | None => inr resultMap
    end.

Definition filteredGoals (resultMap : gmap string CRDInstallationInstruction)
  : list CustomResourceDefinition :=
  foldl (λ filteredGoalCRDs entry,
           if decide (FilterResult entry.2 = Excluded) then filteredGoalCRDs
           else filteredGoalCRDs ++ [CRD entry.2])
        [] (map_to_list resultMap).

Definition markStep (d : DiffResultT)
    (acc : error + gmap string CRDInstallationInstruction)
    (entry : string * CustomResourceDefinition)
  : error + gmap string CRDInstallationInstruction :=
  match acc with
  | inl err => inl err
  | inr resultMap =>
      match resultMap !! entry.1 with
      | None => inl (MissingGoalCRD entry.1)
      | Some result => inr (<[entry.1 := set_DiffResult result d]> resultMap)
      end
  end.

Definition markDifferent (d : DiffResultT)
    (different : gmap string CustomResourceDefinition)
    (resultMap : gmap string CRDInstallationInstruction)
  : error + gmap string CRDInstallationInstruction :=
  foldl (markStep d) (inr resultMap) (map_to_list different).

(** The instruction map at the end of the planner, before it is collapsed
    to a slice. *)
Definition planResultMap
    (goalCRDs existingCRDs : list CustomResourceDefinition) (patterns : string)
  : error + gmap string CRDInstallationInstruction :=
  let resultMap := seedResultMap goalCRDs in
  let resultMap := filterCRDsByExisting existingCRDs resultMap in
  match filterCRDsByPatterns patterns resultMap with
  | inl err => inl err
  | inr resultMap =>
      let filteredGoalCRDs := filteredGoals resultMap in
      let goalCRDsWithDifferentVersion :=
        FindNonMatchingCRDs existingCRDs filteredGoalCRDs [VersionEqual] in
      let goalCRDsWithDifferentSpec :=
        FindNonMatchingCRDs existingCRDs filteredGoalCRDs [SpecEqual] in
      match markDifferent SpecDifferent goalCRDsWithDifferentSpec resultMap with
      | inl err => inl err
      | inr resultMap =>
          markDifferent VersionDifferent goalCRDsWithDifferentVersion resultMap
      end
  end.

(** [maps.Values(resultMap)]. *)
Definition DetermineCRDsToInstallOrUpgrade
    (goalCRDs existingCRDs : list CustomResourceDefinition) (patterns : string)
  : error + list CRDInstallationInstruction :=
  match planResultMap goalCRDs existingCRDs patterns with
  | inl err => inl err
  | inr resultMap => inr ((map_to_list resultMap).*2)
  end.

Definition filterInstallationInstructions
    (instructions : list CRDInstallationInstruction) (log : bool)
  : list CRDInstallationInstruction :=
  foldl (λ instructionsToApply item,
           if ShouldApply item then instructionsToApply ++ [item]
           else instructionsToApply)
        [] instructions.

End Planner.

(** ** applyCRDs and the leader election callbacks

    [applyCRDs] runs on the caller's goroutine; [Elector.Run] runs on a
    goroutine of its own and calls [OnStartedLeading] on a third. The threads
    share the context of the engine, the two wait groups and [leaderContext].
    Each thread is a program counter over the statements of the source that
    touch what is shared, and a step runs one such statement; [None] means
    the thread cannot run (it is blocked, it has ended, or the process has
    exited). Beside the threads there is the cluster, which can take the
    lease away from a leader. *)

#[global] Instance error_eq_dec : EqDecision error.
Proof. solve_decision. Defined.

Inductive EnginePC :=
  | (* line 337: filter the instructions, return at once when none applies *)
    AtStart
  | (* line 350: [LeaseAcquired.Wait()] *)
    AtWaitAcquired
  | (* lines 362-374: list, plan and filter again under the lease *)
    AtRecheck
  | (* lines 380-406: [CreateOrUpdate] for the instructions left *)
    AtApply (instructionsToApply : list CRDInstallationInstruction)
  | (* line 411: [cancel()] *)
    AtGiveUp
  | (* line 412: [LeaseReleased.Wait()] *)
    AtWaitReleased
  | (* line 418: [os.Exit(0)] *)
    AtExit
  | (* line 355, in the deferred function: [cancel()] *)
    AtDeferredCancel (ret : option error)
  | (* line 356, in the deferred function: [LeaseReleased.Wait()] *)
    AtDeferredWait (ret : option error)
  | Returned (ret : option error).

Inductive StartedPC :=
  | StartedNotCalled
  | (* line 91: [leaseAcquiredWait.Done()] *)
    StartedAtDone
  | (* lines 93-95: [leaderContext = ctx] *)
    StartedAtStore
  | StartedReturned.

Inductive ElectorPC :=
  | RunNotStarted
  | (* inside [Elector.Run]: waiting for the lease *)
    RunAcquiring
  | (* inside [Elector.Run]: holding the lease *)
    RunLeading
  | (* line 98: [leaseReleasedWait.Done()] *)
    StoppedAtDone
  | (* lines 101-103: [lc := leaderContext] *)
    StoppedAtRead
  | (* lines 105-112: the exit code, from [lc] *)
    StoppedAtSelect (lc : bool)
  | (* line 119: [os.Exit(exitCode)] *)
    StoppedAtExit (exitCode : Z).

#[global] Instance EnginePC_eq_dec : EqDecision EnginePC.
Proof. solve_decision. Defined.
#[global] Instance StartedPC_eq_dec : EqDecision StartedPC.
Proof. solve_decision. Defined.
#[global] Instance ElectorPC_eq_dec : EqDecision ElectorPC.
Proof. solve_decision. Defined.

Record World := {
  engine : EnginePC;
  started : StartedPC;
  elector : ElectorPC;
  (* [cancel()] was called on the context of the engine; the context of the
     leadership derives from it *)
  ctxDone : bool;
  (* the counters of the two wait groups, 1 after [Add(1)] *)
  LeaseAcquired : nat;
  LeaseReleased : nat;
  (* [leaderContext != nil] *)
  leaderContext : bool;
  (* the names sent to [CreateOrUpdate], oldest first *)
  writes : list string;
  (* the code of the [os.Exit] that ended the process *)
  exited : option Z;
}.

#[global] Instance World_eq_dec : EqDecision World.
Proof. solve_decision. Defined.

(** What a schedule can name: a thread that takes its next step, or the
    loss of the lease to another replica or to the network. *)
Inductive thread := Engine | Elector | StartedCallback | LeaseTaken.

(** What one call of [applyCRDs] depends on: the manager's lease, the
    arguments, and the answers of the cluster. *)
Record Scenario := {
  leaderElection : bool;
  goalCRDs : list CustomResourceDefinition;
  instructions : list CRDInstallationInstruction;
  CRDPatterns : string;
  (* the answer of [ListCRDs] once the lease is held *)
  listed : error + list CustomResourceDefinition;
  (* the answer of [CreateOrUpdate] for a CRD *)
  createOrUpdate : CustomResourceDefinition → option error;
}.

Definition initialWorld : World :=
  {| engine := AtStart; started := StartedNotCalled; elector := RunNotStarted;
     ctxDone := false; LeaseAcquired := 1; LeaseReleased := 1;
     leaderContext := false; writes := []; exited := None |}.

Definition set_engine (w : World) (pc : EnginePC) : World :=
  {| engine := pc; started := started w; elector := elector w; ctxDone := ctxDone w;
     LeaseAcquired := LeaseAcquired w; LeaseReleased := LeaseReleased w;
     leaderContext := leaderContext w; writes := writes w; exited := exited w |}.

Definition set_started (w : World) (pc : StartedPC) : World :=
  {| engine := engine w; started := pc; elector := elector w; ctxDone := ctxDone w;
     LeaseAcquired := LeaseAcquired w; LeaseReleased := LeaseReleased w;
     leaderContext := leaderContext w; writes := writes w; exited := exited w |}.

Definition set_elector (w : World) (pc : ElectorPC) : World :=
  {| engine := engine w; started := started w; elector := pc; ctxDone := ctxDone w;
     LeaseAcquired := LeaseAcquired w; LeaseReleased := LeaseReleased w;
     leaderContext := leaderContext w; writes := writes w; exited := exited w |}.

Definition cancel (w : World) : World :=
  {| engine := engine w; started := started w; elector := elector w; ctxDone := true;
     LeaseAcquired := LeaseAcquired w; LeaseReleased := LeaseReleased w;
     leaderContext := leaderContext w; writes := writes w; exited := exited w |}.

Definition acquiredDone (w : World) : World :=
  {| engine := engine w; started := started w; elector := elector w; ctxDone := ctxDone w;
     LeaseAcquired := pred (LeaseAcquired w); LeaseReleased := LeaseReleased w;
     leaderContext := leaderContext w; writes := writes w; exited := exited w |}.

Definition releasedDone (w : World) : World :=
  {| engine := engine w; started := started w; elector := elector w; ctxDone := ctxDone w;
     LeaseAcquired := LeaseAcquired w; LeaseReleased := pred (LeaseReleased w);
     leaderContext := leaderContext w; writes := writes w; exited := exited w |}.

Definition storeLeaderContext (w : World) : World :=
  {| engine := engine w; started := started w; elector := elector w; ctxDone := ctxDone w;
     LeaseAcquired := LeaseAcquired w; LeaseReleased := LeaseReleased w;
     leaderContext := true; writes := writes w; exited := exited w |}.

Definition sendWrite (w : World) (name : string) : World :=
  {| engine := engine w; started := started w; elector := elector w; ctxDone := ctxDone w;
     LeaseAcquired := LeaseAcquired w; LeaseReleased := LeaseReleased w;
     leaderContext := leaderContext w; writes := writes w ++ [name]; exited := exited w |}.

Definition os_Exit (w : World) (code : Z) : World :=
  {| engine := engine w; started := started w; elector := elector w; ctxDone := ctxDone w;
     LeaseAcquired := LeaseAcquired w; LeaseReleased := LeaseReleased w;
     leaderContext := leaderContext w; writes := writes w; exited := Some code |}.

Section ApplyEngine.
Context `{ML : MatchLibrary}.

(** A [return] of [applyCRDs] once the context exists: with a lease, the
    deferred function cancels and waits; without one, the deferred
    [cancel()] is all there is. *)
Definition leave (sc : Scenario) (w : World) (ret : option error) : World :=
  if leaderElection sc then set_engine w (AtDeferredCancel ret)
  else set_engine (cancel w) (Returned ret).

(** What the engine finds to apply once it holds the lease (lines 362-370),
    or the error it returns. *)
Definition recheck (sc : Scenario) : error + list CRDInstallationInstruction :=
  match listed sc with
  | inl err => inl (Wrap err "failed to list current CRDs")
  | inr existing =>
      match DetermineCRDsToInstallOrUpgrade (goalCRDs sc) existing (CRDPatterns sc) with
      | inl err => inl (Wrap err "failed to determine CRDs to apply")
      | inr instructions => inr (filterInstallationInstructions instructions false)
      end
  end.

Definition stepEngine (sc : Scenario) (w : World) : option World :=
  match engine w with
  | AtStart =>
      match filterInstallationInstructions (instructions sc) true with
      | [] => Some (set_engine w (Returned None))
      | instructionsToApply =>
          if leaderElection sc
          then Some (set_elector (set_engine w AtWaitAcquired) RunAcquiring)
          else Some (set_engine w (AtApply instructionsToApply))
      end
  | AtWaitAcquired =>
      if decide (LeaseAcquired w = 0) then Some (set_engine w AtRecheck) else None
  | AtRecheck =>
      match recheck sc with
      | inl err => Some (leave sc w (Some err))
      | inr [] => Some (leave sc w None)
      | inr instructionsToApply => Some (set_engine w (AtApply instructionsToApply))
      end
  | AtApply [] =>
      if leaderElection sc then Some (set_engine w AtGiveUp)
      else Some (set_engine w AtExit)
  | AtApply (instruction :: rest) =>
      let w := sendWrite w (Name (CRD instruction)) in
      match createOrUpdate sc (CRD instruction) with
      | Some err =>
          Some (leave sc w (Some (Wrap err ("failed to apply CRD " +:+ Name (CRD instruction)))))
      | None => Some (set_engine w (AtApply rest))
      end
  | AtGiveUp => Some (set_engine (cancel w) AtWaitReleased)
  | AtWaitReleased =>
      if decide (LeaseReleased w = 0) then Some (set_engine w AtExit) else None
  | AtExit => Some (os_Exit w 0)
  | AtDeferredCancel ret => Some (set_engine (cancel w) (AtDeferredWait ret))
  | AtDeferredWait ret =>
      if decide (LeaseReleased w = 0) then Some (set_engine w (Returned ret)) else None
  | Returned _ => None
  end.

(** Modelled from the spec: the lease primitive is a collaborator from the
    Kubernetes client library, "an asynchronous run loop with
    started/stopped-leading callbacks": once it holds the lease it calls [OnStartedLeading]
    on a goroutine of its own, with "the active leadership's cancellation
    context", which is cancelled when the engine's is; when its run loop
    ends it calls [OnStoppedLeading]. The run loop ends on "cooperative
    release (the context was already canceled by the engine asking to step
    down)", which is [stepElector] at [RunLeading], and on "involuntary loss
    (context still live - another replica or network condition took
    leadership away)", which is [stepLeaseTaken]. The statements from
    [StoppedAtDone] on are those of the callback in [NewLeaderElector]. *)
Definition stepElector (w : World) : option World :=
  match elector w with
  | RunNotStarted => None
  | RunAcquiring =>
      if ctxDone w then Some (set_elector w StoppedAtDone)
      else Some (set_started (set_elector w RunLeading) StartedAtDone)
  | RunLeading =>
      if ctxDone w then Some (set_elector w StoppedAtDone) else None
  | StoppedAtDone => Some (set_elector (releasedDone w) StoppedAtRead)
  | StoppedAtRead => Some (set_elector w (StoppedAtSelect (leaderContext w)))
  | StoppedAtSelect lc =>
      let exitCode := if lc && ctxDone w then 0%Z else 1%Z in
      Some (set_elector w (StoppedAtExit exitCode))
  | StoppedAtExit exitCode => Some (os_Exit w exitCode)
  end.

(** Modelled from the spec: the involuntary loss of the lease. It can
    happen whenever the elector leads, and cancels nothing. *)
Definition stepLeaseTaken (w : World) : option World :=
  match elector w with
  | RunLeading => Some (set_elector w StoppedAtDone)
  | _ => None
  end.

Definition stepStarted (w : World) : option World :=
  match started w with
  | StartedNotCalled => None
  | StartedAtDone => Some (set_started (acquiredDone w) StartedAtStore)
  | StartedAtStore => Some (set_started (storeLeaderContext w) StartedReturned)
  | StartedReturned => None
  end.

Definition step (sc : Scenario) (t : thread) (w : World) : option World :=
  match exited w with
  | Some _ => None
  | None =>
      match t with
      | Engine => stepEngine sc w
      | Elector => stepElector w
      | StartedCallback => stepStarted w
      | LeaseTaken => stepLeaseTaken w
      end
  end.

(** A schedule names what happens next; a thread that cannot run, or a
    loss of the lease when there is no leader, leaves the world as it is. *)
Definition run (sc : Scenario) (schedule : list thread) (w : World) : World :=
  foldl (λ w t, default w (step sc t w)) w schedule.

(** No thread can run any more, and there is no lease to lose. *)
Definition quiescent (sc : Scenario) (w : World) : Prop :=
  ∀ t, step sc t w = None.

End ApplyEngine.

(** ** The same comparators and search on shared objects

    A [CustomResourceDefinition] is passed by value, but its
    [Spec.Conversion] is a pointer, and so are [Webhook], [ClientConfig] and
    [Service] below it: a copy of the struct shares these objects with the
    original, and an assignment through them is seen by every holder. The
    store maps an address to the object that lives there. Label and annotation
    maps are never assigned to by the functions below and stay values. *)
Module Shared.

Definition loc : Type := positive.

Inductive cell :=
  | CService (s : ServiceReference)
  | CClientConfig (url : option string) (service : option loc)
      (caBundle : option (list byte))
  | CWebhook (clientConfig : option loc) (conversionReviewVersions : option (list string))
  | CConversion (strategy : string) (webhook : option loc).

#[global] Instance cell_eq_dec : EqDecision cell.
Proof. solve_decision. Defined.

Abbreviation Store := (gmap loc cell).

(** The struct as the code holds it: every field but [Spec.Conversion] in
    [fields] (whose [Conversion] is not looked at), and the pointer. *)
Record CRDStruct := {
  fields : CustomResourceDefinition;
  conversion : option loc;
}.

Definition zeroCRDStruct : CRDStruct := {| fields := zeroCRD; conversion := None |}.

(** *** Reading a struct with all that its pointers lead to

    An address with no object, or with an object of another type, cannot
    occur in Go; it reads as [nil]. *)
Definition loadService (st : Store) (l : loc) : option ServiceReference :=
  match st !! l with
  | Some (CService s) => Some s
  | _ => None
  end.

Definition loadClientConfig (st : Store) (l : loc) : option WebhookClientConfig :=
  match st !! l with
  | Some (CClientConfig url service caBundle) =>
      Some {| URL := url; Service := service ≫= loadService st; CABundle := caBundle |}
  | _ => None
  end.

Definition loadWebhook (st : Store) (l : loc) : option WebhookConversion :=
  match st !! l with
  | Some (CWebhook clientConfig versions) =>
      Some {| ClientConfig := clientConfig ≫= loadClientConfig st;
              ConversionReviewVersions := versions |}
  | _ => None
  end.

Definition loadConversion (st : Store) (l : loc) : option CustomResourceConversion :=
  match st !! l with
  | Some (CConversion strategy webhook) =>
      Some {| Strategy := strategy; Webhook := webhook ≫= loadWebhook st |}
  | _ => None
  end.

Definition load (st : Store) (c : CRDStruct) : CustomResourceDefinition :=
  set_Spec (fields c)
    (set_Conversion (Spec (fields c)) (conversion c ≫= loadConversion st)).

(** *** The addresses a struct leads to *)
Definition reachClientConfig (st : Store) (l : loc) : gset loc :=
  {[l]} ∪ match st !! l with
          | Some (CClientConfig _ (Some ls) _) => {[ls]}
          | _ => ∅
          end.

Definition reachWebhook (st : Store) (l : loc) : gset loc :=
  {[l]} ∪ match st !! l with
          | Some (CWebhook (Some lcc) _) => reachClientConfig st lcc
          | _ => ∅
          end.

Definition reachConversion (st : Store) (l : loc) : gset loc :=
  {[l]} ∪ match st !! l with
          | Some (CConversion _ (Some lw)) => reachWebhook st lw
          | _ => ∅
          end.

Definition reach (st : Store) (c : CRDStruct) : gset loc :=
  match conversion c with
  | Some l => reachConversion st l
  | None => ∅
  end.

(** *** DeepCopy: a new object for every object reached *)
Definition alloc (st : Store) (c : cell) : loc * Store :=
  let l := fresh (dom st) in (l, <[l := c]> st).

Definition copyService (st : Store) (l : loc) : option loc * Store :=
  match st !! l with
  | Some (CService s) =>
      let '(l', st) := alloc st (CService s) in (Some l', st)
  | _ => (None, st)
  end.

Definition copyClientConfig (st : Store) (l : loc) : option loc * Store :=
  match st !! l with
  | Some (CClientConfig url service caBundle) =>
      let '(service', st) :=
        match service with
        | Some ls => copyService st ls
        | None => (None, st)
        end in
      let '(l', st) := alloc st (CClientConfig url service' caBundle) in
      (Some l', st)
  | _ => (None, st)
  end.

Definition copyWebhook (st : Store) (l : loc) : option loc * Store :=
  match st !! l with
  | Some (CWebhook clientConfig versions) =>
      let '(clientConfig', st) :=
        match clientConfig with
        | Some lcc => copyClientConfig st lcc
        | None => (None, st)
        end in
      let '(l', st) := alloc st (CWebhook clientConfig' versions) in
      (Some l', st)
  | _ => (None, st)
  end.

Definition copyConversion (st : Store) (l : loc) : option loc * Store :=
  match st !! l with
  | Some (CConversion strategy webhook) =>
      let '(webhook', st) :=
        match webhook with
        | Some lw => copyWebhook st lw
        | None => (None, st)
        end in
      let '(l', st) := alloc st (CConversion strategy webhook') in
      (Some l', st)
  | _ => (None, st)
  end.

Definition DeepCopy (c : CRDStruct) (st : Store) : CRDStruct * Store :=
  match conversion c with
  | Some l =>
      let '(l', st) := copyConversion st l in
      ({| fields := fields c; conversion := l' |}, st)
  | None => (c, st)
  end.

(** *** Comparators: they answer, and may assign through pointers *)
Definition comparator : Type := CRDStruct → CRDStruct → Store → bool * Store.

Definition ignoreCABundle (a : CRDStruct) (st : Store) : CRDStruct * Store :=
  match conversion a with
  | Some lc =>
      match st !! lc with
      | Some (CConversion _ (Some lw)) =>
          match st !! lw with
          | Some (CWebhook (Some lcc) _) =>
              match st !! lcc with
              | Some (CClientConfig url service _) =>
                  (a, <[lcc := CClientConfig url service None]> st)
              | _ => (a, st)
              end
          | _ => (a, st)
          end
      | _ => (a, st)
      end
  | None => (a, st)
  end.

(** [a.Spec.Conversion.Webhook = nil] assigns to the conversion object that
    [a.Spec.Conversion] points to. *)
Definition ignoreConversionWebhook (a : CRDStruct) (st : Store) : CRDStruct * Store :=
  match conversion a with
  | Some lc =>
      match st !! lc with
      | Some (CConversion strategy (Some _)) =>
          (a, <[lc := CConversion strategy None]> st)
      | _ => (a, st)
      end
  | None => (a, st)
  end.

Definition SpecEqual : comparator := λ a b st,
  let '(a, st) := ignoreCABundle a st in
  let '(b, st) := ignoreCABundle b st in
  (bool_decide (Spec (load st a) = Spec (load st b)), st).

Definition SpecEqualIgnoreConversionWebhook : comparator := λ a b st,
  let '(a, st) := ignoreConversionWebhook a st in
  let '(b, st) := ignoreConversionWebhook b st in
  (bool_decide (Spec (load st a) = Spec (load st b)), st).

Definition VersionEqual : comparator := λ a b st,
  ((VersionEqual (fields a) (fields b)).1, st).

(** *** FindMatchingCRDs and FindNonMatchingCRDs *)
Definition indexByName (existing : list CRDStruct) : gmap string CRDStruct :=
  foldl (λ m crd, <[Name (fields crd) := crd]> m) ∅ existing.

Fixpoint compareAll (comparators : list comparator)
    (existingCRD goalCRD : CRDStruct) (st : Store) : bool * Store :=
  match comparators with
  | [] => (true, st)
  | c :: rest =>
      let '(r, st) := c existingCRD goalCRD st in
      if negb r then (false, st)
      else compareAll rest existingCRD goalCRD st
  end.

Definition findStep (existingCRDs : gmap string CRDStruct)
    (comparators : list comparator)
    (acc : gmap string CRDStruct * Store) (goalCRD : CRDStruct)
  : gmap string CRDStruct * Store :=
  let '(matching, st) := acc in
  let existingCRD := default zeroCRDStruct (existingCRDs !! Name (fields goalCRD)) in
  let '(existingCRD, st) := DeepCopy existingCRD st in
  let '(goalCRD, st) := DeepCopy goalCRD st in
  let '(equal, st) := compareAll comparators existingCRD goalCRD st in
  if equal then (<[Name (fields goalCRD) := goalCRD]> matching, st)
  else (matching, st).

Definition FindMatchingCRDs (existing goal : list CRDStruct)
    (comparators : list comparator) (st : Store) : gmap string CRDStruct * Store :=
  let existingCRDs := indexByName existing in
  foldl (findStep existingCRDs comparators) (∅, st) goal.

Definition invert (c : comparator) : comparator := λ a b st,
  let '(r, st) := c a b st in (negb r, st).

Definition FindNonMatchingCRDs (existing goal : list CRDStruct)
    (comparators : list comparator) (st : Store) : gmap string CRDStruct * Store :=
  let invertedComparators := invert <$> comparators in
  FindMatchingCRDs existing goal invertedComparators st.

(** A comparator is confined when it assigns only through its arguments:
    whatever part of the store they do not lead to is left as it is, and
    they still do not lead to it afterwards. *)
Definition confined (c : comparator) : Prop :=
  ∀ (st0 st : Store) (a b : CRDStruct),
    st0 ⊆ st →
    reach st a ## dom st0 →
    reach st b ## dom st0 →
    st0 ⊆ (c a b st).2 ∧
    reach (c a b st).2 a ## dom st0 ∧
    reach (c a b st).2 b ## dom st0.

End Shared.

(** ** CloudError.UnmarshalJSON

    [ErrorResponse] is declared in another file of the package, and
    [json.Unmarshal] belongs to the Go library: both are parameters. The
    decoded [content] has the shape of the anonymous struct of the source; a
    pointer or slice that the decoder leaves [nil] is [None]. *)
Section CloudError.
Context {ErrorResponse : Type}.

Record innerContent := {
  InnerCode : option string;
  InnerMessage : option string;
  InnerTarget : option string;
  InnerDetails : option (list (option ErrorResponse));
}.

Record content := {
  Code : option string;
  Message : option string;
  Target : option string;
  Details : option (list (option ErrorResponse));
  InnerError : option innerContent;
}.

Record CloudError := {
  error_ : option error;
  code : option string;
  message : option string;
  target : option string;
  details : option (list (option ErrorResponse));
}.

Context (json_Unmarshal : list byte → error + content).

(** The receiver is a pointer: the call gives the error it returns and the
    receiver as it leaves it. *)
Definition UnmarshalJSON (e : CloudError) (data : list byte)
  : option error * CloudError :=
  match json_Unmarshal data with
  | inl err => (Some (Wrap err "unmarshalling JSON for CloudError"), e)
  | inr content =>
      match InnerError content with
      | Some inner =>
          (None,
           {| error_ := error_ e;
              code := InnerCode inner;
              message := InnerMessage inner;
              target := InnerTarget inner;
              details := InnerDetails inner |})
      | None =>
          (None,
           {| error_ := error_ e;
              code := Code content;
              message := Message content;
              target := Target content;
              details := Details content |})
      end
  end.

End CloudError.

Arguments innerContent : clear implicits.
Arguments content : clear implicits.
Arguments CloudError : clear implicits.

(** ** The specification's reading of the operations

    These definitions follow the words of the specification, not the code;
    Part II compares them with the definitions above. *)

(** "Carries the version label": the value of the label, when there is one. *)
Definition versionLabel (crd : CustomResourceDefinition) : option string :=
  Labels crd ≫= (λ labels, labels !! ServiceOperatorVersionLabel).

(** [VersionEqual] by label maps: equal when both maps are [nil], different
    when one is; between two maps, equal when neither has the label, the
    values compared when both have it, and, when one has it, different unless
    the value it has is the empty string. *)
Definition VersionEqual_byLabels (a b : CustomResourceDefinition) : bool :=
  match Labels a, Labels b with
  | None, None => true
  | None, Some _ | Some _, None => false
  | Some la, Some lb =>
      match la !! ServiceOperatorVersionLabel, lb !! ServiceOperatorVersionLabel with
      | None, None => true
      | Some va, Some vb => bool_decide (va = vb)
      | Some v, None | None, Some v => bool_decide (v = "")
      end
  end.

(** The number of separators in a value, and what follows the first one. *)
Fixpoint countChar (sep : Ascii.ascii) (s : string) : nat :=
  match s with
  | EmptyString => 0
  | String c rest => (if decide (c = sep) then 1 else 0) + countChar sep rest
  end.

Fixpoint afterChar (sep : Ascii.ascii) (s : string) : string :=
  match s with
  | EmptyString => EmptyString
  | String c rest => if decide (c = sep) then rest else afterChar sep rest
  end.

(** The namespace of the service behind the conversion webhook, when the CRD
    has one; and the spec with that namespace replaced, when it has one. *)
Definition serviceOf (s : CustomResourceDefinitionSpec) : option ServiceReference :=
  conv ← Conversion s; wh ← Webhook conv; cc ← ClientConfig wh; Service cc.

Definition withServiceNamespace (s : CustomResourceDefinitionSpec) (namespace : string)
  : CustomResourceDefinitionSpec :=
  set_Conversion s
    ((λ conv, set_Webhook conv
       ((λ wh, set_ClientConfig wh
          ((λ cc, set_Service cc
             ((λ svc, set_Namespace svc namespace) <$> Service cc))
           <$> ClientConfig wh))
        <$> Webhook conv))
     <$> Conversion s).

(** A comparator fails on a pair when it answers [false]. A pair fails
    some comparator when the comparators, asked in turn, do not all answer
    [true]; it fails every comparator when each of them, asked in turn,
    answers [false]. Asked in turn, a comparator gets the pair as those
    before it leave it. *)
Fixpoint failsAny (comparators : list comparator)
    (existingCRD goalCRD : CustomResourceDefinition) : bool :=
  match comparators with
  | [] => false
  | c :: rest =>
      let '(r, (existingCRD, goalCRD)) := c existingCRD goalCRD in
      negb r || failsAny rest existingCRD goalCRD
  end.

Fixpoint failsAll (comparators : list comparator)
    (existingCRD goalCRD : CustomResourceDefinition) : bool :=
  match comparators with
  | [] => true
  | c :: rest =>
      let '(r, (existingCRD, goalCRD)) := c existingCRD goalCRD in
      negb r && failsAll rest existingCRD goalCRD
  end.

(** The goal CRD of a pair as the comparators, each asked in turn, leave it. *)
Fixpoint leftBy (comparators : list comparator)
    (existingCRD goalCRD : CustomResourceDefinition) : CustomResourceDefinition :=
  match comparators with
  | [] => goalCRD
  | c :: rest =>
      let '(_, (existingCRD, goalCRD)) := c existingCRD goalCRD in
      leftBy rest existingCRD goalCRD
  end.

(** ** Sample inputs *)

Definition sampleNames (kind : string) : CustomResourceDefinitionNames :=
  {| Plural := kind +:+ "s"; Singular := kind; Kind := kind; ListKind := kind +:+ "List" |}.

Definition sampleSpec (group kind : string) (conv : option CustomResourceConversion)
  : CustomResourceDefinitionSpec :=
  {| Group := group; Names := sampleNames kind; Scope := "Namespaced";
     Versions := Some [{| VersionName := "v1"; Served := true; Storage := true;
                          Schema := None |}];
     Conversion := conv; PreserveUnknownFields := false |}.

Definition sampleCRD (name group kind : string) (labels : option (gmap string string))
  : CustomResourceDefinition :=
  {| Name := name; Labels := labels; Annotations := None;
     Spec := sampleSpec group kind None |}.

Definition versionLabels (version : string) : gmap string string :=
  {[ ServiceOperatorAppLabel := ServiceOperatorAppValue;
     ServiceOperatorVersionLabel := version ]}.

Definition appLabels : gmap string string :=
  {[ ServiceOperatorAppLabel := ServiceOperatorAppValue ]}.

Definition sampleWebhookSpec (namespace : string) (caBundle : option (list byte))
  : CustomResourceDefinitionSpec :=
  sampleSpec "cache.azure.com" "Redis"
    (Some {| Strategy := "Webhook";
             Webhook := Some
               {| ClientConfig := Some
                    {| URL := None;
                       Service := Some {| Namespace := namespace;
                                          ServiceName := "webhook-service";
                                          Path := Some "/convert"; Port := Some 443%Z |};
                       CABundle := caBundle |};
                  ConversionReviewVersions := Some ["v1"] |} |}).

Definition sampleWebhookCRD (namespace injectCAFrom : string) : CustomResourceDefinition :=
  {| Name := "redis.cache.azure.com";
     Labels := Some (versionLabels "v2.5.0");
     Annotations := Some {[ certMgrInjectCAFromAnnotation := injectCAFrom ]};
     Spec := sampleWebhookSpec namespace None |}.

(** ** The planner's passes, read as updates of single instructions *)

Section PlannerReading.
Context `{ML : MatchLibrary}.

(** A value is matched by a pattern specification when one of its patterns
    matches it. *)
Definition matchedBy (patterns value : string) : bool :=
  existsb (λ p, patternMatches p value) (patternsOf patterns).

(** The state of a matcher after it was asked about each of [values]. *)
Definition askAll (m : StringMatcher) (values : list string) : StringMatcher :=
  foldl (λ m value, (Matches m value).2) m values.

(** What the pass over the patterns does to one instruction. *)
Definition patternUpdate (patterns : string) (goal : CRDInstallationInstruction)
  : CRDInstallationInstruction :=
  let result := (Matches (NewStringMatcher patterns) (makeMatchString (CRD goal))).1 in
  if Matched result
  then set_Filter goal MatchedPattern
         (ReasonMatchedPattern (makeMatchString (CRD goal)) (MatchingPattern result))
  else goal.

(** The match strings of the instructions of a map. *)
Definition candidates (m : gmap string CRDInstallationInstruction) : list string :=
  (λ e, makeMatchString (CRD e.2)) <$> map_to_list m.

(** The patterns of a specification that match no candidate. *)
Definition unmatchedPatterns (patterns : string)
    (m : gmap string CRDInstallationInstruction) : list string :=
  filter (λ p, existsb (λ value, patternMatches p value) (candidates m) = false)
         (patternsOf patterns).

(** The two sets of mismatches the planner computes from the instructions
    left after filtering. *)
Definition differentVersion (existingCRDs : list CustomResourceDefinition)
    (m : gmap string CRDInstallationInstruction) : gmap string CustomResourceDefinition :=
  FindNonMatchingCRDs existingCRDs (filteredGoals m) [VersionEqual].

Definition differentSpec (existingCRDs : list CustomResourceDefinition)
    (m : gmap string CRDInstallationInstruction) : gmap string CustomResourceDefinition :=
  FindNonMatchingCRDs existingCRDs (filteredGoals m) [SpecEqual].

(** What a marking pass does to the instruction named [n]. *)
Definition markUpdate (d : DiffResultT) (names : gset string) (n : string)
    (i : CRDInstallationInstruction) : CRDInstallationInstruction :=
  if bool_decide (n ∈ names) then set_DiffResult i d else i.

(** Every instruction of a map sits under the name of its CRD. *)
Definition keyedByName (m : gmap string CRDInstallationInstruction) : Prop :=
  ∀ n i, m !! n = Some i → Name (CRD i) = n.

End PlannerReading.

(** ** A sample matcher

    Patterns are separated by ';'; in a pattern '*' stands for any run of
    characters and '?' for any one character. The match string of a CRD is
    its group and its kind. *)

Fixpoint globMatches (pattern value : string) : bool :=
  match pattern with
  | EmptyString => bool_decide (value = EmptyString)
  | String p pattern' =>
      if decide (p = Ascii.ascii_of_nat 42) then
        (fix star (value : string) : bool :=
           globMatches pattern' value ||
           match value with
           | EmptyString => false
           | String _ value' => star value'
           end) value
      else
        match value with
        | EmptyString => false
        | String v value' =>
            (bool_decide (p = v) || bool_decide (p = Ascii.ascii_of_nat 63))
            && globMatches pattern' value'
        end
  end.

Definition sampleMatchLibrary : MatchLibrary :=
  {| makeMatchString := λ crd, Group (Spec crd) +:+ "/" +:+ Kind (Names (Spec crd));
     patternsOf := λ patterns, strings_Split patterns (Ascii.ascii_of_nat 59);
     patternMatches := globMatches |}.

(** ** Sample plans *)

Definition redisName : string := "redis.cache.azure.com".
Definition vaultName : string := "vaults.keyvault.azure.com".

(** The installed Redis CRD, of an older version and with another kind. *)
Definition installedRedis : CustomResourceDefinition :=
  sampleCRD redisName "cache.azure.com" "RedisCache" (Some (versionLabels "v2.4.0")).

Definition goalRedis : CustomResourceDefinition :=
  sampleCRD redisName "cache.azure.com" "Redis" (Some (versionLabels "v2.5.0")).

Definition goalVault : CustomResourceDefinition :=
  sampleCRD vaultName "keyvault.azure.com" "Vault" (Some (versionLabels "v2.5.0")).

(** ** The worlds of one scenario: lease held, nothing left to apply

    With a lease, something to apply at first and nothing at the recheck, the
    steps of the engine depend on nothing else of the scenario; the worlds
    that can be reached are those of the scenario below, and they are few
    enough to list. *)

Definition threads : list thread := [Engine; Elector; StartedCallback; LeaseTaken].

Section Worlds.
Context `{ML : MatchLibrary}.

Definition pendingInstruction : CRDInstallationInstruction :=
  {| CRD := zeroCRD; FilterResult := MatchedExistingCRD;
     FilterReason := ReasonAlreadyInstalled ""; DiffResult := VersionDifferent |}.

Definition nothingLeftScenario : Scenario :=
  {| leaderElection := true; goalCRDs := []; instructions := [pendingInstruction];
     CRDPatterns := ""; listed := inr []; createOrUpdate := λ _, None |}.

Definition successors (w : World) : list World :=
  omap (λ t, step nothingLeftScenario t w) threads.

Fixpoint explore (rounds : nat) (ws : list World) : list World :=
  match rounds with
  | 0 => ws
  | S rounds => explore rounds (remove_dups (ws ++ concat (successors <$> ws)))
  end.

(** The engine takes at most five steps, the elector six, the loss of the
    lease being one of them, and [OnStartedLeading] two: sixteen rounds
    reach all. *)
Definition worlds : list World := explore 16 [initialWorld].

Definition quiescentb (sc : Scenario) (w : World) : bool :=
  forallb (λ t, bool_decide (step sc t w = None)) threads.

(** What holds of a world of this scenario: nothing was written; the engine
    is at one of six places, and has returned only with success, after the
    cancellation and the release signal; the process has exited only from
    [OnStoppedLeading], after the release signal, with code 0 or 1, and with
    code 0 only when the leader context is recorded and the context of the
    engine cancelled; [OnStoppedLeading] holds a leader context only when one
    is recorded; and when nothing can run the process has exited. *)
Definition nothingLeftClaim (w : World) : bool :=
  bool_decide (writes w = []) &&
  bool_decide (engine w ∈ [AtStart; AtWaitAcquired; AtRecheck; AtDeferredCancel None;
                            AtDeferredWait None; Returned None]) &&
  (if decide (engine w = Returned None)
   then ctxDone w && bool_decide (LeaseReleased w = 0) else true) &&
  match exited w with
  | Some code =>
      bool_decide (elector w = StoppedAtExit code) &&
      bool_decide (code = 0%Z ∨ code = 1%Z) &&
      bool_decide (LeaseReleased w = 0) &&
      (if bool_decide (code = 0%Z) then leaderContext w && ctxDone w else true)
  | None => true
  end &&
  match elector w with
  | StoppedAtSelect lc => if lc then leaderContext w else true
  | _ => true
  end &&
  (if quiescentb nothingLeftScenario w then bool_decide (is_Some (exited w)) else true).

End Worlds.

(** ** A sample scenario: another replica applied the CRD first

    The instructions were planned against a cluster that held the older
    Redis CRD; by the time the lease is held the cluster holds the goal. *)

Definition staleInstructions : list CRDInstallationInstruction :=
  match @DetermineCRDsToInstallOrUpgrade sampleMatchLibrary [goalRedis] [installedRedis] "" with
  | inr instructions => instructions
  | inl _ => []
  end.

Definition raceScenario : Scenario :=
  {| leaderElection := true; goalCRDs := [goalRedis]; instructions := staleInstructions;
     CRDPatterns := ""; listed := inr [goalRedis]; createOrUpdate := λ _, None |}.

(** The engine starts the election and waits; the elector takes the lease and
    [OnStartedLeading] runs to its end; the engine rechecks, cancels and
    waits; [OnStoppedLeading] signals the release, the engine returns, and
    [OnStoppedLeading] goes on to its [os.Exit]. *)
Definition cooperativeSchedule : list thread :=
  [Engine; Elector; StartedCallback; StartedCallback; Engine; Engine; Engine;
   Elector; Elector; Engine; Elector; Elector; Elector].

(** As above, but [OnStartedLeading] has signalled the lease and not yet
    recorded the leader context when [OnStoppedLeading] reads it. *)
Definition hastySchedule : list thread :=
  [Engine; Elector; StartedCallback; Engine; Engine; Engine;
   Elector; Elector; Elector; Elector; Elector].

(** The lease is taken away while the engine is about to recheck: its
    context is live when [OnStoppedLeading] looks at it. *)
Definition lostLeaseSchedule : list thread :=
  [Engine; Elector; StartedCallback; StartedCallback; LeaseTaken;
   Elector; Elector; Elector; Elector].

(** ** A sample decoder

    It stands for [json.Unmarshal] on three bodies: one with the error nested
    under "error" next to top-level fields, one with top-level fields only,
    and one that is not JSON. [ErrorResponse] is the unit type here. *)

Definition nestedBody : list byte := [x7b; x65; x7d].
Definition flatBody : list byte := [x7b; x63; x7d].

Definition nestedContent : content unit :=
  {| Code := Some "TopLevelCode"; Message := Some "top-level message"; Target := None;
     Details := None;
     InnerError := Some {| InnerCode := Some "ResourceNotFound";
                           InnerMessage := Some "The resource was not found";
                           InnerTarget := Some "vault";
                           InnerDetails := Some [None] |} |}.

Definition flatContent : content unit :=
  {| Code := Some "Conflict"; Message := Some "conflict"; Target := None;
     Details := None; InnerError := None |}.

Definition sampleUnmarshal (data : list byte) : error + content unit :=
  if decide (data = nestedBody) then inr nestedContent
  else if decide (data = flatBody) then inr flatContent
  else inl (ClientError "invalid character looking for beginning of value").

Definition emptyCloudError : CloudError unit :=
  {| error_ := Some (ClientError "request failed"); code := None; message := None;
     target := None; details := None |}.

(** ** A sample store

    The goal CRD and the installed CRD each point to a conversion, a webhook,
    a client configuration with a CA bundle, and a service. *)

Definition sampleService : ServiceReference :=
  {| Namespace := "azureserviceoperator-system"; ServiceName := "webhook-service";
     Path := Some "/convert"; Port := Some 443%Z |}.

Definition sampleStore : gmap positive Shared.cell :=
  {[ 1%positive := Shared.CService sampleService;
     2%positive := Shared.CClientConfig None (Some 1%positive) (Some [x01; x02]);
     3%positive := Shared.CWebhook (Some 2%positive) (Some ["v1"]);
     4%positive := Shared.CConversion "Webhook" (Some 3%positive);
     5%positive := Shared.CService sampleService;
     6%positive := Shared.CClientConfig None (Some 5%positive) (Some [x03]);
     7%positive := Shared.CWebhook (Some 6%positive) (Some ["v1"]);
     8%positive := Shared.CConversion "Webhook" (Some 7%positive) ]}.

Definition storedGoal : Shared.CRDStruct :=
  {| Shared.fields := goalRedis; Shared.conversion := Some 4%positive |}.

Definition storedExisting : Shared.CRDStruct :=
  {| Shared.fields := goalRedis; Shared.conversion := Some 8%positive |}.

(** ** Values against shared objects

    A comparator on shared objects answers like a comparator on values when,
    on any store, it answers what the other answers on the values read from
    the store. *)

Definition answersLike (c : Shared.comparator) (p : comparator) : Prop :=
  ∀ st a b, (c a b st).1 = (p (Shared.load st a) (Shared.load st b)).1.

(** A spec without the CA bundle of its webhook client configuration. *)
Definition withoutCABundle (s : CustomResourceDefinitionSpec) : CustomResourceDefinitionSpec :=
  set_Conversion s
    ((λ conv, set_Webhook conv
       ((λ wh, set_ClientConfig wh ((λ cc, set_CABundle cc None) <$> ClientConfig wh))
        <$> Webhook conv))
     <$> Conversion s).

(** A spec without its conversion webhook. *)
Definition withoutWebhook (s : CustomResourceDefinitionSpec) : CustomResourceDefinitionSpec :=
  set_Conversion s ((λ conv, set_Webhook conv None) <$> Conversion s).

(** The names of a list of CRDs, as a set. *)
Definition namesOf (crds : list CustomResourceDefinition) : gset string :=
  list_to_set (Name <$> crds).

(** ** What the planner decides for one CRD

    The classification and the difference that the passes of
    [DetermineCRDsToInstallOrUpgrade] arrive at, written as functions of the
    CRD, the installed CRDs and the pattern specification. *)

Section PlanReading.
Context `{ML : MatchLibrary}.

Definition selection (existingCRDs : list CustomResourceDefinition) (patterns : string)
    (crd : CustomResourceDefinition) : FilterResultT :=
  if bool_decide (patterns ≠ "") && matchedBy patterns (makeMatchString crd)
  then MatchedPattern
  else if bool_decide (Name crd ∈ Name <$> existingCRDs) then MatchedExistingCRD
  else Excluded.

End PlanReading.

Definition difference (existingCRDs : list CustomResourceDefinition)
    (crd : CustomResourceDefinition) : DiffResultT :=
  let existingCRD := default zeroCRD (indexByName existingCRDs !! Name crd) in
  if negb (VersionEqual existingCRD crd).1 then VersionDifferent
  else if negb (SpecEqual existingCRD crd).1 then SpecDifferent
  else NoDifference.

(** The installed CRDs that have a goal CRD of their name. *)
Definition expected (goalCRDs existingCRDs : list CustomResourceDefinition)
  : list CustomResourceDefinition :=
  filter (λ crd, Name crd ∈ Name <$> goalCRDs) existingCRDs.

(** ** applyCRDs: what a run leaves behind *)

Fixpoint engineTurns (schedule : list thread) : nat :=
  match schedule with
  | [] => 0
  | Engine :: schedule => S (engineTurns schedule)
  | _ :: schedule => engineTurns schedule
  end.


(** The calls of [CreateOrUpdate] for the instructions of a plan in turn, up
    to the first that fails: the names sent to the cluster, and the error
    that [applyCRDs] returns for the one that failed. *)
Fixpoint applyAll (createOrUpdate : CustomResourceDefinition → option error)
    (plan : list CRDInstallationInstruction) : list string * option error :=
  match plan with
  | [] => ([], None)
  | instruction :: rest =>
      match createOrUpdate (CRD instruction) with
      | Some err =>
          ([Name (CRD instruction)],
           Some (Wrap err ("failed to apply CRD " +:+ Name (CRD instruction))))
      | None =>
          let '(names, ret) := applyAll createOrUpdate rest in
          (Name (CRD instruction) :: names, ret)
      end
  end.

Section ApplyReading.
Context `{ML : MatchLibrary}.

(** The instructions the engine starts from (line 337). *)
Definition firstPlan (sc : Scenario) : list CRDInstallationInstruction :=
  filterInstallationInstructions (instructions sc) true.




End ApplyReading.





(** ** Loading the goal CRDs

    [os.ReadDir], [os.ReadFile], [filepath.Join] and [yaml.Unmarshal] belong
    to the Go libraries: the file system is a value that answers the two
    reads, and the other two are parameters. Of a directory entry the code
    reads its name and whether it is a directory. *)

Record DirEntry := {
  EntryName : string;
  IsDir : bool;
}.

Record FileSystem := {
  os_ReadDir : string → error + list DirEntry;
  os_ReadFile : string → error + list byte;
}.

(** Of the manager, the field that [LoadOperatorCRDs] reads and assigns. *)
Record Manager := {
  crds : list CustomResourceDefinition;
}.

Section Loader.
Context (filepath_Join : string → string → string).
Context (yaml_Unmarshal : list byte → error + CustomResourceDefinition).

(** One turn of the loop of [loadCRDs]; a [return] of an error ends it. *)
Definition loadEntry (fs : FileSystem) (path : string)
    (acc : error + list CustomResourceDefinition) (entry : DirEntry)
  : error + list CustomResourceDefinition :=
  match acc with
  | inl err => inl err
  | inr results =>
      if IsDir entry then inr results
      else
        let filePath := filepath_Join path (EntryName entry) in
        match os_ReadFile fs filePath with
        | inl err => inl (Wrap err ("failed to read " +:+ filePath))
        | inr content =>
            match yaml_Unmarshal content with
            | inl err => inl (Wrap err ("failed to unmarshal " +:+ filePath +:+ " to CRD"))
            | inr crd => inr (results ++ [crd])
            end
        end
  end.

Definition loadCRDs (fs : FileSystem) (path : string)
  : error + list CustomResourceDefinition :=
  match os_ReadDir fs path with
  | inl err => inl (Wrap err ("failed to read directory " +:+ path))
  | inr entries => foldl (loadEntry fs path) (inr []) entries
  end.

(** The receiver is a pointer: the call gives what it returns and the
    manager as it leaves it. *)
Definition LoadOperatorCRDs (fs : FileSystem) (m : Manager) (path podNamespace : string)
  : (error + list CustomResourceDefinition) * Manager :=
  if bool_decide (0 < length (crds m)) then (inr (crds m), m)
  else
    match loadCRDs fs path with
    | inl err => (inl err, m)
    | inr loaded =>
        let loaded := fixCRDNamespaceRefs loaded podNamespace in
        (inr loaded, {| crds := loaded |})
    end.

(** What one file gives: its CRD, or the error of the read or of the
    parse. *)
Definition loadFile (fs : FileSystem) (path : string) (entry : DirEntry)
  : error + CustomResourceDefinition :=
  let filePath := filepath_Join path (EntryName entry) in
  match os_ReadFile fs filePath with
  | inl err => inl (Wrap err ("failed to read " +:+ filePath))
  | inr content =>
      match yaml_Unmarshal content with
      | inl err => inl (Wrap err ("failed to unmarshal " +:+ filePath +:+ " to CRD"))
      | inr crd => inr crd
      end
  end.

End Loader.

(** The entries of a directory that are not directories. *)
Definition files (entries : list DirEntry) : list DirEntry :=
  filter (λ entry, IsDir entry = false) entries.

(** ** The accessors of CloudError

    [core.UnknownErrorCode] and [core.UnknownErrorMessage] are constants of
    another package: parameters. The accessors are named after their
    receiver, [Code], [Message], [Target] and [Details] being the fields of
    the decoded content above. *)
Section CloudErrorAccessors.
Context {ErrorResponse : Type}.
Context (UnknownErrorCode UnknownErrorMessage : string).

Definition NewCloudError (err : option error) : CloudError ErrorResponse :=
  {| error_ := err; code := None; message := None; target := None; details := None |}.

Definition CloudError_Code (e : CloudError ErrorResponse) : string :=
  match code e with
  | Some c => if bool_decide (c ≠ "") then c else UnknownErrorCode
  | None => UnknownErrorCode
  end.

Definition CloudError_Message (e : CloudError ErrorResponse) : string :=
  match message e with
  | Some m => if bool_decide (m ≠ "") then m else UnknownErrorMessage
  | None => UnknownErrorMessage
  end.

Definition CloudError_Target (e : CloudError ErrorResponse) : string :=
  match target e with
  | Some t => if bool_decide (t ≠ "") then t else ""
  | None => ""
  end.

Definition CloudError_Details (e : CloudError ErrorResponse)
  : option (list (option ErrorResponse)) :=
  details e.

Definition Unwrap (e : CloudError ErrorResponse) : option error := error_ e.

(** A [TestOption] is a function on the error under construction. *)
Definition WithTestInnerError (err : option error)
  : CloudError ErrorResponse → CloudError ErrorResponse :=
  λ e, {| error_ := err; code := code e; message := message e; target := target e;
          details := details e |}.

Definition NewTestCloudError (code message : string)
    (options : list (CloudError ErrorResponse → CloudError ErrorResponse))
  : CloudError ErrorResponse :=
  foldl (λ result opt, opt result)
        {| error_ := None; code := Some code; message := Some message;
           target := None; details := None |}
        options.

End CloudErrorAccessors.

(** ** The search on values against the search on shared objects

    A comparator on shared objects behaves like a comparator on values
    when, on any store, it answers what the other answers on the values read
    from the store, and leaves its two arguments reading as the other leaves
    these values. It keeps the store closed when a struct that leads only to
    objects of the store still does after the call. *)

Definition behavesLike (c : Shared.comparator) (p : comparator) : Prop :=
  ∀ st a b,
    (c a b st).1 = (p (Shared.load st a) (Shared.load st b)).1 ∧
    Shared.load (c a b st).2 a = (p (Shared.load st a) (Shared.load st b)).2.1 ∧
    Shared.load (c a b st).2 b = (p (Shared.load st a) (Shared.load st b)).2.2.

Definition keepsClosed (c : Shared.comparator) : Prop :=
  ∀ (st : gmap Shared.loc Shared.cell) a b x,
    Shared.reach st x ⊆ dom st →
    Shared.reach (c a b st).2 x ⊆ dom (c a b st).2.

(** The comparators of the source, inverted or not, each with its
    counterpart on values. *)
Inductive sourceComparator : Shared.comparator → comparator → Prop :=
  | source_VersionEqual : sourceComparator Shared.VersionEqual VersionEqual
  | source_SpecEqual : sourceComparator Shared.SpecEqual SpecEqual
  | source_SpecEqualIgnoreConversionWebhook :
      sourceComparator Shared.SpecEqualIgnoreConversionWebhook
                       SpecEqualIgnoreConversionWebhook
  | source_invert c p :
      sourceComparator c p → sourceComparator (Shared.invert c) (invert p).

(* ===================================================================== *)
(** * Part II: lemmas and theorems *)
(* ===================================================================== *)

(* stdpp's solvers clear hypotheses by name and warn when one is gone. *)
#[local] Set Warnings "-clear-no-such-hyp".

(** Membership in a list that grew by one entry at its end. *)
Ltac in_snoc :=
  rewrite ?fmap_app, elem_of_app, ?list_fmap_singleton, list_elem_of_singleton; auto.

(** ** VersionEqual *)

Lemma lookup_ok_Some (m : gmap string string) k v : m !! k = Some v → lookup_ok m k = (v, true).
Proof. unfold lookup_ok. by intros ->. Qed.

Lemma lookup_ok_None (m : gmap string string) k : m !! k = None → lookup_ok m k = ("", false).
Proof. unfold lookup_ok. by intros ->. Qed.

(** Between two label maps the code compares the two lookups, an absent
    label reading as the empty string. *)
Lemma VersionEqual_lookups a b la lb :
  Labels a = Some la → Labels b = Some lb →
  (VersionEqual a b).1 =
    bool_decide (default "" (la !! ServiceOperatorVersionLabel)
                 = default "" (lb !! ServiceOperatorVersionLabel)).
Proof.
  intros Ha Hb. unfold VersionEqual, lookup_ok. simpl. rewrite Ha, Hb.
  destruct (la !! _) as [va|], (lb !! _) as [vb|]; simpl; try done.
Qed.

Lemma VersionEqual_leaves a b : (VersionEqual a b).2 = (a, b).
Proof. done. Qed.

(** C4, as the specification words it, fails twice. Neither of the first two
    CRDs carries the version label, one has no label map at all, and the code
    answers [false]. Exactly one of the other two carries the label, with the
    empty value, and the code answers [true]. *)
Lemma VersionEqual_not_by_label_presence :
  ¬ (∀ a b, versionLabel a = None → versionLabel b = None →
            (VersionEqual a b).1 = true) ∧
  ¬ (∀ a b v, versionLabel a = Some v → versionLabel b = None →
              (VersionEqual a b).1 = false).
Proof.
  split; intros H.
  - specialize (H zeroCRD (sampleCRD "a" "g" "K" (Some appLabels)) eq_refl eq_refl).
    vm_compute in H. discriminate H.
  - specialize (H (sampleCRD "a" "g" "K" (Some (versionLabels "")))
                  (sampleCRD "a" "g" "K" (Some appLabels)) "" eq_refl eq_refl).
    vm_compute in H. discriminate H.
Qed.

(** C4, amended: for every pair of CRDs, [VersionEqual] is true when both
    label maps are nil and false when exactly one is, whatever the other
    holds; between two label maps it is true when neither carries the
    version label, the equality of the two values when both carry it, and,
    when exactly one carries it, false unless the value carried is the empty
    string, as which an absent label reads. No pair is left aside.
    [VersionEqual] leaves its arguments as they are. *)
Theorem VersionEqual_by_labels (a b : CustomResourceDefinition) :
  (VersionEqual a b).1 = VersionEqual_byLabels a b ∧
  (VersionEqual a b).2 = (a, b) ∧
  (Labels a = None → Labels b = None → (VersionEqual a b).1 = true) ∧
  (Labels a = None → Labels b ≠ None → (VersionEqual a b).1 = false) ∧
  (Labels a ≠ None → Labels b = None → (VersionEqual a b).1 = false) ∧
  (∀ la lb, Labels a = Some la → Labels b = Some lb →
     (VersionEqual a b).1 =
       match la !! ServiceOperatorVersionLabel, lb !! ServiceOperatorVersionLabel with
       | None, None => true
       | Some va, Some vb => bool_decide (va = vb)
       | Some v, None | None, Some v => bool_decide (v = "")
       end).
Proof.
  assert (Hboth : ∀ la lb, Labels a = Some la → Labels b = Some lb →
            (VersionEqual a b).1 =
              match la !! ServiceOperatorVersionLabel,
                    lb !! ServiceOperatorVersionLabel with
              | None, None => true
              | Some va, Some vb => bool_decide (va = vb)
              | Some v, None | None, Some v => bool_decide (v = "")
              end).
  { intros la lb Ha Hb. rewrite (VersionEqual_lookups a b la lb Ha Hb).
    destruct (la !! _) as [va|], (lb !! _) as [vb|]; simpl; try done.
    apply bool_decide_ext. split; congruence. }
  split; [|split; [done|]]; [|repeat split].
  - unfold VersionEqual_byLabels.
    destruct (Labels a) as [la|] eqn:Ha, (Labels b) as [lb|] eqn:Hb;
      try (unfold VersionEqual; simpl; rewrite Ha, Hb; reflexivity).
    by apply Hboth.
  - intros Ha Hb. unfold VersionEqual. simpl. by rewrite Ha, Hb.
  - intros Ha Hb. unfold VersionEqual. simpl. rewrite Ha. by destruct (Labels b).
  - intros Ha Hb. unfold VersionEqual. simpl. rewrite Hb. by destruct (Labels a).
  - exact Hboth.
Qed.

Lemma VersionEqual_by_labels_witness :
  let a := sampleCRD "a" "g" "K" (Some (versionLabels "v2.5.0")) in
  let b := sampleCRD "a" "g" "K" (Some appLabels) in
  let c := sampleCRD "a" "g" "K" (Some (versionLabels "")) in
  (VersionEqual a b).1 = false ∧ (VersionEqual c b).1 = true ∧
  (VersionEqual zeroCRD c).1 = false.
Proof.
  intros a b c.
  destruct (VersionEqual_by_labels a b) as (Hab & _).
  destruct (VersionEqual_by_labels c b) as (Hcb & _).
  destruct (VersionEqual_by_labels zeroCRD c) as (_ & _ & _ & Hnil & _).
  split; [rewrite Hab; reflexivity|]. split; [rewrite Hcb; reflexivity|].
  apply Hnil; [reflexivity|discriminate].
Defined.

(** ** FindMatchingCRDs and FindNonMatchingCRDs *)

(** Inverting every comparator asks that every one of them fails, with
    the same assignments. *)
Lemma compareAll_invert cs e g :
  (compareAll (invert <$> cs) e g).1 = failsAll cs e g.
Proof.
  revert e g. induction cs as [|c cs IH]; intros e g; [done|].
  rewrite fmap_cons. cbn [compareAll failsAll]. unfold invert at 1.
  destruct (c e g) as [r [e' g']]. destruct r; simpl; [done|]. apply IH.
Qed.

Lemma compareAll_invert_leftBy cs e g :
  failsAll cs e g = true → (compareAll (invert <$> cs) e g).2.2 = leftBy cs e g.
Proof.
  revert e g. induction cs as [|c cs IH]; intros e g; [done|].
  rewrite fmap_cons. cbn [compareAll failsAll leftBy]. unfold invert at 1.
  destruct (c e g) as [r [e' g']]. destruct r; simpl; [done|]. apply IH.
Qed.

Lemma compareAll_leftBy cs e g :
  (compareAll cs e g).1 = true → (compareAll cs e g).2.2 = leftBy cs e g.
Proof.
  revert e g. induction cs as [|c cs IH]; intros e g; [done|].
  cbn [compareAll leftBy].
  destruct (c e g) as [r [e' g']]. destruct r; simpl; [apply IH|done].
Qed.

Lemma failsAny_negb_compareAll cs e g :
  failsAny cs e g = negb (compareAll cs e g).1.
Proof.
  revert e g. induction cs as [|c cs IH]; intros e g; [done|].
  cbn [compareAll failsAny].
  destruct (c e g) as [r [e' g']]. destruct r; simpl; [apply IH|done].
Qed.

Lemma indexByName_snoc existing crd :
  indexByName (existing ++ [crd]) = <[Name crd := crd]> (indexByName existing).
Proof. unfold indexByName. by rewrite foldl_app. Qed.

Lemma indexByName_lookup_Some existing n crd :
  indexByName existing !! n = Some crd → crd ∈ existing ∧ Name crd = n.
Proof.
  induction existing as [|x existing IH] using rev_ind.
  - unfold indexByName. simpl. by rewrite lookup_empty.
  - rewrite indexByName_snoc, lookup_insert. case_decide as Hn.
    + intros [= <-]. split; [in_snoc|done].
    + intros H. destruct (IH H). split; [in_snoc|done].
Qed.

Lemma indexByName_dom existing :
  dom (indexByName existing) = list_to_set (Name <$> existing).
Proof.
  induction existing as [|x existing IH] using rev_ind.
  - unfold indexByName. simpl. by rewrite dom_empty_L.
  - rewrite indexByName_snoc, dom_insert_L, IH, fmap_app, list_to_set_app_L.
    simpl. rewrite (right_id_L ∅ (∪)). apply (comm_L (∪)).
Qed.

Section FindMatching.
Context (existing : list CustomResourceDefinition) (comparators : list comparator).

Let existingFor (goalCRD : CustomResourceDefinition) : CustomResourceDefinition :=
  default zeroCRD (indexByName existing !! Name goalCRD).

Lemma FindMatchingCRDs_snoc goal g :
  FindMatchingCRDs existing (goal ++ [g]) comparators =
    if (compareAll comparators (existingFor g) g).1
    then <[Name g := (compareAll comparators (existingFor g) g).2.2]>
           (FindMatchingCRDs existing goal comparators)
    else FindMatchingCRDs existing goal comparators.
Proof.
  unfold FindMatchingCRDs. rewrite foldl_app. simpl. unfold DeepCopy, existingFor.
  by destruct (compareAll comparators _ g) as [equal [e' g']].
Qed.

(** An entry of the result is the copy of an entry of [goal], stored under
    the name of that entry as the comparators left it, and every
    comparator answered [true] on it. *)
Lemma FindMatchingCRDs_lookup_Some goal n g' :
  FindMatchingCRDs existing goal comparators !! n = Some g' →
  ∃ g, g ∈ goal ∧ Name g = n ∧
       (compareAll comparators (existingFor g) g).1 = true ∧
       g' = (compareAll comparators (existingFor g) g).2.2.
Proof.
  induction goal as [|x goal IH] using rev_ind.
  - unfold FindMatchingCRDs. simpl. by rewrite lookup_empty.
  - rewrite FindMatchingCRDs_snoc.
    destruct (compareAll comparators (existingFor x) x).1 eqn:Hx.
    + rewrite lookup_insert. case_decide as Hn.
      * intros [= <-]. exists x. split; [in_snoc|done].
      * intros H. destruct (IH H) as (g & ? & ? & ? & ?). exists g. split; [in_snoc|done].
    + intros H. destruct (IH H) as (g & ? & ? & ? & ?). exists g. split; [in_snoc|done].
Qed.

(** A name is in the result exactly when some entry of [goal] with that
    name passes every comparator. *)
Lemma FindMatchingCRDs_dom goal n :
  n ∈ dom (FindMatchingCRDs existing goal comparators) ↔
  ∃ g, g ∈ goal ∧ Name g = n ∧ (compareAll comparators (existingFor g) g).1 = true.
Proof.
  rewrite elem_of_dom. split.
  - intros [g' Hg]. apply FindMatchingCRDs_lookup_Some in Hg as (g & ? & ? & ? & _).
    eauto.
  - intros (g & Hin & Hn & Hc).
    induction goal as [|x goal IH] using rev_ind; [by apply elem_of_nil in Hin|].
    rewrite FindMatchingCRDs_snoc.
    apply elem_of_app in Hin as [Hin| ->%list_elem_of_singleton].
    + destruct (compareAll comparators (existingFor x) x).1; [|by apply IH].
      rewrite lookup_insert. case_decide; [eauto|by apply IH].
    + rewrite Hc, Hn. rewrite lookup_insert_eq. eauto.
Qed.

End FindMatching.

(** What [FindNonMatchingCRDs] returns: the names with a goal entry on which
    every comparator fails. *)
Lemma FindNonMatchingCRDs_dom existing goal cs n :
  n ∈ dom (FindNonMatchingCRDs existing goal cs) ↔
  ∃ g, g ∈ goal ∧ Name g = n ∧
       failsAll cs (default zeroCRD (indexByName existing !! Name g)) g = true.
Proof.
  unfold FindNonMatchingCRDs. rewrite FindMatchingCRDs_dom.
  by setoid_rewrite compareAll_invert.
Qed.

Lemma FindNonMatchingCRDs_lookup_Some existing goal cs n g' :
  FindNonMatchingCRDs existing goal cs !! n = Some g' →
  ∃ g, g ∈ goal ∧ Name g = n ∧
       failsAll cs (default zeroCRD (indexByName existing !! Name g)) g = true ∧
       g' = leftBy cs (default zeroCRD (indexByName existing !! Name g)) g.
Proof.
  unfold FindNonMatchingCRDs. intros Hg.
  apply FindMatchingCRDs_lookup_Some in Hg as (g & Hin & Hn & Hc & ->).
  rewrite compareAll_invert in Hc. exists g.
  split; [done|]. split; [done|]. split; [done|]. by apply compareAll_invert_leftBy.
Qed.

Lemma FindNonMatchingCRDs_dom_subseteq existing goal cs :
  dom (FindNonMatchingCRDs existing goal cs) ⊆ list_to_set (Name <$> goal).
Proof.
  intros n. rewrite FindNonMatchingCRDs_dom. intros (g & Hin & <- & _).
  rewrite elem_of_list_to_set. by apply list_elem_of_fmap_2.
Qed.

(** With one comparator, failing every comparator is failing that one. *)
Lemma FindNonMatchingCRDs_single_dom existing goal c n :
  n ∈ dom (FindNonMatchingCRDs existing goal [c]) ↔
  ∃ g, g ∈ goal ∧ Name g = n ∧
       (c (default zeroCRD (indexByName existing !! Name g)) g).1 = false.
Proof.
  rewrite FindNonMatchingCRDs_dom. simpl.
  split; intros (g & ? & ? & H); exists g; repeat split; try done.
  - destruct (c _ g) as [r [e' g']]. simpl in *. by destruct r.
  - destruct (c _ g) as [r [e' g']]. simpl in *. by subst r.
Qed.

(** C1, as the specification words it, fails: the goal entry below has the
    version label of the installed CRD and another spec, so it fails
    [SpecEqual], one of the two comparators; the code does not return it. The
    entry is in neither the matching nor the non-matching result. *)
Lemma FindNonMatchingCRDs_misses_entry_failing_one :
  let existingCRD := sampleCRD "redis.cache.azure.com" "cache.azure.com" "Redis"
                       (Some (versionLabels "v2.5.0")) in
  let goalCRD := sampleCRD "redis.cache.azure.com" "cache.azure.com" "RedisCache"
                   (Some (versionLabels "v2.5.0")) in
  let comparators := [VersionEqual; SpecEqual] in
  (SpecEqual existingCRD goalCRD).1 = false ∧
  failsAny comparators existingCRD goalCRD = true ∧
  failsAll comparators existingCRD goalCRD = false ∧
  FindNonMatchingCRDs [existingCRD] [goalCRD] comparators = ∅ ∧
  FindMatchingCRDs [existingCRD] [goalCRD] comparators = ∅.
Proof. vm_compute. done. Qed.

(** C1, amended: [FindNonMatchingCRDs] returns the goal entries that fail
    every comparator: each comparator is inverted and the inverted
    comparators are conjoined. A name is in the result exactly when a goal
    entry of that name fails every comparator, each asked in turn,
    against the existing CRD of that name, or against the zero CRD when
    there is none. The entry returned under a name is the copy of such an entry
    as the comparators leave it: for [SpecEqual] it is the goal entry without
    the CA bundle of its webhook client configuration, for [VersionEqual] the
    goal entry itself. With one comparator the entries returned are those that
    fail it. *)
Theorem FindNonMatchingCRDs_fails_every_comparator
    (existing goal : list CustomResourceDefinition) (comparators : list comparator)
    (n : string) :
  (n ∈ dom (FindNonMatchingCRDs existing goal comparators) ↔
   ∃ g, g ∈ goal ∧ Name g = n ∧
        failsAll comparators (default zeroCRD (indexByName existing !! Name g)) g = true) ∧
  (∀ g', FindNonMatchingCRDs existing goal comparators !! n = Some g' →
     ∃ g, g ∈ goal ∧ Name g = n ∧
          failsAll comparators (default zeroCRD (indexByName existing !! Name g)) g = true ∧
          g' = leftBy comparators (default zeroCRD (indexByName existing !! Name g)) g) ∧
  (∀ c, n ∈ dom (FindNonMatchingCRDs existing goal [c]) ↔
        ∃ g, g ∈ goal ∧ Name g = n ∧
             (c (default zeroCRD (indexByName existing !! Name g)) g).1 = false) ∧
  (∀ g', FindNonMatchingCRDs existing goal [SpecEqual] !! n = Some g' →
     ∃ g, g ∈ goal ∧ Name g = n ∧ g' = ignoreCABundle g) ∧
  (∀ g', FindNonMatchingCRDs existing goal [VersionEqual] !! n = Some g' →
     g' ∈ goal ∧ Name g' = n).
Proof.
  split; [apply FindNonMatchingCRDs_dom|].
  split; [apply FindNonMatchingCRDs_lookup_Some|].
  split; [intros c; apply FindNonMatchingCRDs_single_dom|]. split.
  - intros g' Hg.
    apply FindNonMatchingCRDs_lookup_Some in Hg as (g & Hin & Hn & _ & ->). eauto.
  - intros g' Hg.
    apply FindNonMatchingCRDs_lookup_Some in Hg as (g & Hin & Hn & _ & ->). done.
Qed.

(** The goal CRD with a CA bundle differs in spec from the installed one:
    the search with [SpecEqual] returns it without its CA bundle. *)
Lemma FindNonMatchingCRDs_fails_every_comparator_witness :
  let goalCRD := set_Spec goalRedis (sampleWebhookSpec "aso" (Some [x01; x02])) in
  FindNonMatchingCRDs [installedRedis] [goalCRD] [SpecEqual] !! redisName
    = Some (ignoreCABundle goalCRD) ∧
  ignoreCABundle goalCRD ≠ goalCRD ∧
  failsAll [VersionEqual; SpecEqual] installedRedis goalRedis = true ∧
  FindNonMatchingCRDs [installedRedis] [goalRedis] [VersionEqual; SpecEqual] !! redisName
    = Some goalRedis.
Proof.
  intros goalCRD.
  assert (Hg : FindNonMatchingCRDs [installedRedis] [goalRedis] [VersionEqual; SpecEqual]
               !! redisName = Some goalRedis) by (vm_compute; reflexivity).
  assert (Hs : is_Some (FindNonMatchingCRDs [installedRedis] [goalCRD] [SpecEqual]
                          !! redisName)).
  { apply elem_of_dom.
    apply (FindNonMatchingCRDs_fails_every_comparator [installedRedis] [goalCRD]
             [SpecEqual] redisName).
    exists goalCRD. split; [apply list_elem_of_singleton; reflexivity|].
    split; reflexivity. }
  destruct Hs as [g' Hg'].
  destruct (FindNonMatchingCRDs_fails_every_comparator [installedRedis] [goalCRD]
              [SpecEqual] redisName) as (_ & _ & _ & Hspec & _).
  destruct (Hspec g' Hg') as (g & Hin & _ & ->).
  apply list_elem_of_singleton in Hin as ->.
  destruct (FindNonMatchingCRDs_fails_every_comparator [installedRedis] [goalRedis]
              [VersionEqual; SpecEqual] redisName) as (_ & Hentry & _).
  destruct (Hentry goalRedis Hg) as (g & Hin & _ & Hfails & _).
  apply list_elem_of_singleton in Hin as ->.
  split; [exact Hg'|]. split; [|split; [exact Hfails|exact Hg]].
  intros Heq.
  apply (f_equal (λ crd, conv ← Conversion (Spec crd); wh ← Webhook conv;
                         cc ← ClientConfig wh; CABundle cc)) in Heq.
  vm_compute in Heq. discriminate Heq.
Defined.

(** ** fixCRDNamespace *)

Lemma strings_Split_length s sep :
  length (strings_Split s sep) = S (countChar sep s).
Proof.
  induction s as [|c s IH]; simpl; [done|].
  case_decide; simpl; [by rewrite IH|].
  destruct (strings_Split s sep); simpl in *; [done|lia].
Qed.

Lemma strings_Split_no_sep s sep :
  countChar sep s = 0 → strings_Split s sep = [s].
Proof.
  induction s as [|c s IH]; simpl; [done|].
  case_decide; [done|]. intros Hzero. by rewrite IH.
Qed.

(** With exactly one separator the pieces are what precedes it and what
    follows it. *)
Lemma strings_Split_one_sep s sep :
  countChar sep s = 1 → ∃ before, strings_Split s sep = [before; afterChar sep s].
Proof.
  induction s as [|c s IH]; simpl; [done|].
  case_decide.
  - intros [= Hzero]. rewrite (strings_Split_no_sep _ _ Hzero). eauto.
  - intros Hone. destruct (IH Hone) as [before ->]. eauto.
Qed.

Lemma strings_Split_two s sep a b :
  strings_Split s sep = [a; b] → countChar sep s = 1.
Proof.
  intros H. pose proof (strings_Split_length s sep) as Hlen.
  rewrite H in Hlen. simpl in Hlen. lia.
Qed.

Lemma countChar_app sep s t :
  countChar sep (s +:+ t) = countChar sep s + countChar sep t.
Proof. induction s as [|c s IH]; simpl; [done|]. rewrite IH. lia. Qed.

(** A value of the form "<namespace>/<name>". *)
Lemma afterChar_qualified ns name :
  countChar slash ns = 0 →
  afterChar slash (ns +:+ "/" +:+ name) = name.
Proof.
  induction ns as [|c ns IH]; simpl; [done|].
  case_decide; [done|]. apply IH.
Qed.

Lemma countChar_qualified ns name :
  countChar slash ns = 0 → countChar slash name = 0 →
  countChar slash (ns +:+ "/" +:+ name) = 1.
Proof. intros H1 H2. rewrite !countChar_app, H1, H2. reflexivity. Qed.

Lemma fixServiceNamespace_Spec crd namespace :
  Spec (fixServiceNamespace crd namespace) = withServiceNamespace (Spec crd) namespace.
Proof.
  unfold fixServiceNamespace, withServiceNamespace.
  destruct crd as [n l a [g nm sc vs conv p]]; simpl.
  destruct conv as [[st [[[cc|] crv]|]]|]; simpl; try done.
  destruct cc as [u [svc|] ca]; done.
Qed.

Lemma fixServiceNamespace_meta crd namespace :
  Name (fixServiceNamespace crd namespace) = Name crd ∧
  Labels (fixServiceNamespace crd namespace) = Labels crd ∧
  Annotations (fixServiceNamespace crd namespace) = Annotations crd.
Proof.
  unfold fixServiceNamespace.
  repeat (case_match; simpl; try done).
Qed.

Lemma fixInjectCAFrom_rest crd namespace :
  Name (fixInjectCAFrom crd namespace) = Name crd ∧
  Labels (fixInjectCAFrom crd namespace) = Labels crd ∧
  Spec (fixInjectCAFrom crd namespace) = Spec crd.
Proof.
  unfold fixInjectCAFrom.
  repeat (case_match; simpl; try done).
Qed.

Lemma fixInjectCAFrom_rewritten crd namespace annotations value :
  Annotations crd = Some annotations →
  annotations !! certMgrInjectCAFromAnnotation = Some value →
  countChar slash value = 1 →
  Annotations (fixInjectCAFrom crd namespace) =
    Some (<[certMgrInjectCAFromAnnotation := namespace +:+ "/" +:+ afterChar slash value]>
            annotations).
Proof.
  intros Ha Hv Hone. unfold fixInjectCAFrom. rewrite Ha.
  rewrite bool_decide_eq_true_2.
  - rewrite Hv. destruct (strings_Split_one_sep _ _ Hone) as [before ->]. done.
  - destruct (decide (size annotations = 0)) as [Hz|]; [|lia].
    apply map_size_empty_inv in Hz. subst. by rewrite lookup_empty in Hv.
Qed.

Lemma fixInjectCAFrom_untouched crd namespace :
  (∀ annotations value,
      Annotations crd = Some annotations →
      annotations !! certMgrInjectCAFromAnnotation = Some value →
      countChar slash value ≠ 1) →
  fixInjectCAFrom crd namespace = crd.
Proof.
  intros H. unfold fixInjectCAFrom.
  destruct (Annotations crd) as [annotations|] eqn:Ha; [|done].
  case_bool_decide; [|done].
  destruct (annotations !! _) as [value|] eqn:Hv; [|done].
  specialize (H _ _ eq_refl Hv).
  destruct (strings_Split value slash) as [|a [|b [|c l]]] eqn:Hs; try done.
  by apply strings_Split_two in Hs.
Qed.

(** C8: [fixCRDNamespace] keeps the name, the labels and the spec of the CRD
    but for the namespace of the service behind the conversion webhook, which
    becomes the target namespace when there is such a service; the
    inject-ca-from annotation becomes "<target>/<name>" when its value has
    exactly one '/', and the annotations are left as they are otherwise. *)
Theorem fixCRDNamespace_rewrites_two_fields (crd : CustomResourceDefinition)
    (namespace : string) :
  let result := fixCRDNamespace crd namespace in
  Name result = Name crd ∧
  Labels result = Labels crd ∧
  Spec result = withServiceNamespace (Spec crd) namespace ∧
  (Namespace <$> serviceOf (Spec result)) = ((λ _, namespace) <$> serviceOf (Spec crd)) ∧
  (∀ annotations value,
      Annotations crd = Some annotations →
      annotations !! certMgrInjectCAFromAnnotation = Some value →
      countChar slash value = 1 →
      Annotations result =
        Some (<[certMgrInjectCAFromAnnotation :=
                  namespace +:+ "/" +:+ afterChar slash value]> annotations)) ∧
  ((∀ annotations value,
      Annotations crd = Some annotations →
      annotations !! certMgrInjectCAFromAnnotation = Some value →
      countChar slash value ≠ 1) →
   Annotations result = Annotations crd).
Proof.
  intros result. subst result. unfold fixCRDNamespace, DeepCopy.
  destruct (fixServiceNamespace_meta crd namespace) as (Hn & Hl & Ha).
  destruct (fixInjectCAFrom_rest (fixServiceNamespace crd namespace) namespace)
    as (Hn' & Hl' & Hs').
  assert (Hspec : Spec (fixInjectCAFrom (fixServiceNamespace crd namespace) namespace)
                  = withServiceNamespace (Spec crd) namespace).
  { by rewrite Hs', fixServiceNamespace_Spec. }
  repeat split.
  - by rewrite Hn'.
  - by rewrite Hl'.
  - exact Hspec.
  - rewrite Hspec. unfold withServiceNamespace, serviceOf.
    destruct crd as [n l a [g nm sc vs conv p]]; simpl.
    destruct conv as [[st [[[cc|] crv]|]]|]; simpl; try done.
    destruct cc as [u [svc|] ca]; done.
  - intros annotations value Hann Hv Hone.
    apply fixInjectCAFrom_rewritten; [by rewrite Ha|done|done].
  - intros Hnot. rewrite fixInjectCAFrom_untouched; [done|].
    intros annotations value Hann. rewrite Ha in Hann. by apply Hnot.
Qed.

Lemma fixCRDNamespace_rewrites_two_fields_witness :
  let result := fixCRDNamespace (sampleWebhookCRD "old-ns" "old-ns/some-cert") "new-ns" in
  countChar slash "old-ns/some-cert" = 1 ∧
  (Namespace <$> serviceOf (Spec result)) = Some "new-ns" ∧
  Annotations result = Some {[ certMgrInjectCAFromAnnotation := "new-ns/some-cert" ]} ∧
  (∀ annotations value,
      Annotations (sampleWebhookCRD "old-ns" "no-slash-value") = Some annotations →
      annotations !! certMgrInjectCAFromAnnotation = Some value →
      countChar slash value ≠ 1) ∧
  Annotations (fixCRDNamespace (sampleWebhookCRD "old-ns" "no-slash-value") "new-ns")
    = Some {[ certMgrInjectCAFromAnnotation := "no-slash-value" ]}.
Proof.
  intros result. subst result.
  pose proof (fixCRDNamespace_rewrites_two_fields
                (sampleWebhookCRD "old-ns" "old-ns/some-cert") "new-ns")
    as (_ & _ & _ & Hsvc & Hrew & _).
  pose proof (fixCRDNamespace_rewrites_two_fields
                (sampleWebhookCRD "old-ns" "no-slash-value") "new-ns")
    as (_ & _ & _ & _ & _ & Hkeep).
  assert (Hno : ∀ annotations value,
      Annotations (sampleWebhookCRD "old-ns" "no-slash-value") = Some annotations →
      annotations !! certMgrInjectCAFromAnnotation = Some value →
      countChar slash value ≠ 1).
  { intros annotations value [= <-] Hv.
    rewrite lookup_singleton_eq in Hv. injection Hv as <-. vm_compute. discriminate. }
  split; [reflexivity|].
  split; [exact Hsvc|].
  split; [|split; [exact Hno|exact (Hkeep Hno)]].
  rewrite (Hrew _ "old-ns/some-cert" eq_refl); [|apply lookup_singleton_eq|reflexivity].
  by rewrite insert_singleton_eq.
Defined.

(** ** The planner, pass by pass *)

Section PlannerFacts.
Context `{ML : MatchLibrary}.

(** *** The pattern matcher *)

Lemma Matches_patterns m value :
  (clauses (Matches m value).2).*1 = (clauses m).*1.
Proof.
  unfold Matches. simpl. rewrite <- list_fmap_compose.
  apply list_fmap_ext. by intros _ [p u] _.
Qed.

Lemma Matches_Matched m value :
  Matched (Matches m value).1 = existsb (λ p, patternMatches p value) (clauses m).*1.
Proof.
  unfold Matches. simpl. induction (clauses m) as [|[p u] l IH]; simpl; [done|].
  rewrite filter_cons. simpl. destruct (patternMatches p value) eqn:Hp; simpl.
  - done.
  - exact IH.
Qed.

Lemma NewStringMatcher_patterns patterns :
  (clauses (NewStringMatcher patterns)).*1 = patternsOf patterns.
Proof.
  unfold NewStringMatcher. simpl. induction (patternsOf patterns); simpl; [done|].
  by f_equal.
Qed.

Lemma askAll_clauses m values :
  clauses (askAll m values) =
    (λ c, (c.1, c.2 || existsb (λ value, patternMatches c.1 value) values)) <$> clauses m.
Proof.
  revert m. induction values as [|value values IH]; intros m.
  - simpl. induction (clauses m) as [|[p u] l IHl]; simpl; [done|].
    rewrite orb_false_r. by f_equal.
  - simpl. rewrite IH. unfold Matches. simpl.
    rewrite <- list_fmap_compose. apply list_fmap_ext.
    intros _ [p u] _. simpl. by rewrite orb_assoc.
Qed.

(** [WasMatched] fails exactly on the patterns that matched none of the
    values asked about. *)
Lemma WasMatched_askAll patterns values :
  WasMatched (askAll (NewStringMatcher patterns) values) =
    match filter (λ p, existsb (λ value, patternMatches p value) values = false)
                 (patternsOf patterns) with
    | [] => None
    | unmatched => Some (PatternValidationError unmatched)
    end.
Proof.
  unfold WasMatched. rewrite askAll_clauses. unfold NewStringMatcher. simpl.
  assert (Heq : (filter (λ c : string * bool, c.2 = false)
              ((λ c : string * bool,
                  (c.1, c.2 || existsb (λ value, patternMatches c.1 value) values))
               <$> ((λ p, (p, false)) <$> patternsOf patterns))).*1
          = filter (λ p, existsb (λ value, patternMatches p value) values = false)
                   (patternsOf patterns)).
  { induction (patternsOf patterns) as [|p l IH]; [done|].
    rewrite !fmap_cons, !filter_cons. simpl.
    destruct (existsb _ values) eqn:He.
    - rewrite !decide_False by done. exact IH.
    - rewrite !decide_True by done. rewrite fmap_cons. simpl. by f_equal. }
  rewrite Heq. by destruct (filter _ (patternsOf patterns)).
Qed.

(** *** Seeding: one instruction per goal name *)

Lemma seedResultMap_snoc goal crd :
  seedResultMap (goal ++ [crd]) = <[Name crd := seedInstruction crd]> (seedResultMap goal).
Proof. unfold seedResultMap. by rewrite foldl_app. Qed.

Lemma seedResultMap_dom goal :
  dom (seedResultMap goal) = list_to_set (Name <$> goal).
Proof.
  induction goal as [|x goal IH] using rev_ind.
  - unfold seedResultMap. simpl. by rewrite dom_empty_L.
  - rewrite seedResultMap_snoc, dom_insert_L, IH, fmap_app, list_to_set_app_L.
    simpl. rewrite (right_id_L ∅ (∪)). apply (comm_L (∪)).
Qed.

Lemma seedResultMap_lookup_Some goal n i :
  seedResultMap goal !! n = Some i →
  ∃ crd, crd ∈ goal ∧ Name crd = n ∧ i = seedInstruction crd.
Proof.
  induction goal as [|x goal IH] using rev_ind.
  - unfold seedResultMap. simpl. by rewrite lookup_empty.
  - rewrite seedResultMap_snoc, lookup_insert. case_decide.
    + intros [= <-]. exists x. split; [in_snoc|done].
    + intros H'. destruct (IH H') as (crd & ? & ? & ?). exists crd. split; [in_snoc|done].
Qed.

(** *** The pass over the existing CRDs *)

Lemma filterCRDsByExisting_snoc existing crd m :
  filterCRDsByExisting (existing ++ [crd]) m =
    let m' := filterCRDsByExisting existing m in
    match m' !! Name crd with
    | None => m'
    | Some result =>
        <[Name crd := set_Filter result MatchedExistingCRD
                        (ReasonAlreadyInstalled (makeMatchString crd))]> m'
    end.
Proof. unfold filterCRDsByExisting. by rewrite foldl_app. Qed.

(** An instruction keeps its CRD and its [DiffResult]; it becomes
    [MatchedExistingCRD] when an existing CRD has its name, and keeps its
    [FilterResult] otherwise. *)
Lemma filterCRDsByExisting_lookup existing m n :
  match m !! n with
  | None => filterCRDsByExisting existing m !! n = None
  | Some i =>
      ∃ i', filterCRDsByExisting existing m !! n = Some i' ∧
            CRD i' = CRD i ∧ DiffResult i' = DiffResult i ∧
            FilterResult i' =
              if bool_decide (n ∈ Name <$> existing) then MatchedExistingCRD
              else FilterResult i
  end.
Proof.
  induction existing as [|x existing IH] using rev_ind.
  - unfold filterCRDsByExisting. simpl. destruct (m !! n) as [i|]; [|done].
    by exists i.
  - rewrite filterCRDsByExisting_snoc. cbv zeta.
    destruct (decide (Name x = n)) as [<-|Hne].
    + destruct (m !! Name x) as [i|].
      * destruct IH as (i' & -> & Hc & Hd & _).
        eexists. rewrite lookup_insert_eq. split; [done|]. simpl.
        repeat split; try done.
        rewrite bool_decide_eq_true_2; [done|].
        in_snoc.
      * by rewrite IH.
    + assert (Hin : bool_decide (n ∈ Name <$> existing ++ [x])
                    = bool_decide (n ∈ Name <$> existing)).
      { apply bool_decide_ext.
        rewrite fmap_app, elem_of_app, list_fmap_singleton, list_elem_of_singleton.
        split; [intros [?|?]; [done|congruence]|by left]. }
      rewrite Hin.
      destruct (filterCRDsByExisting existing m !! Name x);
        [rewrite lookup_insert_ne by done|]; exact IH.
Qed.

(** *** The pass over the patterns *)

Lemma patternUpdate_fields patterns goal :
  CRD (patternUpdate patterns goal) = CRD goal ∧
  DiffResult (patternUpdate patterns goal) = DiffResult goal ∧
  FilterResult (patternUpdate patterns goal) =
    if matchedBy patterns (makeMatchString (CRD goal)) then MatchedPattern
    else FilterResult goal.
Proof.
  unfold patternUpdate, matchedBy.
  rewrite Matches_Matched, NewStringMatcher_patterns.
  by destruct (existsb _ _).
Qed.

(** What the matcher answers depends on its patterns, not on what it has
    flagged so far. *)
Lemma Matches_answer m m' value :
  (clauses m).*1 = (clauses m').*1 → (Matches m value).1 = (Matches m' value).1.
Proof.
  unfold Matches. simpl. intros Heq.
  assert (Hhits : (filter (λ c : string * bool, patternMatches c.1 value = true)
                     (clauses m)).*1
                = (filter (λ c : string * bool, patternMatches c.1 value = true)
                     (clauses m')).*1).
  { revert Heq. generalize (clauses m'). induction (clauses m) as [|[p u] l IH];
      intros [|[p' u'] l']; simpl; try done.
    intros [= <- Hl]. rewrite !filter_cons. simpl.
    destruct (patternMatches p value); simpl.
    - f_equal. by apply IH.
    - by apply IH. }
  f_equal.
  - apply bool_decide_ext.
    destruct (filter _ (clauses m)), (filter _ (clauses m')); simpl in *; done.
  - destruct (filter _ (clauses m)), (filter _ (clauses m')); simpl in *; try done.
    by injection Hhits as -> _.
Qed.

Lemma patternStep_unfold patterns m mt n goal :
  (clauses mt).*1 = patternsOf patterns →
  patternStep (m, mt) (n, goal) =
    (if matchedBy patterns (makeMatchString (CRD goal))
     then <[n := patternUpdate patterns goal]> m else m,
     (Matches mt (makeMatchString (CRD goal))).2).
Proof.
  intros Hp. unfold patternStep, patternUpdate.
  destruct (Matches mt (makeMatchString (CRD goal))) as [r mt'] eqn:HM.
  assert (Hr : r = (Matches (NewStringMatcher patterns) (makeMatchString (CRD goal))).1).
  { change r with (r, mt').1. rewrite <- HM. apply Matches_answer.
    by rewrite NewStringMatcher_patterns. }
  rewrite <- Hr. simpl.
  assert (HMd : Matched r = matchedBy patterns (makeMatchString (CRD goal))).
  { change r with (r, mt').1. rewrite <- HM, Matches_Matched, Hp. done. }
  rewrite <- HMd. by destruct (Matched r).
Qed.

Lemma askAll_patterns m values :
  (clauses (askAll m values)).*1 = (clauses m).*1.
Proof.
  revert m. induction values as [|v vs IH]; intros m; [done|].
  change (askAll m (v :: vs)) with (askAll (Matches m v).2 vs).
  rewrite IH. apply Matches_patterns.
Qed.

(** The loop over the instructions, for any order of visit without
    repetition: every entry visited is updated on its own. *)
Lemma foldl_patternStep patterns m (l : list (string * CRDInstallationInstruction)) mt :
  (clauses mt).*1 = patternsOf patterns →
  NoDup l.*1 →
  (∀ n goal, (n, goal) ∈ l → m !! n = Some goal) →
  let r := foldl patternStep (m, mt) l in
  (∀ n, r.1 !! n = if bool_decide (n ∈ l.*1) then patternUpdate patterns <$> m !! n
                   else m !! n) ∧
  r.2 = askAll mt ((λ e, makeMatchString (CRD e.2)) <$> l).
Proof.
  intros Hp. induction l as [|[k goal] l IH] using rev_ind; intros Hnd Hin.
  - simpl. by split.
  - rewrite fmap_app in Hnd. apply NoDup_app in Hnd as (Hnd & Hfresh & _).
    destruct IH as [IH1 IH2]; [done|intros; apply Hin; in_snoc|].
    cbv zeta. rewrite foldl_app. cbn [foldl].
    destruct (foldl patternStep (m, mt) l) as [m' mt'] eqn:Hfold. cbn [fst snd] in *.
    rewrite (patternStep_unfold patterns); cycle 1.
    { by rewrite IH2, askAll_patterns. }
    cbn [fst snd]. split.
    + intros n. rewrite fmap_app, list_fmap_singleton. cbn [fst].
      assert (Hk : k ∉ l.*1).
      { intros Hk. apply (Hfresh k Hk). simpl. apply list_elem_of_singleton. done. }
      assert (Hmk : m !! k = Some goal) by (apply Hin; in_snoc).
      destruct (decide (n = k)) as [->|Hne].
      * rewrite bool_decide_eq_true_2 by in_snoc.
        rewrite Hmk. simpl.
        destruct (matchedBy patterns (makeMatchString (CRD goal))) eqn:Hm.
        -- by rewrite lookup_insert_eq.
        -- rewrite IH1, bool_decide_eq_false_2 by done. rewrite Hmk.
           unfold patternUpdate. rewrite Matches_Matched, NewStringMatcher_patterns.
           unfold matchedBy in Hm. by rewrite Hm.
      * assert (Hb : bool_decide (n ∈ l.*1 ++ [k]) = bool_decide (n ∈ l.*1)).
        { apply bool_decide_ext. rewrite elem_of_app, list_elem_of_singleton.
          split; [intros [?|?]; [done|congruence]|by left]. }
        rewrite Hb, <- IH1.
        destruct (matchedBy patterns (makeMatchString (CRD goal)));
          [by rewrite lookup_insert_ne|done].
    + rewrite IH2, fmap_app. unfold askAll. by rewrite foldl_app.
Qed.

(** The pass in one equation: it fails when the specification is not empty
    and one of its patterns matches no candidate; otherwise every
    instruction is updated on its own. *)
Lemma filterCRDsByPatterns_eq patterns m :
  filterCRDsByPatterns patterns m =
    if decide (patterns = "") then inr m
    else match unmatchedPatterns patterns m with
         | [] => inr (patternUpdate patterns <$> m)
         | unmatched => inl (PatternValidationError unmatched)
         end.
Proof.
  unfold filterCRDsByPatterns. case_decide; [done|].
  pose proof (foldl_patternStep patterns m (map_to_list m) (NewStringMatcher patterns)
                (NewStringMatcher_patterns patterns) (NoDup_fst_map_to_list m)) as Hfold.
  destruct Hfold as [H1 H2].
  { intros n goal Hin. by apply elem_of_map_to_list. }
  destruct (foldl patternStep _ _) as [m' mt'] eqn:Hf. simpl in *.
  rewrite H2, WasMatched_askAll. fold (candidates m). fold (unmatchedPatterns patterns m).
  destruct (unmatchedPatterns patterns m); [|done].
  f_equal. apply map_eq. intros n. rewrite H1, lookup_fmap.
  case_bool_decide as Hn; [done|].
  destruct (m !! n) as [i|] eqn:Hi; [|done].
  exfalso. apply Hn. apply list_elem_of_fmap. exists (n, i). split; [done|].
  by apply elem_of_map_to_list.
Qed.

End PlannerFacts.

Section PlanFacts.
Context `{ML : MatchLibrary}.

(** *** The instructions left after filtering *)

Lemma foldl_filteredGoals (l : list (string * CRDInstallationInstruction)) acc :
  foldl (λ filteredGoalCRDs entry,
           if decide (FilterResult entry.2 = Excluded) then filteredGoalCRDs
           else filteredGoalCRDs ++ [CRD entry.2]) acc l
  = acc ++ (CRD ∘ snd <$> filter (λ e, FilterResult e.2 ≠ Excluded) l).
Proof.
  revert acc. induction l as [|e l IH]; intros acc; simpl.
  - by rewrite app_nil_r.
  - rewrite IH, filter_cons. case_decide as He.
    + by rewrite decide_False by (by intros ?).
    + rewrite decide_True by done. by rewrite <- app_assoc.
Qed.

Lemma elem_of_filteredGoals m crd :
  crd ∈ filteredGoals m ↔
  ∃ n i, m !! n = Some i ∧ FilterResult i ≠ Excluded ∧ crd = CRD i.
Proof.
  unfold filteredGoals. rewrite foldl_filteredGoals. simpl.
  rewrite list_elem_of_fmap. split.
  - intros ([n i] & -> & Hin). apply list_elem_of_filter in Hin as [Hf Hin].
    apply elem_of_map_to_list in Hin. by exists n, i.
  - intros (n & i & Hm & Hf & ->). exists (n, i). split; [done|].
    apply list_elem_of_filter. split; [done|]. by apply elem_of_map_to_list.
Qed.

Lemma filteredGoals_names m :
  keyedByName m →
  (list_to_set (Name <$> filteredGoals m) : gset string) ⊆ dom m.
Proof.
  intros Hk n. rewrite elem_of_list_to_set, list_elem_of_fmap.
  intros (crd & -> & Hin). apply elem_of_filteredGoals in Hin as (n & i & Hm & _ & ->).
  rewrite (Hk n i Hm). by apply elem_of_dom_2 in Hm.
Qed.

(** *** The marking passes *)

Lemma foldl_markStep_inl d err l :
  foldl (markStep d) (inl err) l = inl err.
Proof. induction l; simpl; done. Qed.

Lemma foldl_markStep d (l : list (string * CustomResourceDefinition)) m :
  (∀ n, n ∈ l.*1 → is_Some (m !! n)) →
  ∃ m', foldl (markStep d) (inr m) l = inr m' ∧
        ∀ n, m' !! n = markUpdate d (list_to_set l.*1) n <$> m !! n.
Proof.
  induction l as [|[k crd] l IH] using rev_ind; intros Hdom.
  - exists m. split; [done|]. intros n. unfold markUpdate. simpl.
    rewrite bool_decide_eq_false_2 by apply not_elem_of_empty.
    by destruct (m !! n).
  - destruct IH as (m' & Hfold & Hm').
    { intros n Hn. apply Hdom. rewrite fmap_app. apply elem_of_app. by left. }
    rewrite foldl_app, Hfold. simpl.
    destruct (Hdom k) as [ik Hik]; [in_snoc|].
    assert (Hk' : m' !! k = Some (markUpdate d (list_to_set l.*1) k ik)).
    { by rewrite Hm', Hik. }
    rewrite Hk'. eexists. split; [done|]. intros n.
    rewrite fmap_app, list_to_set_app_L. simpl.
    destruct (decide (n = k)) as [->|Hne].
    + rewrite lookup_insert_eq, Hik. simpl. f_equal. unfold markUpdate.
      rewrite (bool_decide_eq_true_2 (k ∈ _ ∪ _)) by set_solver.
      by case_bool_decide.
    + rewrite lookup_insert_ne, Hm' by done. unfold markUpdate.
      destruct (m !! n); [simpl|done]. f_equal.
      assert (Hb : bool_decide (n ∈ (list_to_set l.*1 : gset string) ∪ ({[k]} ∪ ∅))
              = bool_decide (n ∈ (list_to_set l.*1 : gset string))).
      { apply bool_decide_ext. set_solver. }
      by rewrite Hb.
Qed.

(** A marking pass does not fail when the names it marks are names of
    instructions; it sets the [DiffResult] of those and leaves the rest. *)
Lemma markDifferent_inr d different m :
  dom different ⊆ dom m →
  ∃ m', markDifferent d different m = inr m' ∧
        ∀ n, m' !! n = markUpdate d (dom different) n <$> m !! n.
Proof.
  intros Hsub. unfold markDifferent.
  destruct (foldl_markStep d (map_to_list different) m) as (m' & Hfold & Hm').
  { intros n Hn. apply elem_of_dom, Hsub, elem_of_dom.
    apply list_elem_of_fmap in Hn as ([k crd] & -> & Hin).
    apply elem_of_map_to_list in Hin. eauto. }
  exists m'. split; [done|]. intros n. rewrite Hm'.
  assert (Hd : (list_to_set (map_to_list different).*1 : gset string) = dom different).
  { apply set_eq. intros k. rewrite elem_of_list_to_set, elem_of_dom, list_elem_of_fmap.
    split.
    - intros ([k' crd] & -> & Hin). apply elem_of_map_to_list in Hin. eauto.
    - intros [crd Hcrd]. exists (k, crd). split; [done|]. by apply elem_of_map_to_list. }
  by rewrite Hd.
Qed.

(** *** The invariant: instructions sit under the names of their CRDs *)

Lemma seedResultMap_keyed goal : keyedByName (seedResultMap goal).
Proof.
  intros n i Hi. apply seedResultMap_lookup_Some in Hi as (crd & _ & <- & ->). done.
Qed.

Lemma filterCRDsByExisting_keyed existing m :
  keyedByName m → keyedByName (filterCRDsByExisting existing m).
Proof.
  intros Hk n i' Hi'. pose proof (filterCRDsByExisting_lookup existing m n) as H.
  destruct (m !! n) as [i|] eqn:Hi; [|congruence].
  destruct H as (i'' & Hi'' & Hc & _). rewrite Hi' in Hi''. injection Hi'' as <-.
  rewrite Hc. by apply Hk.
Qed.

Lemma filterCRDsByExisting_dom existing m :
  dom (filterCRDsByExisting existing m) = dom m.
Proof.
  apply set_eq. intros n. rewrite !elem_of_dom.
  pose proof (filterCRDsByExisting_lookup existing m n) as H.
  destruct (m !! n) as [i|].
  - destruct H as (i' & -> & _). split; eauto.
  - rewrite H. done.
Qed.

Lemma filterCRDsByPatterns_inr patterns m m' :
  filterCRDsByPatterns patterns m = inr m' →
  ∀ n, m' !! n = (if decide (patterns = "") then id else patternUpdate patterns) <$> m !! n.
Proof.
  rewrite filterCRDsByPatterns_eq. case_decide.
  - intros [= <-] n. by rewrite option_fmap_id.
  - destruct (unmatchedPatterns patterns m); [|done].
    intros [= <-] n. by rewrite lookup_fmap.
Qed.

Lemma filterCRDsByPatterns_keyed patterns m m' :
  filterCRDsByPatterns patterns m = inr m' → keyedByName m → keyedByName m'.
Proof.
  intros Hp Hk n i' Hi'. rewrite (filterCRDsByPatterns_inr _ _ _ Hp) in Hi'.
  destruct (m !! n) as [i|] eqn:Hi; [|done]. simpl in Hi'. injection Hi' as <-.
  case_decide; [by apply Hk|].
  destruct (patternUpdate_fields patterns i) as (-> & _). by apply Hk.
Qed.

Lemma filterCRDsByPatterns_dom patterns m m' :
  filterCRDsByPatterns patterns m = inr m' → dom m' = dom m.
Proof.
  intros Hp. apply set_eq. intros n. rewrite !elem_of_dom.
  rewrite (filterCRDsByPatterns_inr _ _ _ Hp). by rewrite fmap_is_Some.
Qed.

(** *** The planner as a whole *)

(** Once the pattern pass succeeds the planner succeeds: the two marking
    passes never meet a name without an instruction. *)
Lemma planResultMap_inr goal existing patterns m1 :
  filterCRDsByPatterns patterns (filterCRDsByExisting existing (seedResultMap goal))
    = inr m1 →
  ∃ m2 final,
    markDifferent SpecDifferent (differentSpec existing m1) m1 = inr m2 ∧
    markDifferent VersionDifferent (differentVersion existing m1) m2 = inr final ∧
    planResultMap goal existing patterns = inr final ∧
    (∀ n, m2 !! n = markUpdate SpecDifferent (dom (differentSpec existing m1)) n
                      <$> m1 !! n) ∧
    (∀ n, final !! n = markUpdate VersionDifferent (dom (differentVersion existing m1)) n
                         <$> m2 !! n).
Proof.
  intros Hp.
  assert (Hk : keyedByName m1).
  { eapply filterCRDsByPatterns_keyed; [done|].
    apply filterCRDsByExisting_keyed, seedResultMap_keyed. }
  destruct (markDifferent_inr SpecDifferent (differentSpec existing m1) m1)
    as (m2 & Hm2 & Hl2).
  { etrans; [apply FindNonMatchingCRDs_dom_subseteq|by apply filteredGoals_names]. }
  destruct (markDifferent_inr VersionDifferent (differentVersion existing m1) m2)
    as (final & Hfinal & Hlf).
  { etrans; [apply FindNonMatchingCRDs_dom_subseteq|].
    etrans; [by apply filteredGoals_names|].
    intros n. rewrite !elem_of_dom, Hl2. by rewrite fmap_is_Some. }
  exists m2, final. repeat split; try done.
  unfold planResultMap. rewrite Hp.
  fold (differentSpec existing m1). rewrite Hm2.
  by fold (differentVersion existing m1).
Qed.

Lemma planResultMap_inl goal existing patterns err :
  filterCRDsByPatterns patterns (filterCRDsByExisting existing (seedResultMap goal))
    = inl err →
  planResultMap goal existing patterns = inl err.
Proof. intros Hp. unfold planResultMap. by rewrite Hp. Qed.

Lemma markUpdate_fields d names n i :
  CRD (markUpdate d names n i) = CRD i ∧
  FilterResult (markUpdate d names n i) = FilterResult i ∧
  DiffResult (markUpdate d names n i) = if bool_decide (n ∈ names) then d else DiffResult i.
Proof. unfold markUpdate. by case_bool_decide. Qed.

End PlanFacts.

(** ** The planner: the claims *)

Section PlannerClaims.
Context `{ML : MatchLibrary}.

Lemma afterExisting_lookup goal existing n before :
  filterCRDsByExisting existing (seedResultMap goal) !! n = Some before →
  CRD before ∈ goal ∧ Name (CRD before) = n ∧
  DiffResult before = NoDifference ∧
  FilterResult before =
    if bool_decide (n ∈ Name <$> existing) then MatchedExistingCRD else Excluded.
Proof.
  intros Hb. pose proof (filterCRDsByExisting_lookup existing (seedResultMap goal) n) as H.
  destruct (seedResultMap goal !! n) as [i|] eqn:Hi; [|congruence].
  destruct H as (i' & Hi' & Hc & Hd & Hf). rewrite Hb in Hi'. injection Hi' as <-.
  apply seedResultMap_lookup_Some in Hi as (crd & Hin & Hn & ->).
  rewrite Hc, Hd, Hf. done.
Qed.

(** C3: with a pattern specification that is not empty, the pattern pass
    works on the result of the pass over the existing CRDs, and the planner
    keeps the classification it leaves; it never lowers a classification: an
    [Excluded] instruction becomes [MatchedPattern] when a pattern matches
    it and stays [Excluded] otherwise, and a [MatchedExistingCRD]
    instruction does not become [Excluded]. *)
Theorem filterCRDsByPatterns_never_downgrades
    (goal existing : list CustomResourceDefinition) (patterns : string)
    (m1 : gmap string CRDInstallationInstruction) :
  patterns ≠ "" →
  filterCRDsByPatterns patterns (filterCRDsByExisting existing (seedResultMap goal))
    = inr m1 →
  ∀ n before,
    filterCRDsByExisting existing (seedResultMap goal) !! n = Some before →
    FilterResult before =
      (if bool_decide (n ∈ Name <$> existing) then MatchedExistingCRD else Excluded) ∧
    ∃ after final i,
      m1 !! n = Some after ∧
      planResultMap goal existing patterns = inr final ∧
      final !! n = Some i ∧
      FilterResult i = FilterResult after ∧
      filterRank (FilterResult before) ≤ filterRank (FilterResult after) ∧
      (FilterResult before = Excluded →
       FilterResult after =
         if matchedBy patterns (makeMatchString (CRD before)) then MatchedPattern
         else Excluded) ∧
      (FilterResult before = MatchedExistingCRD → FilterResult after ≠ Excluded).
Proof.
  intros Hne Hp n before Hb.
  destruct (afterExisting_lookup _ _ _ _ Hb) as (_ & _ & _ & Hf). split; [done|].
  destruct (planResultMap_inr goal existing patterns m1 Hp)
    as (m2 & final & _ & _ & Hplan & Hl2 & Hlf).
  pose proof (filterCRDsByPatterns_inr _ _ _ Hp n) as Hafter.
  rewrite Hb, decide_False in Hafter by done. simpl in Hafter.
  destruct (patternUpdate_fields patterns before) as (_ & _ & Hpf).
  eexists _, final, _. split; [exact Hafter|]. split; [exact Hplan|].
  split; [by rewrite Hlf, Hl2, Hafter|].
  destruct (markUpdate_fields VersionDifferent (dom (differentVersion existing m1)) n
              (markUpdate SpecDifferent (dom (differentSpec existing m1)) n
                 (patternUpdate patterns before))) as (_ & -> & _).
  destruct (markUpdate_fields SpecDifferent (dom (differentSpec existing m1)) n
              (patternUpdate patterns before)) as (_ & -> & _).
  split; [done|]. rewrite Hpf.
  destruct (matchedBy patterns (makeMatchString (CRD before))); repeat split;
    try done.
  - destruct (FilterResult before); simpl; lia.
  - by intros ->.
Qed.

Lemma planResultMap_inv goal existing patterns final :
  planResultMap goal existing patterns = inr final →
  ∃ m1,
    filterCRDsByPatterns patterns (filterCRDsByExisting existing (seedResultMap goal))
      = inr m1 ∧
    ∀ n, final !! n =
           (λ i1, markUpdate VersionDifferent (dom (differentVersion existing m1)) n
                    (markUpdate SpecDifferent (dom (differentSpec existing m1)) n i1))
           <$> m1 !! n.
Proof.
  intros Hplan.
  destruct (filterCRDsByPatterns patterns
              (filterCRDsByExisting existing (seedResultMap goal))) as [err|m1] eqn:Hp.
  { rewrite (planResultMap_inl _ _ _ _ Hp) in Hplan. done. }
  destruct (planResultMap_inr goal existing patterns m1 Hp)
    as (m2 & final' & _ & _ & Hplan' & Hl2 & Hlf).
  rewrite Hplan in Hplan'. injection Hplan' as <-.
  exists m1. split; [done|]. intros n. rewrite Hlf, Hl2.
  by destruct (m1 !! n).
Qed.

(** C5: every instruction enters the marking passes with [NoDifference];
    the pass for the spec differences runs first and the pass for the
    version differences second, neither lowers a [DiffResult], and an
    instruction whose name is in both sets of mismatches ends as
    [VersionDifferent]. *)
Theorem DiffResult_only_escalates
    (goal existing : list CustomResourceDefinition) (patterns : string)
    (final : gmap string CRDInstallationInstruction) :
  planResultMap goal existing patterns = inr final →
  ∃ m1 m2,
    filterCRDsByPatterns patterns (filterCRDsByExisting existing (seedResultMap goal))
      = inr m1 ∧
    markDifferent SpecDifferent (differentSpec existing m1) m1 = inr m2 ∧
    markDifferent VersionDifferent (differentVersion existing m1) m2 = inr final ∧
    ∀ n i, final !! n = Some i →
      ∃ i1 i2,
        m1 !! n = Some i1 ∧ m2 !! n = Some i2 ∧
        DiffResult i1 = NoDifference ∧
        diffRank (DiffResult i1) ≤ diffRank (DiffResult i2) ∧
        diffRank (DiffResult i2) ≤ diffRank (DiffResult i) ∧
        DiffResult i2 =
          (if bool_decide (n ∈ dom (differentSpec existing m1)) then SpecDifferent
           else NoDifference) ∧
        DiffResult i =
          (if bool_decide (n ∈ dom (differentVersion existing m1)) then VersionDifferent
           else DiffResult i2) ∧
        (n ∈ dom (differentSpec existing m1) →
         n ∈ dom (differentVersion existing m1) →
         DiffResult i = VersionDifferent).
Proof.
  intros Hplan.
  destruct (filterCRDsByPatterns patterns
              (filterCRDsByExisting existing (seedResultMap goal))) as [err|m1] eqn:Hp.
  { rewrite (planResultMap_inl _ _ _ _ Hp) in Hplan. done. }
  destruct (planResultMap_inr goal existing patterns m1 Hp)
    as (m2 & final' & Hm2 & Hfinal & Hplan' & Hl2 & Hlf).
  rewrite Hplan in Hplan'. injection Hplan' as <-.
  exists m1, m2. repeat split; try done.
  intros n i Hi. rewrite Hlf, Hl2 in Hi.
  destruct (m1 !! n) as [i1|] eqn:Hi1; [|done]. simpl in Hi. injection Hi as <-.
  exists i1, (markUpdate SpecDifferent (dom (differentSpec existing m1)) n i1).
  split; [done|]. split; [by rewrite Hl2, Hi1|].
  assert (Hd1 : DiffResult i1 = NoDifference).
  { pose proof (filterCRDsByPatterns_inr _ _ _ Hp n) as Hafter. rewrite Hi1 in Hafter.
    destruct (filterCRDsByExisting existing (seedResultMap goal) !! n) as [b|] eqn:Hb;
      [|done].
    destruct (afterExisting_lookup _ _ _ _ Hb) as (_ & _ & Hd & _).
    simpl in Hafter. injection Hafter as ->. case_decide; [done|].
    by destruct (patternUpdate_fields patterns b) as (_ & -> & _). }
  destruct (markUpdate_fields VersionDifferent (dom (differentVersion existing m1)) n
              (markUpdate SpecDifferent (dom (differentSpec existing m1)) n i1))
    as (_ & _ & ->).
  destruct (markUpdate_fields SpecDifferent (dom (differentSpec existing m1)) n i1)
    as (_ & _ & ->).
  rewrite Hd1. split; [done|].
  repeat case_bool_decide; simpl; repeat split; try done; try lia.
Qed.

Lemma DetermineCRDsToInstallOrUpgrade_inr goal existing patterns l :
  DetermineCRDsToInstallOrUpgrade goal existing patterns = inr l ↔
  ∃ final, planResultMap goal existing patterns = inr final ∧ l = (map_to_list final).*2.
Proof.
  unfold DetermineCRDsToInstallOrUpgrade.
  destruct (planResultMap goal existing patterns) as [err|final]; split.
  - done.
  - by intros (? & ? & _).
  - intros [= <-]. eauto.
  - by intros (? & [= <-] & ->).
Qed.

(** The instruction map the planner ends with: one instruction under each
    goal name, holding a goal CRD of that name. *)
Lemma planResultMap_shape goal existing patterns final :
  planResultMap goal existing patterns = inr final →
  dom final = list_to_set (Name <$> goal) ∧
  ∀ n i, final !! n = Some i → Name (CRD i) = n ∧ CRD i ∈ goal.
Proof.
  intros Hplan.
  destruct (planResultMap_inv goal existing patterns final Hplan)
    as (m1 & Hp & Hfields).
  split.
  - rewrite <- seedResultMap_dom,
      <- (filterCRDsByExisting_dom existing (seedResultMap goal)),
      <- (filterCRDsByPatterns_dom _ _ _ Hp).
    apply set_eq. intros n. rewrite !elem_of_dom. rewrite Hfields.
    by rewrite fmap_is_Some.
  - intros n i Hi. rewrite Hfields in Hi.
    destruct (m1 !! n) as [i1|] eqn:Hi1; [|done]. simpl in Hi. injection Hi as <-.
    pose proof (filterCRDsByPatterns_inr _ _ _ Hp n) as Hafter. rewrite Hi1 in Hafter.
    destruct (filterCRDsByExisting existing (seedResultMap goal) !! n) as [b|] eqn:Hb;
      [|done].
    destruct (afterExisting_lookup _ _ _ _ Hb) as (Hin & Hn & _).
    simpl in Hafter. injection Hafter as ->.
    destruct (markUpdate_fields VersionDifferent (dom (differentVersion existing m1)) n
              (markUpdate SpecDifferent (dom (differentSpec existing m1)) n
                 ((if decide (patterns = "") then id else patternUpdate patterns) b)))
      as (-> & _).
    destruct (markUpdate_fields SpecDifferent (dom (differentSpec existing m1)) n
                 ((if decide (patterns = "") then id else patternUpdate patterns) b))
      as (-> & _).
    case_decide; [done|].
    by destruct (patternUpdate_fields patterns b) as (-> & _).
Qed.

(** C6, amended: a successful plan holds exactly one instruction per goal
    CRD name, so it has as many instructions as the goal list has distinct
    names; that is the size of the goal list when the names of the goal
    list are pairwise distinct. *)
Theorem one_instruction_per_goal_name
    (goal existing : list CustomResourceDefinition) (patterns : string)
    (l : list CRDInstallationInstruction) :
  DetermineCRDsToInstallOrUpgrade goal existing patterns = inr l →
  (∀ n, n ∈ Name <$> goal ↔ ∃ i, i ∈ l ∧ Name (CRD i) = n) ∧
  NoDup (Name ∘ CRD <$> l) ∧
  (∀ i, i ∈ l → CRD i ∈ goal) ∧
  length l = size (list_to_set (Name <$> goal) : gset string) ∧
  (NoDup (Name <$> goal) → length l = length goal).
Proof.
  intros (final & Hplan & ->)%DetermineCRDsToInstallOrUpgrade_inr.
  destruct (planResultMap_shape _ _ _ _ Hplan) as [Hdom Hkey].
  assert (Hnames : Name ∘ CRD <$> (map_to_list final).*2 = (map_to_list final).*1).
  { rewrite <- list_fmap_compose. apply list_fmap_ext.
    intros k [n i] Hin. apply list_elem_of_lookup_2 in Hin.
    apply elem_of_map_to_list in Hin. simpl. by apply Hkey. }
  assert (Hlen : length (map_to_list final).*2
                 = size (list_to_set (Name <$> goal) : gset string)).
  { by rewrite length_fmap, length_map_to_list, <- Hdom, size_dom. }
  repeat split.
  - intros Hn. apply (elem_of_list_to_set (C:=gset string)) in Hn.
    rewrite <- Hdom in Hn. apply elem_of_dom in Hn as [i Hi].
    exists i. split; [|by apply Hkey].
    apply list_elem_of_fmap. exists (n, i). split; [done|]. by apply elem_of_map_to_list.
  - intros (i & Hin & <-). apply list_elem_of_fmap in Hin as ([n i'] & -> & Hin).
    apply elem_of_map_to_list in Hin. simpl.
    destruct (Hkey _ _ Hin) as [-> _].
    apply (elem_of_list_to_set (C:=gset string)). rewrite <- Hdom.
    by apply elem_of_dom_2 in Hin.
  - rewrite Hnames. apply NoDup_fst_map_to_list.
  - intros i Hin. apply list_elem_of_fmap in Hin as ([n i'] & -> & Hin).
    apply elem_of_map_to_list in Hin. simpl. by destruct (Hkey _ _ Hin).
  - exact Hlen.
  - intros Hnd. rewrite Hlen, size_list_to_set by done. by rewrite length_fmap.
Qed.

(** C7: when the pattern specification is not empty and one of its patterns
    matches no goal CRD, the planner fails with the pattern validation
    error, which names that pattern; with the empty specification the
    planner does not fail. *)
Theorem unmatched_pattern_fails_plan
    (goal existing : list CustomResourceDefinition) :
  (∀ patterns p,
      patterns ≠ "" →
      p ∈ patternsOf patterns →
      (∀ crd, crd ∈ goal → patternMatches p (makeMatchString crd) = false) →
      ∃ unmatched,
        p ∈ unmatched ∧
        DetermineCRDsToInstallOrUpgrade goal existing patterns
          = inl (PatternValidationError unmatched)) ∧
  (∃ l, DetermineCRDsToInstallOrUpgrade goal existing "" = inr l).
Proof.
  split.
  - intros patterns p Hne Hp Hnone.
    set (m := filterCRDsByExisting existing (seedResultMap goal)).
    assert (Hun : p ∈ unmatchedPatterns patterns m).
    { apply list_elem_of_filter. split; [|done].
      apply not_true_is_false. intros (value & Hin & Hv)%existsb_exists.
      apply list_elem_of_In, list_elem_of_fmap in Hin as ([n i] & -> & Hin).
      apply elem_of_map_to_list, afterExisting_lookup in Hin as (Hin & _).
      simpl in Hv. rewrite Hnone in Hv; done. }
    exists (unmatchedPatterns patterns m). split; [done|].
    unfold DetermineCRDsToInstallOrUpgrade.
    rewrite (planResultMap_inl goal existing patterns
               (PatternValidationError (unmatchedPatterns patterns m))); [done|].
    fold m. rewrite filterCRDsByPatterns_eq, decide_False by done.
    destruct (unmatchedPatterns patterns m); [by apply elem_of_nil in Hun|done].
  - destruct (planResultMap_inr goal existing ""
                (filterCRDsByExisting existing (seedResultMap goal)))
      as (m2 & final & _ & _ & Hplan & _).
    { by rewrite filterCRDsByPatterns_eq. }
    unfold DetermineCRDsToInstallOrUpgrade. rewrite Hplan. eauto.
Qed.

End PlannerClaims.

(** ** The planner on sample inputs *)

Section PlannerWitnesses.
#[local] Existing Instance sampleMatchLibrary.

Lemma filterCRDsByPatterns_never_downgrades_witness :
  let goal := [goalRedis; goalVault] in
  let existing := [installedRedis] in
  let patterns := "keyvault.azure.com/*" in
  patterns ≠ "" ∧
  ∃ m1 final i,
    filterCRDsByPatterns patterns (filterCRDsByExisting existing (seedResultMap goal))
      = inr m1 ∧
    planResultMap goal existing patterns = inr final ∧
    final !! vaultName = Some i ∧
    FilterResult i = MatchedPattern.
Proof.
  intros goal existing patterns.
  assert (Hne : patterns ≠ "") by discriminate.
  split; [exact Hne|].
  set (afterExisting := filterCRDsByExisting existing (seedResultMap goal)).
  assert (Hp : filterCRDsByPatterns patterns afterExisting
               = inr (patternUpdate patterns <$> afterExisting)).
  { assert (Hused : unmatchedPatterns patterns afterExisting = [])
      by (vm_compute; reflexivity).
    rewrite filterCRDsByPatterns_eq, Hused. by rewrite decide_False. }
  assert (Hb : afterExisting !! vaultName = Some (seedInstruction goalVault)).
  { vm_compute. reflexivity. }
  destruct (filterCRDsByPatterns_never_downgrades goal existing patterns _
              Hne Hp vaultName _ Hb)
    as (_ & after & final & i & _ & Hplan & Hi & Hfi & _ & Hup & _).
  exists (patternUpdate patterns <$> afterExisting), final, i.
  split; [exact Hp|]. split; [exact Hplan|]. split; [exact Hi|].
  rewrite Hfi, (Hup eq_refl). vm_compute. reflexivity.
Defined.

Lemma DiffResult_only_escalates_witness :
  let goal := [goalRedis] in
  let existing := [installedRedis] in
  ∃ final i,
    planResultMap goal existing "" = inr final ∧
    final !! redisName = Some i ∧
    DiffResult i = VersionDifferent.
Proof.
  intros goal existing.
  set (afterExisting := filterCRDsByExisting existing (seedResultMap goal)).
  assert (Hp : filterCRDsByPatterns "" afterExisting = inr afterExisting).
  { by rewrite filterCRDsByPatterns_eq. }
  destruct (planResultMap_inr goal existing "" afterExisting Hp)
    as (m2 & final & _ & _ & Hplan & Hl2 & Hlf).
  assert (Hb : ∃ before, afterExisting !! redisName = Some before).
  { eexists. vm_compute. reflexivity. }
  destruct Hb as [before Hb].
  assert (Hi : ∃ i, final !! redisName = Some i).
  { rewrite Hlf, Hl2, Hb. simpl. eauto. }
  destruct Hi as [i Hi].
  destruct (DiffResult_only_escalates goal existing "" final Hplan)
    as (m1 & m2' & Hp' & _ & _ & Hall).
  fold afterExisting in Hp'. rewrite Hp in Hp'. injection Hp' as <-.
  destruct (Hall redisName i Hi) as (i1 & i2 & _ & _ & _ & _ & _ & _ & _ & Hboth).
  exists final, i. split; [exact Hplan|]. split; [exact Hi|].
  apply Hboth.
  - apply (bool_decide_unpack _). vm_compute. exact I.
  - apply (bool_decide_unpack _). vm_compute. exact I.
Defined.

(** C6, as the specification words it, fails: a goal list that holds two
    CRDs of one name gives one instruction. *)
Lemma repeated_goal_name_gives_one_instruction :
  ¬ (∀ goal existing patterns l,
        DetermineCRDsToInstallOrUpgrade goal existing patterns = inr l →
        length l = length goal).
Proof.
  intros Hsize.
  assert (Hl : ∃ i, DetermineCRDsToInstallOrUpgrade [goalRedis; installedRedis] [] ""
                    = inr [i]).
  { eexists. vm_compute. reflexivity. }
  destruct Hl as [i Hl]. specialize (Hsize _ _ _ _ Hl). discriminate Hsize.
Qed.

Lemma one_instruction_per_goal_name_witness :
  let goal := [goalRedis; goalVault] in
  let existing := [installedRedis] in
  NoDup (Name <$> goal) ∧
  ∃ l, DetermineCRDsToInstallOrUpgrade goal existing "" = inr l ∧
       length l = length goal.
Proof.
  intros goal existing.
  assert (Hnd : NoDup (Name <$> goal)).
  { apply (bool_decide_unpack _). vm_compute. exact I. }
  split; [exact Hnd|].
  destruct (planResultMap_inr goal existing ""
              (filterCRDsByExisting existing (seedResultMap goal)))
    as (m2 & final & _ & _ & Hplan & _).
  { by rewrite filterCRDsByPatterns_eq. }
  assert (Hl : DetermineCRDsToInstallOrUpgrade goal existing ""
               = inr (map_to_list final).*2).
  { apply DetermineCRDsToInstallOrUpgrade_inr. eauto. }
  exists (map_to_list final).*2. split; [exact Hl|].
  destruct (one_instruction_per_goal_name goal existing "" _ Hl)
    as (_ & _ & _ & _ & Hlen).
  exact (Hlen Hnd).
Defined.

Lemma unmatched_pattern_fails_plan_witness :
  let goal := [goalRedis; goalVault] in
  let existing := [installedRedis] in
  let patterns := "nomatch-*" in
  patterns ≠ "" ∧
  "nomatch-*" ∈ patternsOf patterns ∧
  (∀ crd, crd ∈ goal → patternMatches "nomatch-*" (makeMatchString crd) = false) ∧
  ∃ unmatched,
    "nomatch-*" ∈ unmatched ∧
    DetermineCRDsToInstallOrUpgrade goal existing patterns
      = inl (PatternValidationError unmatched).
Proof.
  intros goal existing patterns.
  assert (Hne : patterns ≠ "") by discriminate.
  assert (Hp : "nomatch-*" ∈ patternsOf patterns).
  { apply (bool_decide_unpack _). vm_compute. exact I. }
  assert (Hnone : ∀ crd, crd ∈ goal →
                    patternMatches "nomatch-*" (makeMatchString crd) = false).
  { intros crd Hin. apply elem_of_cons in Hin as [->|Hin]; [reflexivity|].
    apply list_elem_of_singleton in Hin as ->. reflexivity. }
  repeat split; try done.
  destruct (unmatched_pattern_fails_plan goal existing) as [Hfail _].
  exact (Hfail patterns "nomatch-*" Hne Hp Hnone).
Defined.

End PlannerWitnesses.

(** ** applyCRDs under a lease with nothing left to apply *)

Section ApplyFacts.
Context `{ML : MatchLibrary}.

Lemma quiescentb_spec sc w : quiescentb sc w = true ↔ quiescent sc w.
Proof.
  unfold quiescentb, quiescent, threads. simpl.
  rewrite !andb_true_iff, !bool_decide_eq_true. split.
  - intros (? & ? & ? & ? & _) []; done.
  - intros H. repeat split; apply H.
Qed.

(** The listed worlds are closed under the steps of the scenario, and the
    claim holds in each of them: both by running the steps. *)
Lemma worlds_closed :
  forallb (λ w, forallb (λ w', bool_decide (w' ∈ worlds)) (successors w)) worlds = true.
Proof. vm_compute. reflexivity. Qed.

Lemma worlds_claim : forallb nothingLeftClaim worlds = true.
Proof. vm_compute. reflexivity. Qed.

Lemma initialWorld_in_worlds : initialWorld ∈ worlds.
Proof. apply (bool_decide_unpack _). vm_compute. exact I. Qed.

Lemma worlds_claim_at w : w ∈ worlds → nothingLeftClaim w = true.
Proof.
  intros Hw. pose proof worlds_claim as H.
  rewrite forallb_forall in H. exact (H w (proj1 (list_elem_of_In _ _) Hw)).
Qed.

Lemma worlds_step w t w' :
  w ∈ worlds → step nothingLeftScenario t w = Some w' → w' ∈ worlds.
Proof.
  intros Hw Hstep. pose proof worlds_closed as H.
  rewrite forallb_forall in H. specialize (H w (proj1 (list_elem_of_In _ _) Hw)).
  rewrite forallb_forall in H.
  assert (Hsucc : w' ∈ successors w).
  { unfold successors. apply list_elem_of_omap. exists t. split; [|exact Hstep].
    destruct t; unfold threads; repeat constructor. }
  exact (bool_decide_eq_true_1 _ (H w' (proj1 (list_elem_of_In _ _) Hsucc))).
Qed.

Section Scenario.
Context (sc : Scenario).
Hypothesis lease : leaderElection sc = true.
Hypothesis pending : filterInstallationInstructions (instructions sc) true ≠ [].
Hypothesis nothingLeft : recheck sc = inr [].

(** In a listed world the scenario [sc] steps like the listed one. *)
Lemma step_nothingLeft w t :
  w ∈ worlds → step sc t w = step nothingLeftScenario t w.
Proof.
  intros Hw. apply worlds_claim_at in Hw. unfold nothingLeftClaim in Hw.
  rewrite !andb_true_iff in Hw. destruct Hw as (((((_ & He) & _) & _) & _) & _).
  apply bool_decide_eq_true in He.
  unfold step. destruct (exited w); [done|]. destruct t; [|done|done|done].
  unfold stepEngine.
  repeat (apply elem_of_cons in He as [->|He]); try (by apply elem_of_nil in He);
    try done.
  - destruct (filterInstallationInstructions (instructions sc) true); [done|].
    by rewrite lease.
  - rewrite nothingLeft. unfold leave. by rewrite lease.
Qed.

Lemma run_in_worlds schedule w :
  w ∈ worlds → run sc schedule w ∈ worlds.
Proof.
  revert w. induction schedule as [|t schedule IH]; intros w Hw; [exact Hw|].
  simpl. apply IH. rewrite (step_nothingLeft w t Hw).
  destruct (step nothingLeftScenario t w) as [w'|] eqn:Hstep; [|exact Hw].
  exact (worlds_step w t w' Hw Hstep).
Qed.

(** The runs of [sc] are those of the listed scenario. *)
Lemma run_nothingLeft schedule w :
  w ∈ worlds → run sc schedule w = run nothingLeftScenario schedule w.
Proof.
  revert w. induction schedule as [|t schedule IH]; intros w Hw; [done|].
  simpl. rewrite (step_nothingLeft w t Hw).
  destruct (step nothingLeftScenario t w) as [w'|] eqn:Hstep; simpl.
  - apply IH. exact (worlds_step w t w' Hw Hstep).
  - by apply IH.
Qed.

(** C2, amended: under a lease, with nothing left to apply at the
    recheck, nothing is ever written; the engine returns only with
    success, and only after it cancelled its context and the release was
    signalled; the engine never reaches its own [os.Exit]; yet the
    process does exit: an execution that has come to rest is an exited one.
    The exit is that of [OnStoppedLeading], after the release signal. Its
    code is 0 exactly when the callback read a recorded leader context and
    then found the context cancelled, and 1 otherwise; so a process that
    exited with 0 has the leader context recorded and the context
    cancelled. Each of the three happens: code 0 after a cooperative
    release; code 1 when the callback reads the leader context before
    [OnStartedLeading] records it; code 1 when the lease is taken away
    with the context live. *)
Theorem applyCRDs_nothing_left_under_lease (schedule : list thread) :
  let w := run sc schedule initialWorld in
  writes w = [] ∧
  (∀ ret, engine w = Returned ret →
          ret = None ∧ ctxDone w = true ∧ LeaseReleased w = 0) ∧
  engine w ≠ AtExit ∧
  (∀ code, exited w = Some code →
           elector w = StoppedAtExit code ∧ (code = 0 ∨ code = 1)%Z ∧
           LeaseReleased w = 0 ∧
           (code = 0%Z → leaderContext w = true ∧ ctxDone w = true)) ∧
  (elector w = StoppedAtRead →
   ∃ w', step sc Elector w = Some w' ∧
         elector w' = StoppedAtSelect (leaderContext w)) ∧
  (∀ lc, elector w = StoppedAtSelect lc →
         (lc = true → leaderContext w = true) ∧
         (exited w = None →
          ∃ w', step sc Elector w = Some w' ∧
                elector w' = StoppedAtExit (if lc && ctxDone w then 0 else 1)%Z)) ∧
  (quiescent sc w → is_Some (exited w)) ∧
  (let w0 := run sc cooperativeSchedule initialWorld in
   exited w0 = Some 0%Z ∧ engine w0 = Returned None) ∧
  (let w1 := run sc hastySchedule initialWorld in
   exited w1 = Some 1%Z ∧ leaderContext w1 = false ∧ ctxDone w1 = true) ∧
  (let w2 := run sc lostLeaseSchedule initialWorld in
   exited w2 = Some 1%Z ∧ leaderContext w2 = true ∧ ctxDone w2 = false).
Proof.
  intros w.
  assert (Hw : w ∈ worlds) by apply run_in_worlds, initialWorld_in_worlds.
  pose proof (worlds_claim_at w Hw) as Hc. unfold nothingLeftClaim in Hc.
  pose proof (step_nothingLeft w) as Hsame. specialize (λ t, Hsame t Hw).
  clearbody w. clear Hw.
  rewrite !andb_true_iff in Hc.
  destruct Hc as (((((Hwr & He) & Hret) & Hex) & Hsel) & Hq).
  apply bool_decide_eq_true in Hwr, He.
  split; [done|]. split; [|split; [|split; [|split; [|split; [|split; [|split;
    [|split]]]]]]].
  - intros ret Hr. rewrite Hr in He, Hret.
    assert (ret = None) as ->.
    { repeat (apply elem_of_cons in He as [[=]|He]); try done.
      by apply elem_of_nil in He. }
    rewrite decide_True in Hret by done.
    apply andb_true_iff in Hret as [? ?%bool_decide_eq_true]. done.
  - intros Hr. rewrite Hr in He.
    repeat (apply elem_of_cons in He as [[=]|He]). by apply elem_of_nil in He.
  - intros code Hcode. rewrite Hcode in Hex.
    rewrite !andb_true_iff, !bool_decide_eq_true in Hex.
    destruct Hex as (((? & ?) & ?) & Hzero).
    split; [done|]. split; [done|]. split; [done|].
    intros ->. by apply andb_true_iff in Hzero.
  - intros Hel. rewrite Hsame. unfold step, stepElector.
    destruct (exited w) as [code|] eqn:Hcode.
    + rewrite !andb_true_iff, !bool_decide_eq_true in Hex.
      destruct Hex as (((Hel' & _) & _) & _). congruence.
    + rewrite Hel. eauto.
  - intros lc Hel. rewrite Hel in Hsel. split.
    + by intros ->.
    + intros Hcode. rewrite Hsame. unfold step, stepElector. rewrite Hcode, Hel. eauto.
  - intros Hquiet.
    assert (Hqb : quiescentb nothingLeftScenario w = true).
    { apply quiescentb_spec. intros t. rewrite <- Hsame. apply Hquiet. }
    rewrite Hqb in Hq. by apply bool_decide_eq_true in Hq.
  - cbv zeta. rewrite (run_nothingLeft _ _ initialWorld_in_worlds). by vm_compute.
  - cbv zeta. rewrite (run_nothingLeft _ _ initialWorld_in_worlds). by vm_compute.
  - cbv zeta. rewrite (run_nothingLeft _ _ initialWorld_in_worlds). by vm_compute.
Qed.

End Scenario.

End ApplyFacts.

Section ApplyWitnesses.
#[local] Existing Instance sampleMatchLibrary.

Lemma raceScenario_nothing_left :
  leaderElection raceScenario = true ∧
  filterInstallationInstructions (instructions raceScenario) true ≠ [] ∧
  recheck raceScenario = inr [].
Proof. repeat split. vm_compute. discriminate. Qed.

Lemma cooperativeSchedule_end :
  run raceScenario cooperativeSchedule initialWorld =
    {| engine := Returned None; started := StartedReturned; elector := StoppedAtExit 0;
       ctxDone := true; LeaseAcquired := 0; LeaseReleased := 0; leaderContext := true;
       writes := []; exited := Some 0%Z |}.
Proof. vm_compute. reflexivity. Qed.

(** C2, as the specification words it, fails: in this execution a lease is
    configured and the recheck finds nothing to apply; the engine returns
    success, writes nothing and releases the lease, and the execution has
    come to rest; but the process has been ended, by the [os.Exit(0)] of
    [OnStoppedLeading]. *)
Lemma applyCRDs_nothing_left_process_exits :
  ¬ (∀ sc schedule,
        leaderElection sc = true →
        filterInstallationInstructions (instructions sc) true ≠ [] →
        recheck sc = inr [] →
        let w := run sc schedule initialWorld in
        quiescent sc w →
        engine w = Returned None ∧ writes w = [] ∧ LeaseReleased w = 0 ∧
        exited w = None).
Proof.
  intros Hclaim.
  destruct raceScenario_nothing_left as (Hlease & Hpending & Hnothing).
  specialize (Hclaim raceScenario cooperativeSchedule Hlease Hpending Hnothing).
  cbv zeta in Hclaim. rewrite cooperativeSchedule_end in Hclaim.
  destruct Hclaim as (_ & _ & _ & Hexit); [|discriminate].
  intros t. unfold step. reflexivity.
Qed.

Lemma applyCRDs_nothing_left_under_lease_witness :
  let w := run raceScenario cooperativeSchedule initialWorld in
  leaderElection raceScenario = true ∧
  filterInstallationInstructions (instructions raceScenario) true ≠ [] ∧
  recheck raceScenario = inr [] ∧
  writes w = [] ∧ engine w = Returned None ∧ exited w = Some 0%Z ∧
  elector w = StoppedAtExit 0 ∧ leaderContext w = true ∧
  exited (run raceScenario hastySchedule initialWorld) = Some 1%Z ∧
  exited (run raceScenario lostLeaseSchedule initialWorld) = Some 1%Z.
Proof.
  intros w.
  destruct raceScenario_nothing_left as (Hlease & Hpending & Hnothing).
  destruct (applyCRDs_nothing_left_under_lease raceScenario Hlease Hpending Hnothing
              cooperativeSchedule)
    as (Hwr & _ & _ & Hexit & _ & _ & _ & (Hcode & Hret) & (H1 & _) & (H2 & _)).
  destruct (Hexit _ Hcode) as (Hel & _ & _ & Hzero).
  destruct (Hzero eq_refl) as [Hlc _].
  split; [exact Hlease|]. split; [exact Hpending|]. split; [exact Hnothing|].
  split; [exact Hwr|]. split; [exact Hret|]. split; [exact Hcode|].
  split; [exact Hel|]. split; [exact Hlc|]. split; [exact H1|exact H2].
Defined.

End ApplyWitnesses.

(** ** CloudError.UnmarshalJSON *)

Section CloudErrorFacts.
Context {ErrorResponse : Type}.
Context (json_Unmarshal : list byte → error + content ErrorResponse).

(** C10: when the body decodes, the call returns no error and takes code,
    message, target and details from the nested error object if the body
    has one, whatever stands at the top level, and from the top level
    otherwise; the wrapped error of the receiver is kept. The call returns
    an error only when the body does not decode, and then leaves the
    receiver as it was. *)
Theorem UnmarshalJSON_prefers_nested_error
    (e : CloudError ErrorResponse) (data : list byte) :
  (∀ decoded, json_Unmarshal data = inr decoded →
     ∃ e', UnmarshalJSON json_Unmarshal e data = (None, e') ∧
           error_ e' = error_ e ∧
           match InnerError decoded with
           | Some inner =>
               code e' = InnerCode inner ∧ message e' = InnerMessage inner ∧
               target e' = InnerTarget inner ∧ details e' = InnerDetails inner
           | None =>
               code e' = Code decoded ∧ message e' = Message decoded ∧
               target e' = Target decoded ∧ details e' = Details decoded
           end) ∧
  (∀ err e', UnmarshalJSON json_Unmarshal e data = (Some err, e') →
     ∃ cause, json_Unmarshal data = inl cause ∧
              err = Wrap cause "unmarshalling JSON for CloudError" ∧ e' = e).
Proof.
  unfold UnmarshalJSON. split.
  - intros decoded ->. destruct (InnerError decoded) as [inner|]; eauto 10.
  - intros err e'. destruct (json_Unmarshal data) as [cause|decoded].
    + intros [= <- <-]. eauto.
    + destruct (InnerError decoded); intros [=].
Qed.

End CloudErrorFacts.

Lemma UnmarshalJSON_prefers_nested_error_witness :
  sampleUnmarshal nestedBody = inr nestedContent ∧
  (UnmarshalJSON sampleUnmarshal emptyCloudError nestedBody).1 = None ∧
  code (UnmarshalJSON sampleUnmarshal emptyCloudError nestedBody).2
    = Some "ResourceNotFound" ∧
  (∀ err e', UnmarshalJSON sampleUnmarshal emptyCloudError [x7b] = (Some err, e') →
             e' = emptyCloudError).
Proof.
  assert (Hdecoded : sampleUnmarshal nestedBody = inr nestedContent) by reflexivity.
  destruct (UnmarshalJSON_prefers_nested_error sampleUnmarshal emptyCloudError nestedBody)
    as [Hok _].
  destruct (Hok nestedContent Hdecoded) as (e' & Hcall & _ & Hcode & _).
  destruct (UnmarshalJSON_prefers_nested_error sampleUnmarshal emptyCloudError [x7b])
    as [_ Hfail].
  split; [exact Hdecoded|]. rewrite Hcall. simpl.
  split; [reflexivity|]. split; [exact Hcode|].
  intros err e'' Hcall'. by destruct (Hfail err e'' Hcall') as (_ & _ & _ & ->).
Defined.

(** ** Shared objects: what the search leaves untouched *)

Section SharedStore.
Import Shared.

Implicit Types (st : Store) (l : loc).

Lemma alloc_fresh st c : (alloc st c).1 ∉ dom st.
Proof. unfold alloc. simpl. apply is_fresh. Qed.

Lemma alloc_subseteq st c : st ⊆ (alloc st c).2.
Proof.
  unfold alloc. simpl. apply insert_subseteq, not_elem_of_dom, is_fresh.
Qed.

Lemma alloc_lookup st c : (alloc st c).2 !! (alloc st c).1 = Some c.
Proof. unfold alloc. simpl. apply lookup_insert_eq. Qed.

Lemma alloc_dom st c : dom (alloc st c).2 = {[(alloc st c).1]} ∪ dom st.
Proof. unfold alloc. simpl. apply dom_insert_L. Qed.

(** *** Reaching through a larger store *)

Lemma lookup_extend st st' l c : st ⊆ st' → st !! l = Some c → st' !! l = Some c.
Proof. intros Hsub Hl. by eapply lookup_weaken. Qed.

Lemma lookup_allocated st st' l : st ⊆ st' → l ∈ dom st → st' !! l = st !! l.
Proof.
  intros Hsub [c Hc]%elem_of_dom. rewrite Hc. by eapply lookup_weaken.
Qed.

Lemma reachClientConfig_extend st st' l :
  st ⊆ st' → reachClientConfig st l ⊆ dom st →
  reachClientConfig st' l = reachClientConfig st l.
Proof.
  intros Hsub Hclosed. unfold reachClientConfig in *.
  rewrite (lookup_allocated st st' l Hsub); [done|]. set_solver.
Qed.

Lemma reachWebhook_extend st st' l :
  st ⊆ st' → reachWebhook st l ⊆ dom st →
  reachWebhook st' l = reachWebhook st l.
Proof.
  intros Hsub Hclosed. unfold reachWebhook in *.
  rewrite (lookup_allocated st st' l Hsub) by set_solver.
  destruct (st !! l) as [[| | [lcc|] | ]|]; try done.
  rewrite (reachClientConfig_extend st st' lcc Hsub); [done|]. set_solver.
Qed.

Lemma reachConversion_extend st st' l :
  st ⊆ st' → reachConversion st l ⊆ dom st →
  reachConversion st' l = reachConversion st l.
Proof.
  intros Hsub Hclosed. unfold reachConversion in *.
  rewrite (lookup_allocated st st' l Hsub) by set_solver.
  destruct (st !! l) as [[| | | ? [lw|]]|]; try done.
  rewrite (reachWebhook_extend st st' lw Hsub); [done|]. set_solver.
Qed.

Lemma reach_extend st st' c :
  st ⊆ st' → reach st c ⊆ dom st → reach st' c = reach st c.
Proof.
  unfold reach. destruct (conversion c); [|done]. apply reachConversion_extend.
Qed.

(** *** DeepCopy: the store grows, and the copy lives in what was added *)

Lemma copyService_spec st l :
  st ⊆ (copyService st l).2 ∧
  ∀ l', (copyService st l).1 = Some l' → l' ∈ dom (copyService st l).2 ∖ dom st.
Proof.
  unfold copyService. destruct (st !! l) as [[s| | | ]|]; simpl; try done.
  split; [apply alloc_subseteq|].
  intros l' [= <-]. pose proof (is_fresh (dom st)). rewrite dom_insert_L. set_solver.
Qed.

Lemma copyClientConfig_spec st l :
  st ⊆ (copyClientConfig st l).2 ∧
  ∀ l', (copyClientConfig st l).1 = Some l' →
        reachClientConfig (copyClientConfig st l).2 l'
          ⊆ dom (copyClientConfig st l).2 ∖ dom st.
Proof.
  unfold copyClientConfig. destruct (st !! l) as [[|url service ca| | ]|]; simpl; try done.
  assert (Hsvc : ∃ service' st1,
             (match service with Some ls => copyService st ls | None => (None, st) end)
             = (service', st1) ∧ st ⊆ st1 ∧
             ∀ ls', service' = Some ls' → ls' ∈ dom st1 ∖ dom st).
  { destruct service as [ls|].
    - destruct (copyService_spec st ls) as [Hsub Hnew].
      destruct (copyService st ls) as [service' st1]. eauto.
    - exists None, st. done. }
  destruct Hsvc as (service' & st1 & -> & Hsub & Hnew). simpl.
  pose proof (is_fresh (dom st1)) as Hfresh. pose proof (subseteq_dom _ _ Hsub) as Hdom.
  split.
  - etrans; [exact Hsub|]. apply alloc_subseteq.
  - intros l' [= <-]. unfold reachClientConfig.
    rewrite lookup_insert_eq, dom_insert_L.
    destruct service' as [ls'|]; [specialize (Hnew ls' eq_refl)|]; set_solver.
Qed.

Lemma copyWebhook_spec st l :
  st ⊆ (copyWebhook st l).2 ∧
  ∀ l', (copyWebhook st l).1 = Some l' →
        reachWebhook (copyWebhook st l).2 l' ⊆ dom (copyWebhook st l).2 ∖ dom st.
Proof.
  unfold copyWebhook. destruct (st !! l) as [[| |clientConfig versions| ]|]; simpl; try done.
  assert (Hcc : ∃ clientConfig' st1,
             (match clientConfig with
              | Some lcc => copyClientConfig st lcc
              | None => (None, st)
              end) = (clientConfig', st1) ∧ st ⊆ st1 ∧
             ∀ lcc', clientConfig' = Some lcc' →
                     reachClientConfig st1 lcc' ⊆ dom st1 ∖ dom st).
  { destruct clientConfig as [lcc|].
    - destruct (copyClientConfig_spec st lcc) as [Hsub Hnew].
      destruct (copyClientConfig st lcc) as [clientConfig' st1]. eauto.
    - exists None, st. done. }
  destruct Hcc as (clientConfig' & st1 & -> & Hsub & Hnew). simpl.
  pose proof (is_fresh (dom st1)) as Hfresh. pose proof (subseteq_dom _ _ Hsub) as Hdom.
  split.
  - etrans; [exact Hsub|]. apply alloc_subseteq.
  - intros l' [= <-]. unfold reachWebhook.
    rewrite lookup_insert_eq, dom_insert_L.
    destruct clientConfig' as [lcc'|]; [specialize (Hnew lcc' eq_refl)|set_solver].
    rewrite (reachClientConfig_extend st1 (<[fresh (dom st1) := _]> st1) lcc');
      [set_solver|apply alloc_subseteq|set_solver].
Qed.

Lemma copyConversion_spec st l :
  st ⊆ (copyConversion st l).2 ∧
  ∀ l', (copyConversion st l).1 = Some l' →
        reachConversion (copyConversion st l).2 l' ⊆ dom (copyConversion st l).2 ∖ dom st.
Proof.
  unfold copyConversion. destruct (st !! l) as [[| | |strategy webhook]|]; simpl; try done.
  assert (Hwh : ∃ webhook' st1,
             (match webhook with
              | Some lw => copyWebhook st lw
              | None => (None, st)
              end) = (webhook', st1) ∧ st ⊆ st1 ∧
             ∀ lw', webhook' = Some lw' → reachWebhook st1 lw' ⊆ dom st1 ∖ dom st).
  { destruct webhook as [lw|].
    - destruct (copyWebhook_spec st lw) as [Hsub Hnew].
      destruct (copyWebhook st lw) as [webhook' st1]. eauto.
    - exists None, st. done. }
  destruct Hwh as (webhook' & st1 & -> & Hsub & Hnew). simpl.
  pose proof (is_fresh (dom st1)) as Hfresh. pose proof (subseteq_dom _ _ Hsub) as Hdom.
  split.
  - etrans; [exact Hsub|]. apply alloc_subseteq.
  - intros l' [= <-]. unfold reachConversion.
    rewrite lookup_insert_eq, dom_insert_L.
    destruct webhook' as [lw'|]; [specialize (Hnew lw' eq_refl)|set_solver].
    rewrite (reachWebhook_extend st1 (<[fresh (dom st1) := _]> st1) lw');
      [set_solver|apply alloc_subseteq|set_solver].
Qed.

Lemma DeepCopy_spec c st :
  st ⊆ (DeepCopy c st).2 ∧
  reach (DeepCopy c st).2 (DeepCopy c st).1 ⊆ dom (DeepCopy c st).2 ∖ dom st ∧
  fields (DeepCopy c st).1 = fields c.
Proof.
  unfold DeepCopy, reach. destruct (conversion c) as [l|] eqn:Hc.
  - destruct (copyConversion_spec st l) as [Hsub Hnew].
    destruct (copyConversion st l) as [[l'|] st1]; simpl in *.
    + split; [done|]. split; [by apply Hnew|done].
    + split; [done|]. split; [set_solver|done].
  - simpl. rewrite Hc. split; [done|]. split; [set_solver|done].
Qed.

(** *** Reading through a larger store *)

Lemma loadClientConfig_extend st st' l :
  st ⊆ st' → reachClientConfig st l ⊆ dom st →
  loadClientConfig st' l = loadClientConfig st l.
Proof.
  intros Hsub Hclosed. unfold loadClientConfig, reachClientConfig in *.
  rewrite (lookup_allocated st st' l Hsub) by set_solver.
  destruct (st !! l) as [[|url [ls|] ca| | ]|]; try done.
  simpl. unfold loadService. by rewrite (lookup_allocated st st' ls Hsub) by set_solver.
Qed.

Lemma loadWebhook_extend st st' l :
  st ⊆ st' → reachWebhook st l ⊆ dom st → loadWebhook st' l = loadWebhook st l.
Proof.
  intros Hsub Hclosed. unfold loadWebhook, reachWebhook in *.
  rewrite (lookup_allocated st st' l Hsub) by set_solver.
  destruct (st !! l) as [[| |[lcc|] versions| ]|]; try done.
  simpl. by rewrite (loadClientConfig_extend st st' lcc Hsub) by set_solver.
Qed.

Lemma loadConversion_extend st st' l :
  st ⊆ st' → reachConversion st l ⊆ dom st → loadConversion st' l = loadConversion st l.
Proof.
  intros Hsub Hclosed. unfold loadConversion, reachConversion in *.
  rewrite (lookup_allocated st st' l Hsub) by set_solver.
  destruct (st !! l) as [[| | |strategy [lw|]]|]; try done.
  simpl. by rewrite (loadWebhook_extend st st' lw Hsub) by set_solver.
Qed.

(** A struct whose pointers all lead to objects of the store reads the same
    in any larger store. *)
Lemma load_extend st st' c :
  st ⊆ st' → reach st c ⊆ dom st → load st' c = load st c.
Proof.
  intros Hsub Hclosed. unfold load, reach in *.
  destruct (conversion c) as [l|]; [|done]. simpl.
  by rewrite (loadConversion_extend st st' l Hsub Hclosed).
Qed.

(** *** What the assignments of the comparators change *)

Section CABundle.
Context (st : Store) (lcc : loc) (url : option string) (service : option loc)
        (caBundle : option (list byte)).
Hypothesis at_lcc : st !! lcc = Some (CClientConfig url service caBundle).

Let st' : Store := <[lcc := CClientConfig url service None]> st.

Lemma reachClientConfig_CABundle x : reachClientConfig st' x = reachClientConfig st x.
Proof.
  unfold reachClientConfig, st'. rewrite lookup_insert.
  case_decide; subst; [by rewrite at_lcc|done].
Qed.

Lemma reachWebhook_CABundle x : reachWebhook st' x = reachWebhook st x.
Proof.
  unfold reachWebhook. unfold st' at 1. rewrite lookup_insert.
  case_decide; subst; [by rewrite at_lcc|].
  destruct (st !! x) as [[| |[l|] ?| ]|]; try done.
  by rewrite reachClientConfig_CABundle.
Qed.

Lemma reachConversion_CABundle x : reachConversion st' x = reachConversion st x.
Proof.
  unfold reachConversion. unfold st' at 1. rewrite lookup_insert.
  case_decide; subst; [by rewrite at_lcc|].
  destruct (st !! x) as [[| | |? [l|]]|]; try done.
  by rewrite reachWebhook_CABundle.
Qed.

Lemma reach_CABundle c : reach st' c = reach st c.
Proof. unfold reach. destruct (conversion c); [apply reachConversion_CABundle|done]. Qed.

End CABundle.

Section WebhookNil.
Context (st : Store) (lc : loc) (strategy : string) (lw : loc).
Hypothesis at_lc : st !! lc = Some (CConversion strategy (Some lw)).

Let st' : Store := <[lc := CConversion strategy None]> st.

Lemma reachClientConfig_WebhookNil x : reachClientConfig st' x = reachClientConfig st x.
Proof.
  unfold reachClientConfig, st'. rewrite lookup_insert.
  case_decide; subst; [by rewrite at_lc|done].
Qed.

Lemma reachWebhook_WebhookNil x : reachWebhook st' x = reachWebhook st x.
Proof.
  unfold reachWebhook. unfold st' at 1. rewrite lookup_insert.
  case_decide; subst; [by rewrite at_lc|].
  destruct (st !! x) as [[| |[l|] ?| ]|]; try done.
  by rewrite reachClientConfig_WebhookNil.
Qed.

Lemma reachConversion_WebhookNil x : reachConversion st' x ⊆ reachConversion st x.
Proof.
  unfold reachConversion. unfold st' at 1. rewrite lookup_insert.
  case_decide; subst; [rewrite at_lc; set_solver|].
  destruct (st !! x) as [[| | |? [l|]]|]; try done.
  by rewrite reachWebhook_WebhookNil.
Qed.

Lemma reach_WebhookNil c : reach st' c ⊆ reach st c.
Proof. unfold reach. destruct (conversion c); [apply reachConversion_WebhookNil|done]. Qed.

End WebhookNil.

Lemma ignoreCABundle_spec st0 st a :
  st0 ⊆ st → reach st a ## dom st0 →
  (ignoreCABundle a st).1 = a ∧
  st0 ⊆ (ignoreCABundle a st).2 ∧
  ∀ c, reach (ignoreCABundle a st).2 c = reach st c.
Proof.
  intros Hsub Hdisj. unfold ignoreCABundle, reach in *.
  destruct (conversion a) as [lc|]; [|done].
  unfold reachConversion in Hdisj.
  destruct (st !! lc) as [[| | |strategy [lw|]]|] eqn:Hlc; try done.
  unfold reachWebhook in Hdisj.
  destruct (st !! lw) as [[| |[lcc|] versions| ]|] eqn:Hlw; try done.
  unfold reachClientConfig in Hdisj.
  destruct (st !! lcc) as [[|url service ca| | ]|] eqn:Hlcc; try done.
  simpl. split; [done|]. split.
  - apply insert_subseteq_r; [|done]. apply not_elem_of_dom. set_solver.
  - intros c. by apply (reach_CABundle st lcc url service ca).
Qed.

Lemma ignoreConversionWebhook_spec st0 st a :
  st0 ⊆ st → reach st a ## dom st0 →
  (ignoreConversionWebhook a st).1 = a ∧
  st0 ⊆ (ignoreConversionWebhook a st).2 ∧
  ∀ c, reach (ignoreConversionWebhook a st).2 c ⊆ reach st c.
Proof.
  intros Hsub Hdisj. unfold ignoreConversionWebhook, reach in *.
  destruct (conversion a) as [lc|]; [|done].
  unfold reachConversion in Hdisj.
  destruct (st !! lc) as [[| | |strategy [lw|]]|] eqn:Hlc; try done.
  simpl. split; [done|]. split.
  - apply insert_subseteq_r; [|done]. apply not_elem_of_dom. set_solver.
  - intros c. by apply (reach_WebhookNil st lc strategy lw).
Qed.

(** *** The comparators of the source are confined *)

Lemma VersionEqual_confined : confined VersionEqual.
Proof. intros st0 st a b Hsub Ha Hb. done. Qed.

Lemma SpecEqual_confined : confined SpecEqual.
Proof.
  intros st0 st a b Hsub Ha Hb. unfold SpecEqual.
  destruct (ignoreCABundle_spec st0 st a Hsub Ha) as (Ha1 & Hsub1 & Hr1).
  destruct (ignoreCABundle a st) as [a' st1]. simpl in *. subst a'.
  destruct (ignoreCABundle_spec st0 st1 b Hsub1) as (Hb2 & Hsub2 & Hr2).
  { by rewrite Hr1. }
  destruct (ignoreCABundle b st1) as [b' st2]. simpl in *. subst b'.
  split; [done|]. by rewrite !Hr2, !Hr1.
Qed.

Lemma SpecEqualIgnoreConversionWebhook_confined :
  confined SpecEqualIgnoreConversionWebhook.
Proof.
  intros st0 st a b Hsub Ha Hb. unfold SpecEqualIgnoreConversionWebhook.
  destruct (ignoreConversionWebhook_spec st0 st a Hsub Ha) as (Ha1 & Hsub1 & Hr1).
  destruct (ignoreConversionWebhook a st) as [a' st1]. simpl in *. subst a'.
  destruct (ignoreConversionWebhook_spec st0 st1 b Hsub1) as (Hb2 & Hsub2 & Hr2).
  { pose proof (Hr1 b). set_solver. }
  destruct (ignoreConversionWebhook b st1) as [b' st2]. simpl in *. subst b'.
  split; [done|].
  pose proof (Hr1 a). pose proof (Hr1 b). pose proof (Hr2 a). pose proof (Hr2 b).
  set_solver.
Qed.

Lemma invert_confined c : confined c → confined (invert c).
Proof.
  intros Hc st0 st a b Hsub Ha Hb. unfold invert.
  specialize (Hc st0 st a b Hsub Ha Hb). by destruct (c a b st).
Qed.

(** *** The loops *)

Lemma compareAll_frame cs st0 st a b :
  Forall confined cs →
  st0 ⊆ st → reach st a ## dom st0 → reach st b ## dom st0 →
  st0 ⊆ (compareAll cs a b st).2.
Proof.
  intros Hcs. revert st. induction Hcs as [|c cs Hc _ IH]; intros st Hsub Ha Hb; [done|].
  simpl. destruct (Hc st0 st a b Hsub Ha Hb) as (Hsub' & Ha' & Hb').
  destruct (c a b st) as [r st1]. simpl in *.
  destruct r; simpl; [by apply IH|done].
Qed.

Lemma findStep_frame existingCRDs cs st0 acc goalCRD :
  Forall confined cs →
  st0 ⊆ acc.2 → st0 ⊆ (findStep existingCRDs cs acc goalCRD).2.
Proof.
  intros Hcs Hsub. destruct acc as [matching st]. unfold findStep. simpl in Hsub.
  set (existingCRD := default zeroCRDStruct (existingCRDs !! Name (fields goalCRD))).
  destruct (DeepCopy_spec existingCRD st) as (Hsub1 & Hnew1 & _).
  destruct (DeepCopy existingCRD st) as [e' st1]. simpl in *.
  destruct (DeepCopy_spec goalCRD st1) as (Hsub2 & Hnew2 & _).
  destruct (DeepCopy goalCRD st1) as [g' st2]. simpl in *.
  pose proof (subseteq_dom _ _ Hsub) as Hd0. pose proof (subseteq_dom _ _ Hsub1) as Hd1.
  assert (He' : reach st2 e' = reach st1 e').
  { apply reach_extend; [done|set_solver]. }
  pose proof (compareAll_frame cs st0 st2 e' g' Hcs) as Hframe.
  destruct (compareAll cs e' g' st2) as [equal st3]. simpl in *.
  assert (Hsub3 : st0 ⊆ st3).
  { apply Hframe; [by etrans; [|etrans]|set_solver|set_solver]. }
  by destruct equal.
Qed.

Lemma FindMatchingCRDs_frame existing goal cs st :
  Forall confined cs → st ⊆ (FindMatchingCRDs existing goal cs st).2.
Proof.
  intros Hcs. unfold FindMatchingCRDs.
  assert (Hgen : ∀ acc, st ⊆ acc.2 →
            st ⊆ (foldl (findStep (indexByName existing) cs) acc goal).2).
  { induction goal as [|g goal IH]; intros acc Hacc; [done|].
    simpl. apply IH. by apply findStep_frame. }
  by apply Hgen.
Qed.

(** C9: in a search with confined comparators every object of the store
    keeps its contents, so every struct of the caller, the entries of
    [existing] and [goal] among them, reads after the search as it read
    before; the comparators of the source are confined, though [SpecEqual]
    assigns [nil] to the CA bundle of the client configuration it is given. *)
Theorem FindMatchingCRDs_leaves_arguments
    (existing goal : list CRDStruct) (cs : list comparator) (st : Store) :
  Forall confined cs →
  let after := (FindMatchingCRDs existing goal cs st).2 in
  let after' := (FindNonMatchingCRDs existing goal cs st).2 in
  st ⊆ after ∧ st ⊆ after' ∧
  (∀ c, reach st c ⊆ dom st → load after c = load st c ∧ load after' c = load st c) ∧
  Forall confined [VersionEqual; SpecEqual; SpecEqualIgnoreConversionWebhook].
Proof.
  intros Hcs after after'.
  assert (Hsub : st ⊆ after) by by apply FindMatchingCRDs_frame.
  assert (Hsub' : st ⊆ after').
  { apply FindMatchingCRDs_frame. apply Forall_fmap.
    eapply Forall_impl; [exact Hcs|]. apply invert_confined. }
  repeat split; try done.
  - by apply load_extend.
  - by apply load_extend.
  - constructor; [apply VersionEqual_confined|].
    constructor; [apply SpecEqual_confined|].
    constructor; [apply SpecEqualIgnoreConversionWebhook_confined|constructor].
Qed.

(** Without the copies the caller would see the assignment: [SpecEqual] on
    the structs themselves leaves the goal CRD without its CA bundle. *)
Lemma SpecEqual_alters_what_it_is_given :
  load (SpecEqual storedExisting storedGoal sampleStore).2 storedGoal
    ≠ load sampleStore storedGoal.
Proof. vm_compute. discriminate. Qed.

Lemma FindMatchingCRDs_leaves_arguments_witness :
  Forall confined [SpecEqual] ∧
  reach sampleStore storedGoal ⊆ dom sampleStore ∧
  load (FindMatchingCRDs [storedExisting] [storedGoal] [SpecEqual] sampleStore).2 storedGoal
    = load sampleStore storedGoal ∧
  load (FindNonMatchingCRDs [storedExisting] [storedGoal] [SpecEqual] sampleStore).2
       storedGoal
    = load sampleStore storedGoal.
Proof.
  assert (Hcs : Forall confined [SpecEqual]).
  { constructor; [apply SpecEqual_confined|constructor]. }
  assert (Hclosed : reach sampleStore storedGoal ⊆ dom sampleStore).
  { apply (bool_decide_unpack _). vm_compute. exact I. }
  destruct (FindMatchingCRDs_leaves_arguments [storedExisting] [storedGoal] [SpecEqual]
              sampleStore Hcs) as (_ & _ & Hload & _).
  destruct (Hload storedGoal Hclosed) as [H1 H2].
  split; [exact Hcs|]. split; [exact Hclosed|]. split; [exact H1|exact H2].
Defined.

End SharedStore.

(** ** More on the comparators *)

Lemma ignoreCABundle_Spec a : Spec (ignoreCABundle a) = withoutCABundle (Spec a).
Proof.
  unfold ignoreCABundle, withoutCABundle.
  destruct a as [n lb an [g nm sc vs conv p]]; simpl.
  destruct conv as [[strategy [[[cc|] crv]|]]|]; done.
Qed.

Lemma withoutCABundle_idemp s : withoutCABundle (withoutCABundle s) = withoutCABundle s.
Proof.
  unfold withoutCABundle. destruct s as [g nm sc vs conv p]; simpl.
  destruct conv as [[strategy [[[cc|] crv]|]]|]; done.
Qed.

Lemma SpecEqual_withoutCABundle a b :
  (SpecEqual a b).1 = bool_decide (withoutCABundle (Spec a) = withoutCABundle (Spec b)).
Proof. unfold SpecEqual. by rewrite !ignoreCABundle_Spec. Qed.


(** X1: [VersionEqual] is an equivalence on CRDs: reflexive, symmetric and
    transitive. *)
Theorem VersionEqual_equivalence :
  (∀ a, (VersionEqual a a).1 = true) ∧
  (∀ a b, (VersionEqual a b).1 = (VersionEqual b a).1) ∧
  (∀ a b c, (VersionEqual a b).1 = true → (VersionEqual b c).1 = true → (VersionEqual a c).1 = true).
Proof.
  split; [|split].
  - intros a. destruct (Labels a) as [la|] eqn:Ha.
    + rewrite (VersionEqual_lookups a a la la Ha Ha). by apply bool_decide_eq_true.
    + unfold VersionEqual. by rewrite Ha.
  - intros a b. destruct (Labels a) as [la|] eqn:Ha, (Labels b) as [lb|] eqn:Hb.
    + rewrite (VersionEqual_lookups a b la lb Ha Hb), (VersionEqual_lookups b a lb la Hb Ha).
      apply bool_decide_ext. split; congruence.
    + unfold VersionEqual. by rewrite Ha, Hb.
    + unfold VersionEqual. by rewrite Ha, Hb.
    + unfold VersionEqual. by rewrite Ha, Hb.
  - intros a b c.
    destruct (Labels a) as [la|] eqn:Ha, (Labels b) as [lb|] eqn:Hb,
             (Labels c) as [lc|] eqn:Hc;
      try (unfold VersionEqual; rewrite ?Ha, ?Hb, ?Hc; done).
    rewrite (VersionEqual_lookups a b la lb Ha Hb), (VersionEqual_lookups b c lb lc Hb Hc),
      (VersionEqual_lookups a c la lc Ha Hc).
    rewrite !bool_decide_eq_true. congruence.
Qed.

Lemma VersionEqual_equivalence_witness :
  (VersionEqual installedRedis goalRedis).1 = false ∧
  (VersionEqual goalRedis goalVault).1 = true ∧
  (VersionEqual goalVault goalRedis).1 = true.
Proof.
  destruct VersionEqual_equivalence as (_ & Hsym & Htrans).
  assert (H1 : (VersionEqual goalRedis goalVault).1 = true) by reflexivity.
  split; [reflexivity|]. split; [exact H1|].
  rewrite Hsym. exact (Htrans goalRedis goalVault goalVault H1 eq_refl).
Defined.

Lemma ignoreConversionWebhook_Spec a :
  Spec (ignoreConversionWebhook a) = withoutWebhook (Spec a).
Proof.
  unfold ignoreConversionWebhook, withoutWebhook.
  destruct a as [n lb an [g nm sc vs conv p]]; simpl.
  destruct conv as [[strategy [wh|]]|]; done.
Qed.

Lemma withoutWebhook_withoutCABundle s :
  withoutWebhook (withoutCABundle s) = withoutWebhook s.
Proof.
  unfold withoutWebhook, withoutCABundle. destruct s as [g nm sc vs conv p]; simpl.
  destruct conv as [[strategy [wh|]]|]; done.
Qed.

(** X2: [SpecEqual] answers [true] exactly when the two specs agree once the
    CA bundle of the webhook client configuration is dropped from both; name,
    labels and annotations do not count. It is an equivalence on CRDs. *)
Theorem SpecEqual_up_to_CABundle :
  (∀ a b, (SpecEqual a b).1 = true ↔ withoutCABundle (Spec a) = withoutCABundle (Spec b)) ∧
  (∀ a, (SpecEqual a a).1 = true) ∧
  (∀ a b, (SpecEqual a b).1 = (SpecEqual b a).1) ∧
  (∀ a b c, (SpecEqual a b).1 = true → (SpecEqual b c).1 = true → (SpecEqual a c).1 = true).
Proof.
  split; [|split; [|split]].
  - intros a b. by rewrite SpecEqual_withoutCABundle, bool_decide_eq_true.
  - intros a. rewrite SpecEqual_withoutCABundle. by apply bool_decide_eq_true.
  - intros a b. rewrite !SpecEqual_withoutCABundle. apply bool_decide_ext.
    split; congruence.
  - intros a b c. rewrite !SpecEqual_withoutCABundle, !bool_decide_eq_true. congruence.
Qed.

Lemma SpecEqual_up_to_CABundle_witness :
  let a := set_Spec goalRedis (sampleWebhookSpec "ns" (Some [x01; x02])) in
  let b := set_Spec goalVault (sampleWebhookSpec "ns" None) in
  Spec a ≠ Spec b ∧ (SpecEqual a b).1 = true ∧ (SpecEqual b a).1 = true.
Proof.
  intros a b.
  destruct SpecEqual_up_to_CABundle as (Hiff & _ & Hsym & _).
  assert (Hab : (SpecEqual a b).1 = true) by (apply Hiff; reflexivity).
  split; [discriminate|]. split; [exact Hab|]. by rewrite Hsym.
Defined.

(** X3: CRDs that [SpecEqual] takes for equal, [SpecEqualIgnoreConversionWebhook]
    takes for equal too: dropping the whole webhook drops its CA bundle. *)
Theorem SpecEqual_implies_SpecEqualIgnoreConversionWebhook
    (a b : CustomResourceDefinition) :
  (SpecEqual a b).1 = true → (SpecEqualIgnoreConversionWebhook a b).1 = true.
Proof.
  rewrite SpecEqual_withoutCABundle, bool_decide_eq_true. intros Heq.
  unfold SpecEqualIgnoreConversionWebhook. apply bool_decide_eq_true.
  rewrite !ignoreConversionWebhook_Spec.
  rewrite <- (withoutWebhook_withoutCABundle (Spec a)),
    <- (withoutWebhook_withoutCABundle (Spec b)).
  by rewrite Heq.
Qed.

Lemma SpecEqual_implies_SpecEqualIgnoreConversionWebhook_witness :
  let a := set_Spec goalRedis (sampleWebhookSpec "ns" (Some [x01; x02])) in
  let b := set_Spec goalRedis (sampleWebhookSpec "ns" None) in
  let c := set_Spec goalRedis (sampleWebhookSpec "other-ns" None) in
  (SpecEqual a b).1 = true ∧ (SpecEqualIgnoreConversionWebhook a b).1 = true ∧
  (SpecEqual b c).1 = false ∧ (SpecEqualIgnoreConversionWebhook b c).1 = true.
Proof.
  intros a b c.
  assert (Hab : (SpecEqual a b).1 = true) by reflexivity.
  split; [exact Hab|].
  split; [exact (SpecEqual_implies_SpecEqualIgnoreConversionWebhook a b Hab)|].
  split; reflexivity.
Defined.

(** ** The search on values and the search on shared objects *)

Section Refinement.
Implicit Types (st : gmap Shared.loc Shared.cell) (l : Shared.loc).

(** *** Reading after the CA bundle of one client configuration was cleared *)

Section Cleared.
Context (st : gmap Shared.loc Shared.cell) (lcc : Shared.loc) (url : option string)
        (service : option Shared.loc) (caBundle : option (list byte)).
Hypothesis at_lcc : st !! lcc = Some (Shared.CClientConfig url service caBundle).

#[local] Abbreviation st' := (<[lcc := Shared.CClientConfig url service None]> st).

Lemma loadService_cleared l : Shared.loadService st' l = Shared.loadService st l.
Proof.
  unfold Shared.loadService. destruct (decide (l = lcc)) as [->|Hne].
  - by rewrite lookup_insert_eq, at_lcc.
  - by rewrite lookup_insert_ne.
Qed.

Lemma loadClientConfig_cleared l :
  Shared.loadClientConfig st' l =
    if decide (l = lcc) then (λ cc, set_CABundle cc None) <$> Shared.loadClientConfig st l
    else Shared.loadClientConfig st l.
Proof.
  unfold Shared.loadClientConfig. destruct (decide (l = lcc)) as [->|Hne].
  - rewrite lookup_insert_eq, at_lcc. simpl. unfold set_CABundle. simpl.
    do 2 f_equal.
    assert (Hsvc : ∀ o : option Shared.loc,
               o ≫= Shared.loadService st' = o ≫= Shared.loadService st).
    { intros [ls|]; [apply loadService_cleared|done]. }
    apply Hsvc.
  - rewrite lookup_insert_ne by done.
    destruct (st !! l) as [[?|? [ls|] ?|? ?|? ?]|]; try done.
    simpl. by rewrite loadService_cleared.
Qed.

Lemma loadWebhook_cleared l :
  Shared.loadWebhook st' l = Shared.loadWebhook st l ∨
  Shared.loadWebhook st' l =
    (λ wh, set_ClientConfig wh ((λ cc, set_CABundle cc None) <$> ClientConfig wh))
    <$> Shared.loadWebhook st l.
Proof.
  unfold Shared.loadWebhook. destruct (decide (l = lcc)) as [->|Hne].
  - rewrite lookup_insert_eq, at_lcc. by left.
  - rewrite lookup_insert_ne by done.
    destruct (st !! l) as [[?|? ? ?|[l0|] ?|? ?]|]; try by left.
    simpl. rewrite loadClientConfig_cleared. case_decide; [by right|by left].
Qed.

Lemma loadConversion_cleared l :
  Shared.loadConversion st' l = Shared.loadConversion st l ∨
  Shared.loadConversion st' l =
    (λ conv, set_Webhook conv
       ((λ wh, set_ClientConfig wh ((λ cc, set_CABundle cc None) <$> ClientConfig wh))
        <$> Webhook conv))
    <$> Shared.loadConversion st l.
Proof.
  unfold Shared.loadConversion. destruct (decide (l = lcc)) as [->|Hne].
  - rewrite lookup_insert_eq, at_lcc. by left.
  - rewrite lookup_insert_ne by done.
    destruct (st !! l) as [[?|? ? ?|? ?|? [l0|]]|]; try by left.
    simpl. destruct (loadWebhook_cleared l0) as [-> | ->]; [by left|by right].
Qed.

(** A struct reads as before, or as before without its CA bundle. *)
Lemma load_cleared c :
  Spec (Shared.load st' c) = Spec (Shared.load st c) ∨
  Spec (Shared.load st' c) = withoutCABundle (Spec (Shared.load st c)).
Proof.
  unfold Shared.load, withoutCABundle. simpl.
  destruct (Shared.conversion c) as [l|]; [|by left]. simpl.
  destruct (loadConversion_cleared l) as [-> | ->]; [by left|right].
  by destruct (Shared.loadConversion st l).
Qed.

End Cleared.

Lemma load_ignoreCABundle_other st a c :
  Spec (Shared.load (Shared.ignoreCABundle a st).2 c) = Spec (Shared.load st c) ∨
  Spec (Shared.load (Shared.ignoreCABundle a st).2 c)
    = withoutCABundle (Spec (Shared.load st c)).
Proof.
  unfold Shared.ignoreCABundle.
  destruct (Shared.conversion a) as [lc|]; [|by left].
  destruct (st !! lc) as [[?|? ? ?|? ?|strategy [lw|]]|] eqn:Hlc; try by left.
  destruct (st !! lw) as [[?|? ? ?|[lcc|] versions|? ?]|] eqn:Hlw; try by left.
  destruct (st !! lcc) as [[?|url service ca|? ?|? ?]|] eqn:Hlcc; try by left.
  simpl. by apply (load_cleared st lcc url service ca).
Qed.

(** The struct that was given reads without its CA bundle. *)
Lemma load_ignoreCABundle_self st a :
  Spec (Shared.load (Shared.ignoreCABundle a st).2 a)
    = withoutCABundle (Spec (Shared.load st a)).
Proof.
  unfold Shared.ignoreCABundle, Shared.load, withoutCABundle.
  destruct (Shared.conversion a) as [lc|]; [|done]. simpl.
  unfold Shared.loadConversion, Shared.loadWebhook, Shared.loadClientConfig.
  destruct (st !! lc) as [[?|? ? ?|? ?|strategy [lw|]]|] eqn:Hlc;
    try (by simpl; rewrite Hlc).
  destruct (st !! lw) as [[?|? ? ?|[lcc|] versions|? ?]|] eqn:Hlw;
    try (by simpl; rewrite Hlc; simpl; rewrite Hlw).
  destruct (st !! lcc) as [[?|url service ca|? ?|? ?]|] eqn:Hlcc;
    try (by simpl; rewrite Hlc; simpl; rewrite Hlw; simpl; rewrite Hlcc).
  assert (lc ≠ lcc) by (intros ->; congruence).
  assert (lw ≠ lcc) by (intros ->; congruence).
  simpl. rewrite lookup_insert_ne, Hlc by done. simpl.
  rewrite lookup_insert_ne, Hlw by done. simpl.
  assert (Hsvc : ∀ o : option Shared.loc,
             o ≫= Shared.loadService (<[lcc := Shared.CClientConfig url service None]> st)
             = o ≫= Shared.loadService st).
  { intros [ls|]; [|done]. apply (loadService_cleared st lcc url service ca Hlcc). }
  rewrite lookup_insert_eq, Hlcc. simpl. unfold set_CABundle, set_ClientConfig. simpl.
  by rewrite Hsvc.
Qed.

(** Two structs, each stripped in turn through its pointers, compare as
    their values compare once stripped: whether or not they share objects. *)
Lemma stripped_compare
    (strip : CustomResourceDefinitionSpec → CustomResourceDefinitionSpec)
    (ignore : Shared.CRDStruct → gmap Shared.loc Shared.cell →
              Shared.CRDStruct * gmap Shared.loc Shared.cell) :
  (∀ s, strip (strip s) = strip s) →
  (∀ st a, (ignore a st).1 = a) →
  (∀ st a, Spec (Shared.load (ignore a st).2 a) = strip (Spec (Shared.load st a))) →
  (∀ st a c, Spec (Shared.load (ignore a st).2 c) = Spec (Shared.load st c) ∨
             Spec (Shared.load (ignore a st).2 c) = strip (Spec (Shared.load st c))) →
  ∀ st a b,
    (let '(a, st) := ignore a st in
     let '(b, st) := ignore b st in
     (bool_decide (Spec (Shared.load st a) = Spec (Shared.load st b)), st)).1
    = bool_decide (strip (Spec (Shared.load st a)) = strip (Spec (Shared.load st b))).
Proof.
  intros Hidemp Hsame Hself Hother st a b.
  pose proof (Hself st a) as Ha. pose proof (Hother st a b) as Hb.
  pose proof (Hsame st a) as Ha1.
  destruct (ignore a st) as [a' st1]. cbn [fst snd] in *. subst a'.
  pose proof (Hself st1 b) as Hb2. pose proof (Hother st1 b a) as Ha2.
  pose proof (Hsame st1 b) as Hb1.
  destruct (ignore b st1) as [b' st2]. cbn [fst snd] in *. subst b'.
  apply bool_decide_ext.
  assert (Spec (Shared.load st2 a) = strip (Spec (Shared.load st a))) as ->.
  { destruct Ha2 as [-> | ->]; rewrite Ha; [done|apply Hidemp]. }
  assert (Spec (Shared.load st2 b) = strip (Spec (Shared.load st b))) as ->.
  { rewrite Hb2. destruct Hb as [-> | ->]; [done|apply Hidemp]. }
  done.
Qed.

Lemma SpecEqual_answersLike : answersLike Shared.SpecEqual SpecEqual.
Proof.
  intros st a b. rewrite SpecEqual_withoutCABundle. unfold Shared.SpecEqual.
  apply (stripped_compare withoutCABundle Shared.ignoreCABundle).
  - apply withoutCABundle_idemp.
  - intros st0 a0. unfold Shared.ignoreCABundle. by repeat case_match.
  - apply load_ignoreCABundle_self.
  - apply load_ignoreCABundle_other.
Qed.

(** *** Reading after the webhook of one conversion was set to nil *)

Section Unhooked.
Context (st : gmap Shared.loc Shared.cell) (lc : Shared.loc) (strategy : string)
        (lw : Shared.loc).
Hypothesis at_lc : st !! lc = Some (Shared.CConversion strategy (Some lw)).

#[local] Abbreviation st' := (<[lc := Shared.CConversion strategy None]> st).

Lemma loadService_unhooked l : Shared.loadService st' l = Shared.loadService st l.
Proof.
  unfold Shared.loadService. destruct (decide (l = lc)) as [->|Hne].
  - by rewrite lookup_insert_eq, at_lc.
  - by rewrite lookup_insert_ne.
Qed.

Lemma loadClientConfig_unhooked l :
  Shared.loadClientConfig st' l = Shared.loadClientConfig st l.
Proof.
  unfold Shared.loadClientConfig. destruct (decide (l = lc)) as [->|Hne].
  - by rewrite lookup_insert_eq, at_lc.
  - rewrite lookup_insert_ne by done.
    destruct (st !! l) as [[?|? [ls|] ?|? ?|? ?]|]; try done.
    simpl. by rewrite loadService_unhooked.
Qed.

Lemma loadWebhook_unhooked l : Shared.loadWebhook st' l = Shared.loadWebhook st l.
Proof.
  unfold Shared.loadWebhook. destruct (decide (l = lc)) as [->|Hne].
  - by rewrite lookup_insert_eq, at_lc.
  - rewrite lookup_insert_ne by done.
    destruct (st !! l) as [[?|? ? ?|[l0|] ?|? ?]|]; try done.
    simpl. by rewrite loadClientConfig_unhooked.
Qed.

Lemma loadConversion_unhooked l :
  Shared.loadConversion st' l =
    if decide (l = lc) then (λ conv, set_Webhook conv None) <$> Shared.loadConversion st l
    else Shared.loadConversion st l.
Proof.
  unfold Shared.loadConversion. destruct (decide (l = lc)) as [->|Hne].
  - by rewrite lookup_insert_eq, at_lc.
  - rewrite lookup_insert_ne by done.
    destruct (st !! l) as [[?|? ? ?|? ?|? [l0|]]|]; try done.
    simpl. by rewrite loadWebhook_unhooked.
Qed.

Lemma load_unhooked c :
  Spec (Shared.load st' c) = Spec (Shared.load st c) ∨
  Spec (Shared.load st' c) = withoutWebhook (Spec (Shared.load st c)).
Proof.
  unfold Shared.load, withoutWebhook. simpl.
  destruct (Shared.conversion c) as [l|]; [|by left]. simpl.
  rewrite loadConversion_unhooked. case_decide; [right|by left].
  by destruct (Shared.loadConversion st l).
Qed.

End Unhooked.

Lemma withoutWebhook_idemp s : withoutWebhook (withoutWebhook s) = withoutWebhook s.
Proof.
  unfold withoutWebhook. destruct s as [g nm sc vs conv p]; simpl.
  by destruct conv as [[strategy wh]|].
Qed.

Lemma load_ignoreConversionWebhook_other st a c :
  Spec (Shared.load (Shared.ignoreConversionWebhook a st).2 c) = Spec (Shared.load st c) ∨
  Spec (Shared.load (Shared.ignoreConversionWebhook a st).2 c)
    = withoutWebhook (Spec (Shared.load st c)).
Proof.
  unfold Shared.ignoreConversionWebhook.
  destruct (Shared.conversion a) as [lc|]; [|by left].
  destruct (st !! lc) as [[?|? ? ?|? ?|strategy [lw|]]|] eqn:Hlc; try by left.
  simpl. by apply (load_unhooked st lc strategy lw).
Qed.

Lemma load_ignoreConversionWebhook_self st a :
  Spec (Shared.load (Shared.ignoreConversionWebhook a st).2 a)
    = withoutWebhook (Spec (Shared.load st a)).
Proof.
  unfold Shared.ignoreConversionWebhook, Shared.load, withoutWebhook.
  destruct (Shared.conversion a) as [lc|]; [|done]. simpl.
  unfold Shared.loadConversion.
  destruct (st !! lc) as [[?|? ? ?|? ?|strategy [lw|]]|] eqn:Hlc;
    try (by simpl; rewrite Hlc).
  simpl. by rewrite lookup_insert_eq.
Qed.

Lemma SpecEqualIgnoreConversionWebhook_answersLike :
  answersLike Shared.SpecEqualIgnoreConversionWebhook SpecEqualIgnoreConversionWebhook.
Proof.
  intros st a b. unfold SpecEqualIgnoreConversionWebhook.
  rewrite !ignoreConversionWebhook_Spec. unfold Shared.SpecEqualIgnoreConversionWebhook.
  apply (stripped_compare withoutWebhook Shared.ignoreConversionWebhook).
  - apply withoutWebhook_idemp.
  - intros st0 a0. unfold Shared.ignoreConversionWebhook. by repeat case_match.
  - apply load_ignoreConversionWebhook_self.
  - apply load_ignoreConversionWebhook_other.
Qed.

Lemma VersionEqual_answersLike : answersLike Shared.VersionEqual VersionEqual.
Proof. intros st a b. done. Qed.

Lemma invert_answersLike c p :
  answersLike c p → answersLike (Shared.invert c) (invert p).
Proof.
  intros Hc st a b. unfold Shared.invert, invert. specialize (Hc st a b).
  destruct (c a b st) as [r st'].
  destruct (p (Shared.load st a) (Shared.load st b)) as [r' ab]. simpl in *.
  by subst.
Qed.

(** X4: on shared objects each comparator of the source answers what it
    answers on the values read from the store before the call, though it
    assigns through the pointers it is given, and whether or not the two
    structs share objects. *)
Theorem source_comparators_answer_on_values :
  answersLike Shared.VersionEqual VersionEqual ∧
  answersLike Shared.SpecEqual SpecEqual ∧
  answersLike Shared.SpecEqualIgnoreConversionWebhook SpecEqualIgnoreConversionWebhook.
Proof.
  split; [apply VersionEqual_answersLike|].
  split; [apply SpecEqual_answersLike|apply SpecEqualIgnoreConversionWebhook_answersLike].
Qed.

End Refinement.


(** ** More on the search for matching CRDs *)

Lemma NoDup_names_inj (goal : list CustomResourceDefinition) g1 g2 :
  NoDup (Name <$> goal) → g1 ∈ goal → g2 ∈ goal → Name g1 = Name g2 → g1 = g2.
Proof.
  intros Hnd [i Hi]%list_elem_of_lookup [j Hj]%list_elem_of_lookup Hn.
  assert (i = j) as ->.
  { apply (NoDup_lookup (Name <$> goal) i j (Name g1)); [done| |].
    - by rewrite list_lookup_fmap, Hi.
    - by rewrite list_lookup_fmap, Hj, Hn. }
  congruence.
Qed.

Lemma compareAll_single c e g : (compareAll [c] e g).1 = (c e g).1.
Proof. simpl. destruct (c e g) as [r [e' g']]. by destruct r. Qed.

Lemma FindMatchingCRDs_single_dom existing goal c n :
  n ∈ dom (FindMatchingCRDs existing goal [c]) ↔
  ∃ g, g ∈ goal ∧ Name g = n ∧
       (c (default zeroCRD (indexByName existing !! Name g)) g).1 = true.
Proof.
  rewrite FindMatchingCRDs_dom. by setoid_rewrite compareAll_single.
Qed.

(** X5: without comparators every goal entry counts as matching, and as
    non-matching too: both searches return every goal name. *)
Theorem no_comparators_find_every_goal
    (existing goal : list CustomResourceDefinition) :
  dom (FindMatchingCRDs existing goal []) = namesOf goal ∧
  dom (FindNonMatchingCRDs existing goal []) = namesOf goal.
Proof.
  assert (H : dom (FindMatchingCRDs existing goal []) = namesOf goal).
  { apply set_eq. intros n. rewrite FindMatchingCRDs_dom. unfold namesOf.
    rewrite elem_of_list_to_set, list_elem_of_fmap. split.
    - intros (g & Hin & <- & _). eauto.
    - intros (g & -> & Hin). eauto. }
  split; [exact H|]. unfold FindNonMatchingCRDs. exact H.
Qed.

(** X6: with one comparator every goal name is found by one of the two
    searches, and, when the goal names are pairwise distinct, by one only. *)
Theorem one_comparator_splits_goal
    (existing goal : list CustomResourceDefinition) (c : comparator) :
  dom (FindMatchingCRDs existing goal [c]) ∪ dom (FindNonMatchingCRDs existing goal [c])
    = namesOf goal ∧
  (NoDup (Name <$> goal) →
   dom (FindMatchingCRDs existing goal [c]) ## dom (FindNonMatchingCRDs existing goal [c])).
Proof.
  split.
  - apply set_eq. intros n. rewrite elem_of_union, FindMatchingCRDs_single_dom,
      FindNonMatchingCRDs_single_dom. unfold namesOf.
    rewrite elem_of_list_to_set, list_elem_of_fmap. split.
    + intros [(g & Hin & <- & _)|(g & Hin & <- & _)]; eauto.
    + intros (g & -> & Hin).
      destruct (c (default zeroCRD (indexByName existing !! Name g)) g).1 eqn:Hc.
      * left. eauto.
      * right. eauto.
  - intros Hnd n. rewrite FindMatchingCRDs_single_dom, FindNonMatchingCRDs_single_dom.
    intros (g1 & Hin1 & Hn1 & Hc1) (g2 & Hin2 & Hn2 & Hc2).
    assert (g1 = g2) as -> by (eapply NoDup_names_inj; [done..|congruence]).
    congruence.
Qed.

Lemma one_comparator_splits_goal_witness :
  let goal := [goalRedis; goalVault] in
  NoDup (Name <$> goal) ∧
  dom (FindMatchingCRDs [installedRedis] goal [VersionEqual])
    ## dom (FindNonMatchingCRDs [installedRedis] goal [VersionEqual]).
Proof.
  intros goal.
  assert (Hnd : NoDup (Name <$> goal)).
  { apply (bool_decide_unpack _). vm_compute. exact I. }
  split; [exact Hnd|].
  destruct (one_comparator_splits_goal [installedRedis] goal VersionEqual) as [_ H].
  exact (H Hnd).
Defined.

Lemma indexByName_lookup_None existing n :
  n ∉ namesOf existing → indexByName existing !! n = None.
Proof.
  intros Hn. apply not_elem_of_dom. by rewrite indexByName_dom.
Qed.

(** X7: a goal CRD whose name is not among the existing CRDs is compared with
    the zero CRD. For [VersionEqual] that makes it a mismatch exactly when it
    has a label map: a goal CRD without labels that is not installed counts
    as having the installed version. *)
Theorem absent_CRD_compared_with_zero
    (existing goal : list CustomResourceDefinition) (n : string) :
  n ∉ namesOf existing →
  (∀ c, n ∈ dom (FindNonMatchingCRDs existing goal [c]) ↔
        ∃ g, g ∈ goal ∧ Name g = n ∧ (c zeroCRD g).1 = false) ∧
  (n ∈ dom (FindNonMatchingCRDs existing goal [VersionEqual]) ↔
   ∃ g, g ∈ goal ∧ Name g = n ∧ Labels g ≠ None) ∧
  (n ∈ dom (FindMatchingCRDs existing goal [VersionEqual]) ↔
   ∃ g, g ∈ goal ∧ Name g = n ∧ Labels g = None).
Proof.
  intros Hn. pose proof (indexByName_lookup_None existing n Hn) as Hidx.
  assert (Hzero : ∀ g, (VersionEqual zeroCRD g).1 = bool_decide (Labels g = None)).
  { intros g. unfold VersionEqual. simpl. by destruct (Labels g). }
  assert (Hgen : ∀ c, n ∈ dom (FindNonMatchingCRDs existing goal [c]) ↔
                      ∃ g, g ∈ goal ∧ Name g = n ∧ (c zeroCRD g).1 = false).
  { intros c. rewrite FindNonMatchingCRDs_single_dom.
    split; intros (g & Hin & Hg & Hc); exists g; repeat split; try done.
    - by rewrite Hg, Hidx in Hc.
    - by rewrite Hg, Hidx. }
  split; [exact Hgen|]. split.
  - rewrite Hgen. split; intros (g & Hin & Hg & Hc); exists g; repeat split; try done.
    + rewrite Hzero in Hc. by apply bool_decide_eq_false in Hc.
    + rewrite Hzero. by apply bool_decide_eq_false.
  - rewrite FindMatchingCRDs_single_dom.
    split; intros (g & Hin & Hg & Hc); exists g; repeat split; try done.
    + rewrite Hg, Hidx in Hc. cbn [default] in Hc. rewrite Hzero in Hc.
      by apply bool_decide_eq_true in Hc.
    + rewrite Hg, Hidx. cbn [default]. rewrite Hzero.
      by rewrite bool_decide_eq_true_2.
Qed.

Lemma absent_CRD_compared_with_zero_witness :
  (vaultName ∉ namesOf [installedRedis]) ∧
  vaultName ∈ dom (FindNonMatchingCRDs [installedRedis] [goalRedis; goalVault]
                     [VersionEqual]).
Proof.
  assert (Hn : vaultName ∉ namesOf [installedRedis]).
  { apply (bool_decide_unpack _). vm_compute. exact I. }
  split; [exact Hn|].
  destruct (absent_CRD_compared_with_zero [installedRedis] [goalRedis; goalVault]
              vaultName Hn) as (_ & Hv & _).
  apply Hv. exists goalVault. split; [|split; [reflexivity|discriminate]].
  apply elem_of_cons. right. apply list_elem_of_singleton. reflexivity.
Defined.

(** ** The search on shared objects finds the names the search on values finds *)

Section SearchRefinement.
Implicit Types (st : gmap Shared.loc Shared.cell) (l : Shared.loc).

(** *** A copy reads as its original *)

Lemma loadService_alloc st c ol :
  (∀ l, ol = Some l → l ∈ dom st) →
  ol ≫= Shared.loadService (<[fresh (dom st) := c]> st) = ol ≫= Shared.loadService st.
Proof.
  intros Hin. destruct ol as [l|]; [|done]. simpl. unfold Shared.loadService.
  rewrite lookup_insert_ne; [done|]. intros Heq.
  apply (is_fresh (dom st)). rewrite Heq. by apply Hin.
Qed.

Lemma copyService_load st l :
  (Shared.copyService st l).1 ≫= Shared.loadService (Shared.copyService st l).2
    = Shared.loadService st l.
Proof.
  unfold Shared.copyService, Shared.loadService at 2.
  destruct (st !! l) as [[s|? ? ?|? ?|? ?]|]; try done.
  simpl. unfold Shared.loadService. by rewrite lookup_insert_eq.
Qed.

Lemma copyClientConfig_load st l :
  (Shared.copyClientConfig st l).1
    ≫= Shared.loadClientConfig (Shared.copyClientConfig st l).2
    = Shared.loadClientConfig st l.
Proof.
  unfold Shared.copyClientConfig, Shared.loadClientConfig at 2.
  destruct (st !! l) as [[?|url service ca|? ?|? ?]|]; try done.
  assert (Hsvc : ∃ service' st1,
             (match service with
              | Some ls => Shared.copyService st ls
              | None => (None, st)
              end) = (service', st1) ∧
             service' ≫= Shared.loadService st1 = service ≫= Shared.loadService st ∧
             ∀ ls', service' = Some ls' → ls' ∈ dom st1).
  { destruct service as [ls|].
    - pose proof (copyService_load st ls) as Hload.
      destruct (copyService_spec st ls) as [_ Hnew].
      destruct (Shared.copyService st ls) as [service' st1]. simpl in *.
      exists service', st1. split; [done|]. split; [done|].
      intros ls' ->. specialize (Hnew ls' eq_refl). set_solver.
    - exists None, st. done. }
  destruct Hsvc as (service' & st1 & -> & Hload & Hin). simpl.
  unfold Shared.loadClientConfig. rewrite lookup_insert_eq.
  by rewrite (loadService_alloc st1 _ service' Hin), Hload.
Qed.

Lemma loadClientConfig_alloc st c ol :
  (∀ l, ol = Some l → Shared.reachClientConfig st l ⊆ dom st) →
  ol ≫= Shared.loadClientConfig (<[fresh (dom st) := c]> st)
    = ol ≫= Shared.loadClientConfig st.
Proof.
  intros Hin. destruct ol as [l|]; [|done]. simpl.
  apply loadClientConfig_extend; [|by apply Hin].
  apply insert_subseteq, not_elem_of_dom, is_fresh.
Qed.

Lemma copyWebhook_load st l :
  (Shared.copyWebhook st l).1 ≫= Shared.loadWebhook (Shared.copyWebhook st l).2
    = Shared.loadWebhook st l.
Proof.
  unfold Shared.copyWebhook, Shared.loadWebhook at 2.
  destruct (st !! l) as [[?|? ? ?|clientConfig versions|? ?]|]; try done.
  assert (Hcc : ∃ clientConfig' st1,
             (match clientConfig with
              | Some lcc => Shared.copyClientConfig st lcc
              | None => (None, st)
              end) = (clientConfig', st1) ∧
             clientConfig' ≫= Shared.loadClientConfig st1
               = clientConfig ≫= Shared.loadClientConfig st ∧
             ∀ lcc', clientConfig' = Some lcc' →
                     Shared.reachClientConfig st1 lcc' ⊆ dom st1).
  { destruct clientConfig as [lcc|].
    - pose proof (copyClientConfig_load st lcc) as Hload.
      destruct (copyClientConfig_spec st lcc) as [_ Hnew].
      destruct (Shared.copyClientConfig st lcc) as [clientConfig' st1]. simpl in *.
      exists clientConfig', st1. split; [done|]. split; [done|].
      intros lcc' ->. specialize (Hnew lcc' eq_refl). set_solver.
    - exists None, st. done. }
  destruct Hcc as (clientConfig' & st1 & -> & Hload & Hin). simpl.
  unfold Shared.loadWebhook. rewrite lookup_insert_eq.
  by rewrite (loadClientConfig_alloc st1 _ clientConfig' Hin), Hload.
Qed.

Lemma loadWebhook_alloc st c ol :
  (∀ l, ol = Some l → Shared.reachWebhook st l ⊆ dom st) →
  ol ≫= Shared.loadWebhook (<[fresh (dom st) := c]> st) = ol ≫= Shared.loadWebhook st.
Proof.
  intros Hin. destruct ol as [l|]; [|done]. simpl.
  apply loadWebhook_extend; [|by apply Hin].
  apply insert_subseteq, not_elem_of_dom, is_fresh.
Qed.

Lemma copyConversion_load st l :
  (Shared.copyConversion st l).1 ≫= Shared.loadConversion (Shared.copyConversion st l).2
    = Shared.loadConversion st l.
Proof.
  unfold Shared.copyConversion, Shared.loadConversion at 2.
  destruct (st !! l) as [[?|? ? ?|? ?|strategy webhook]|]; try done.
  assert (Hwh : ∃ webhook' st1,
             (match webhook with
              | Some lw => Shared.copyWebhook st lw
              | None => (None, st)
              end) = (webhook', st1) ∧
             webhook' ≫= Shared.loadWebhook st1 = webhook ≫= Shared.loadWebhook st ∧
             ∀ lw', webhook' = Some lw' → Shared.reachWebhook st1 lw' ⊆ dom st1).
  { destruct webhook as [lw|].
    - pose proof (copyWebhook_load st lw) as Hload.
      destruct (copyWebhook_spec st lw) as [_ Hnew].
      destruct (Shared.copyWebhook st lw) as [webhook' st1]. simpl in *.
      exists webhook', st1. split; [done|]. split; [done|].
      intros lw' ->. specialize (Hnew lw' eq_refl). set_solver.
    - exists None, st. done. }
  destruct Hwh as (webhook' & st1 & -> & Hload & Hin). simpl.
  unfold Shared.loadConversion. rewrite lookup_insert_eq.
  by rewrite (loadWebhook_alloc st1 _ webhook' Hin), Hload.
Qed.

Lemma DeepCopy_load st c :
  Shared.load (Shared.DeepCopy c st).2 (Shared.DeepCopy c st).1 = Shared.load st c.
Proof.
  unfold Shared.DeepCopy, Shared.load.
  destruct (Shared.conversion c) as [l|] eqn:Hc; [|by simpl; rewrite Hc].
  pose proof (copyConversion_load st l) as Hload.
  destruct (Shared.copyConversion st l) as [l' st1]. simpl in *. by rewrite Hload.
Qed.

End SearchRefinement.

Section SearchOnValues.
Implicit Types (st : gmap Shared.loc Shared.cell).

Lemma indexByName_load st existing :
  indexByName (Shared.load st <$> existing)
    = Shared.load st <$> Shared.indexByName existing.
Proof.
  induction existing as [|x existing IH] using rev_ind.
  - unfold indexByName, Shared.indexByName. simpl. by rewrite fmap_empty.
  - rewrite fmap_app. simpl. rewrite indexByName_snoc, IH.
    unfold Shared.indexByName at 2. rewrite foldl_app. simpl.
    by rewrite fmap_insert.
Qed.

Lemma Shared_indexByName_lookup_Some existing n x :
  Shared.indexByName existing !! n = Some x → x ∈ existing.
Proof.
  induction existing as [|y existing IH] using rev_ind.
  - unfold Shared.indexByName. simpl. by rewrite lookup_empty.
  - unfold Shared.indexByName in *. rewrite foldl_app. simpl.
    rewrite lookup_insert. case_decide.
    + intros [= <-]. in_snoc.
    + intros H'. apply IH in H'. in_snoc.
Qed.

Lemma existingFor_load st existing n :
  default zeroCRD (indexByName (Shared.load st <$> existing) !! n)
    = Shared.load st (default Shared.zeroCRDStruct (Shared.indexByName existing !! n)).
Proof.
  rewrite indexByName_load, lookup_fmap.
  by destruct (Shared.indexByName existing !! n).
Qed.

Lemma Shared_FindMatchingCRDs_names c p existing goal st :
  answersLike c p → Shared.confined c →
  (∀ x, x ∈ existing ++ goal → Shared.reach st x ⊆ dom st) →
  dom (Shared.FindMatchingCRDs existing goal [c] st).1
    = dom (FindMatchingCRDs (Shared.load st <$> existing) (Shared.load st <$> goal) [p]).
Proof.
  intros Hans Hconf Hclosed.
  induction goal as [|g goal IH] using rev_ind.
  - unfold Shared.FindMatchingCRDs, FindMatchingCRDs. simpl. by rewrite !dom_empty_L.
  - assert (Hsub : st ⊆ (Shared.FindMatchingCRDs existing goal [c] st).2).
    { apply FindMatchingCRDs_frame. by constructor. }
    assert (IH' : dom (Shared.FindMatchingCRDs existing goal [c] st).1
                  = dom (FindMatchingCRDs (Shared.load st <$> existing)
                           (Shared.load st <$> goal) [p])).
    { apply IH. intros x Hx. apply Hclosed. set_solver. }
    clear IH. rewrite fmap_app. simpl. rewrite FindMatchingCRDs_snoc.
    rewrite compareAll_single.
    unfold Shared.FindMatchingCRDs at 1. rewrite foldl_app. simpl.
    fold (Shared.FindMatchingCRDs existing goal [c] st).
    destruct (Shared.FindMatchingCRDs existing goal [c] st) as [matching st1].
    simpl in *. unfold DeepCopy.
    rewrite existingFor_load.
    set (e := default Shared.zeroCRDStruct
                (Shared.indexByName existing !! Name (Shared.fields g))).
    change (Name (Shared.load st g)) with (Name (Shared.fields g)). fold e.
    assert (He : Shared.reach st e ⊆ dom st).
    { unfold e. destruct (Shared.indexByName existing !! _) as [x|] eqn:Hx; simpl.
      - apply Hclosed. apply Shared_indexByName_lookup_Some in Hx. set_solver.
      - unfold Shared.reach. simpl. set_solver. }
    assert (Hg : Shared.reach st g ⊆ dom st) by (apply Hclosed; set_solver).
    pose proof (DeepCopy_load st1 e) as Hle.
    destruct (DeepCopy_spec e st1) as (Hsub1 & Hnew1 & _).
    destruct (Shared.DeepCopy e st1) as [e' st2]. simpl in *.
    pose proof (DeepCopy_load st2 g) as Hlg.
    destruct (DeepCopy_spec g st2) as (Hsub2 & _ & Hfields).
    destruct (Shared.DeepCopy g st2) as [g' st3]. simpl in *.
    assert (He' : Shared.load st3 e' = Shared.load st e).
    { rewrite (load_extend st2 st3 e' Hsub2) by set_solver.
      rewrite Hle. by apply load_extend. }
    assert (Hg' : Shared.load st3 g' = Shared.load st g).
    { rewrite Hlg. apply load_extend; [by etrans|done]. }
    pose proof (Hans st3 e' g') as Hr. rewrite He', Hg' in Hr.
    destruct (c e' g' st3) as [r st4]. simpl in Hr. subst r.
    destruct (p (Shared.load st e) (Shared.load st g)).1; simpl.
    + rewrite !dom_insert_L, IH', Hfields. done.
    + done.
Qed.

(** X8: with the structs held as the code holds them, copied before each
    comparison and handed to a comparator that assigns through them, the
    search returns the names that the search on values returns, for
    [FindMatchingCRDs] and for [FindNonMatchingCRDs]: what a comparator does to
    the copies of one goal CRD has no effect on the comparison of the next.
    The comparator is one that keeps to its arguments and answers by what
    they read as; the CRDs given lead only to objects of the store. *)
Theorem search_on_copies_finds_the_names_of_the_search_on_values
    (c : Shared.comparator) (p : comparator)
    (existing goal : list Shared.CRDStruct) (st : gmap Shared.loc Shared.cell) :
  answersLike c p → Shared.confined c →
  (∀ x, x ∈ existing ++ goal → Shared.reach st x ⊆ dom st) →
  dom (Shared.FindMatchingCRDs existing goal [c] st).1
    = dom (FindMatchingCRDs (Shared.load st <$> existing) (Shared.load st <$> goal) [p]) ∧
  dom (Shared.FindNonMatchingCRDs existing goal [c] st).1
    = dom (FindNonMatchingCRDs (Shared.load st <$> existing) (Shared.load st <$> goal) [p]).
Proof.
  intros Hans Hconf Hclosed. split.
  - by apply Shared_FindMatchingCRDs_names.
  - unfold Shared.FindNonMatchingCRDs, FindNonMatchingCRDs. simpl.
    apply Shared_FindMatchingCRDs_names; [|by apply invert_confined|done].
    by apply invert_answersLike.
Qed.

Lemma search_on_copies_finds_the_names_of_the_search_on_values_witness :
  answersLike Shared.SpecEqual SpecEqual ∧ Shared.confined Shared.SpecEqual ∧
  dom (Shared.FindNonMatchingCRDs [storedExisting] [storedGoal] [Shared.SpecEqual]
         sampleStore).1
    = dom (FindNonMatchingCRDs (Shared.load sampleStore <$> [storedExisting])
             (Shared.load sampleStore <$> [storedGoal]) [SpecEqual]).
Proof.
  split; [exact SpecEqual_answersLike|]. split; [exact SpecEqual_confined|].
  apply (search_on_copies_finds_the_names_of_the_search_on_values
           Shared.SpecEqual SpecEqual [storedExisting] [storedGoal] sampleStore
           SpecEqual_answersLike SpecEqual_confined).
  intros x Hx. apply (bool_decide_unpack _).
  apply elem_of_cons in Hx as [->|Hx]; [vm_compute; exact I|].
  apply elem_of_cons in Hx as [->|Hx]; [vm_compute; exact I|].
  by apply elem_of_nil in Hx.
Defined.

End SearchOnValues.

(** ** More on fixCRDNamespace *)

Lemma countChar_afterChar sep s :
  countChar sep s = 1 → countChar sep (afterChar sep s) = 0.
Proof.
  induction s as [|c s IH]; simpl; [done|].
  case_decide; [by intros [= Hzero]|]. apply IH.
Qed.

Lemma withServiceNamespace_twice s ns1 ns2 :
  withServiceNamespace (withServiceNamespace s ns1) ns2 = withServiceNamespace s ns2.
Proof.
  unfold withServiceNamespace. destruct s as [g nm sc vs conv p]; simpl.
  destruct conv as [[strategy [[[[u [svc|] ca]|] crv]|]]|]; done.
Qed.

Lemma fixCRDNamespace_fields crd ns :
  fixCRDNamespace crd ns =
    {| Name := Name crd; Labels := Labels crd;
       Annotations := Annotations (fixInjectCAFrom crd ns);
       Spec := withServiceNamespace (Spec crd) ns |}.
Proof.
  unfold fixCRDNamespace, DeepCopy.
  destruct (fixInjectCAFrom_rest (fixServiceNamespace crd ns) ns) as (Hn & Hl & Hs).
  destruct (fixServiceNamespace_meta crd ns) as (Hn' & Hl' & Ha').
  rewrite fixServiceNamespace_Spec in Hs.
  assert (Ha : Annotations (fixInjectCAFrom (fixServiceNamespace crd ns) ns)
               = Annotations (fixInjectCAFrom crd ns)).
  { unfold fixInjectCAFrom. rewrite Ha'.
    destruct (Annotations crd) as [annotations|] eqn:Hann; [|by rewrite Ha'].
    case_bool_decide; [|by rewrite Ha'].
    destruct (annotations !! _); [|by rewrite Ha'].
    destruct (strings_Split _ _) as [|? [|? [|? ?]]]; simpl; by rewrite ?Ha'. }
  destruct (fixInjectCAFrom (fixServiceNamespace crd ns) ns) as [n l a s].
  simpl in *. by rewrite Hn, Hn', Hl, Hl', Ha, Hs.
Qed.

Lemma fixInjectCAFrom_twice crd ns1 ns2 :
  countChar slash ns1 = 0 →
  Annotations (fixInjectCAFrom
                 {| Name := Name crd; Labels := Labels crd;
                    Annotations := Annotations (fixInjectCAFrom crd ns1);
                    Spec := withServiceNamespace (Spec crd) ns1 |} ns2)
    = Annotations (fixInjectCAFrom crd ns2).
Proof.
  intros Hns.
  destruct (Annotations crd) as [annotations|] eqn:Ha;
    [|by unfold fixInjectCAFrom; simpl; rewrite Ha; simpl; rewrite Ha].
  destruct (annotations !! certMgrInjectCAFromAnnotation) as [value|] eqn:Hv.
  - destruct (decide (countChar slash value = 1)) as [Hone|Hnot].
    + rewrite (fixInjectCAFrom_rewritten crd ns1 annotations value Ha Hv Hone).
      rewrite (fixInjectCAFrom_rewritten crd ns2 annotations value Ha Hv Hone).
      erewrite fixInjectCAFrom_rewritten; [| done | apply lookup_insert_eq |].
      * rewrite insert_insert_eq. by rewrite afterChar_qualified.
      * apply countChar_qualified; [done|by apply countChar_afterChar].
    + assert (Hsame : ∀ ns, fixInjectCAFrom crd ns = crd).
      { intros ns. apply fixInjectCAFrom_untouched.
        intros annotations' value' Ha' Hv'. congruence. }
      rewrite !Hsame, Ha.
      rewrite fixInjectCAFrom_untouched; [done|].
      simpl. intros annotations' value' Ha' Hv'. congruence.
  - assert (Hsame : ∀ ns, fixInjectCAFrom crd ns = crd).
    { intros ns. apply fixInjectCAFrom_untouched.
      intros annotations' value' Ha' Hv'. congruence. }
    rewrite !Hsame, Ha.
    rewrite fixInjectCAFrom_untouched; [done|].
    simpl. intros annotations' value' Ha' Hv'. congruence.
Qed.

(** A fix after a fix for a namespace without '/' is the second fix alone. *)
Lemma fixCRDNamespace_twice (crd : CustomResourceDefinition) (ns1 ns2 : string) :
  countChar slash ns1 = 0 →
  fixCRDNamespace (fixCRDNamespace crd ns1) ns2 = fixCRDNamespace crd ns2.
Proof.
  intros Hns. rewrite (fixCRDNamespace_fields crd ns1).
  rewrite (fixCRDNamespace_fields _ ns2). simpl.
  rewrite withServiceNamespace_twice, (fixInjectCAFrom_twice crd ns1 ns2 Hns).
  by rewrite (fixCRDNamespace_fields crd ns2).
Qed.

(** X9: fixing the namespace again replaces the first fix: for a namespace
    [ns1] without '/', as every Kubernetes namespace is, the CRD fixed for
    [ns1] and then for [ns2] is the CRD fixed for [ns2]; so the fix is
    idempotent, and a CRD fixed for one namespace can be moved to another
    and back. *)
Theorem fixCRDNamespace_again (crd : CustomResourceDefinition) (ns1 ns2 : string) :
  countChar slash ns1 = 0 →
  fixCRDNamespace (fixCRDNamespace crd ns1) ns2 = fixCRDNamespace crd ns2 ∧
  fixCRDNamespace (fixCRDNamespace crd ns1) ns1 = fixCRDNamespace crd ns1 ∧
  (countChar slash ns2 = 0 →
   fixCRDNamespace (fixCRDNamespace (fixCRDNamespace crd ns1) ns2) ns1
     = fixCRDNamespace crd ns1).
Proof.
  intros Hns. split; [by apply fixCRDNamespace_twice|].
  split; [by apply fixCRDNamespace_twice|].
  intros Hns2. by rewrite !fixCRDNamespace_twice.
Qed.

Lemma fixCRDNamespace_again_witness :
  countChar slash "aso-system" = 0 ∧
  fixCRDNamespace (fixCRDNamespace (sampleWebhookCRD "old-ns" "old-ns/some-cert")
                     "aso-system") "new-ns"
    = fixCRDNamespace (sampleWebhookCRD "old-ns" "old-ns/some-cert") "new-ns".
Proof.
  split; [reflexivity|].
  apply (fixCRDNamespace_again (sampleWebhookCRD "old-ns" "old-ns/some-cert")
           "aso-system" "new-ns").
  reflexivity.
Defined.

(** After a fix for a namespace that has a '/' the annotation has two of
    them, and no later fix changes it. *)
Lemma fixCRDNamespace_after_slash :
  Annotations (fixCRDNamespace (fixCRDNamespace (sampleWebhookCRD "old-ns" "old-ns/some-cert")
                                  "a/b") "new-ns")
    ≫= (.!! certMgrInjectCAFromAnnotation)
    = Some "a/b/some-cert".
Proof. vm_compute. reflexivity. Qed.

(** X10: the version check and the spec check that leaves the conversion
    webhook aside do not see the fix: they answer on CRDs fixed for any two
    namespaces as on the CRDs themselves. *)
Theorem fixCRDNamespace_unseen_by_two_comparators
    (a b : CustomResourceDefinition) (ns ns' : string) :
  (VersionEqual (fixCRDNamespace a ns) (fixCRDNamespace b ns')).1 = (VersionEqual a b).1 ∧
  (SpecEqualIgnoreConversionWebhook (fixCRDNamespace a ns) (fixCRDNamespace b ns')).1
    = (SpecEqualIgnoreConversionWebhook a b).1.
Proof.
  rewrite !fixCRDNamespace_fields. split.
  - reflexivity.
  - unfold SpecEqualIgnoreConversionWebhook. rewrite !ignoreConversionWebhook_Spec. simpl.
    assert (Hw : ∀ s n, withoutWebhook (withServiceNamespace s n) = withoutWebhook s).
    { intros [g nm sc vs conv p] n. unfold withoutWebhook, withServiceNamespace. simpl.
      by destruct conv as [[strategy [wh|]]|]. }
    by rewrite !Hw.
Qed.

(** [SpecEqual] does see it. *)
Lemma fixCRDNamespace_seen_by_SpecEqual :
  (SpecEqual (sampleWebhookCRD "old-ns" "old-ns/some-cert")
             (fixCRDNamespace (sampleWebhookCRD "old-ns" "old-ns/some-cert") "new-ns")).1
    = false.
Proof. vm_compute. reflexivity. Qed.

Lemma fixCRDNamespaceRefs_fmap crds ns :
  fixCRDNamespaceRefs crds ns = (λ crd, fixCRDNamespace crd ns) <$> crds.
Proof.
  unfold fixCRDNamespaceRefs.
  induction crds as [|crd crds IH] using rev_ind; [done|].
  by rewrite foldl_app, fmap_app, IH.
Qed.

(** X11: [fixCRDNamespaceRefs] gives one CRD for each CRD it is given, in
    the same order and under the same name, each fixed as [fixCRDNamespace]
    fixes it; so the goal CRDs have the names of the files' CRDs, and a
    second pass for another namespace replaces the first. *)
Theorem fixCRDNamespaceRefs_pointwise (crds : list CustomResourceDefinition)
    (ns : string) :
  length (fixCRDNamespaceRefs crds ns) = length crds ∧
  Name <$> fixCRDNamespaceRefs crds ns = Name <$> crds ∧
  (∀ i crd, crds !! i = Some crd →
            fixCRDNamespaceRefs crds ns !! i = Some (fixCRDNamespace crd ns)) ∧
  (∀ ns', countChar slash ns = 0 →
          fixCRDNamespaceRefs (fixCRDNamespaceRefs crds ns) ns'
            = fixCRDNamespaceRefs crds ns').
Proof.
  rewrite fixCRDNamespaceRefs_fmap. repeat split.
  - by rewrite length_fmap.
  - rewrite <- list_fmap_compose. apply list_fmap_ext. intros i crd _. simpl.
    by rewrite fixCRDNamespace_fields.
  - intros i crd Hi. by rewrite list_lookup_fmap, Hi.
  - intros ns' Hns. rewrite !fixCRDNamespaceRefs_fmap, <- list_fmap_compose.
    apply list_fmap_ext. intros i crd _. simpl. by apply fixCRDNamespace_twice.
Qed.

Lemma fixCRDNamespaceRefs_pointwise_witness :
  countChar slash "aso-system" = 0 ∧
  fixCRDNamespaceRefs (fixCRDNamespaceRefs [goalRedis; sampleWebhookCRD "a" "a/cert"]
                         "aso-system") "new-ns"
    = fixCRDNamespaceRefs [goalRedis; sampleWebhookCRD "a" "a/cert"] "new-ns".
Proof.
  split; [reflexivity|].
  destruct (fixCRDNamespaceRefs_pointwise [goalRedis; sampleWebhookCRD "a" "a/cert"]
              "aso-system") as (_ & _ & _ & Hagain).
  apply Hagain. reflexivity.
Defined.

(** ** More on the planner *)

Section PlanDecisions.
Context `{ML : MatchLibrary}.

Lemma afterPatterns_lookup goal existing patterns m1 n i1 :
  filterCRDsByPatterns patterns (filterCRDsByExisting existing (seedResultMap goal))
    = inr m1 →
  m1 !! n = Some i1 →
  CRD i1 ∈ goal ∧ Name (CRD i1) = n ∧ DiffResult i1 = NoDifference ∧
  FilterResult i1 = selection existing patterns (CRD i1).
Proof.
  intros Hp Hi1. rewrite (filterCRDsByPatterns_inr _ _ _ Hp n) in Hi1.
  destruct (filterCRDsByExisting existing (seedResultMap goal) !! n) as [before|] eqn:Hb;
    [|done].
  destruct (afterExisting_lookup goal existing n before Hb) as (Hin & Hn & Hd & Hf).
  simpl in Hi1. injection Hi1 as <-. unfold selection.
  destruct (decide (patterns = "")) as [->|Hne]; simpl.
  - rewrite Hn. split; [done|]. split; [done|]. split; [done|].
    rewrite Hf. by destruct (bool_decide (n ∈ Name <$> existing)).
  - destruct (patternUpdate_fields patterns before) as (Hc & Hd' & Hf').
    rewrite Hc, Hd', Hf', Hn. rewrite bool_decide_eq_true_2 by done. simpl.
    by rewrite Hf.
Qed.

Lemma afterPatterns_keyed goal existing patterns m1 :
  filterCRDsByPatterns patterns (filterCRDsByExisting existing (seedResultMap goal))
    = inr m1 →
  keyedByName m1.
Proof.
  intros Hp. apply (filterCRDsByPatterns_keyed _ _ _ Hp).
  apply filterCRDsByExisting_keyed, seedResultMap_keyed.
Qed.

Lemma different_dom (c : comparator) existing m1 n i1 :
  keyedByName m1 → m1 !! n = Some i1 →
  n ∈ dom (FindNonMatchingCRDs existing (filteredGoals m1) [c]) ↔
  FilterResult i1 ≠ Excluded ∧
  (c (default zeroCRD (indexByName existing !! Name (CRD i1))) (CRD i1)).1 = false.
Proof.
  intros Hkeyed Hi1. rewrite FindNonMatchingCRDs_single_dom. split.
  - intros (g & Hg & Hn & Hfail).
    apply elem_of_filteredGoals in Hg as (n' & i' & Hi' & Hf & ->).
    rewrite (Hkeyed _ _ Hi') in Hn. subst n'.
    rewrite Hi1 in Hi'. injection Hi' as <-. done.
  - intros [Hf Hc]. exists (CRD i1). split.
    + apply elem_of_filteredGoals. eauto.
    + split; [by apply Hkeyed|done].
Qed.

Lemma plan_lookup goal existing patterns final n i :
  planResultMap goal existing patterns = inr final →
  final !! n = Some i →
  CRD i ∈ goal ∧ Name (CRD i) = n ∧
  FilterResult i = selection existing patterns (CRD i) ∧
  DiffResult i = if decide (FilterResult i = Excluded) then NoDifference
                 else difference existing (CRD i).
Proof.
  intros Hplan Hi.
  destruct (planResultMap_inv _ _ _ _ Hplan) as (m1 & Hp & Hfinal).
  rewrite Hfinal in Hi.
  destruct (m1 !! n) as [i1|] eqn:Hi1; [|done].
  simpl in Hi. injection Hi as <-.
  destruct (afterPatterns_lookup _ _ _ _ _ _ Hp Hi1) as (Hin & Hn & Hd & Hf).
  pose proof (afterPatterns_keyed _ _ _ _ Hp) as Hkeyed.
  set (dV := dom (differentVersion existing m1)).
  set (dS := dom (differentSpec existing m1)).
  destruct (markUpdate_fields SpecDifferent dS n i1) as (Hc1 & Hf1 & Hd1).
  destruct (markUpdate_fields VersionDifferent dV n (markUpdate SpecDifferent dS n i1))
    as (Hc2 & Hf2 & Hd2).
  rewrite Hc2, Hc1, Hf2, Hf1, Hd2, Hd1, Hd.
  split; [done|]. split; [done|]. split; [done|].
  pose proof (different_dom VersionEqual existing m1 n i1 Hkeyed Hi1) as HV.
  pose proof (different_dom SpecEqual existing m1 n i1 Hkeyed Hi1) as HS.
  fold (differentVersion existing m1) in HV. fold (differentSpec existing m1) in HS.
  fold dV in HV. fold dS in HS. unfold difference.
  destruct (decide (FilterResult i1 = Excluded)) as [Hex|Hex].
  - rewrite !bool_decide_eq_false_2; [done| |]; naive_solver.
  - destruct (VersionEqual _ (CRD i1)).1 eqn:Hve; cbn [negb].
    + rewrite (bool_decide_eq_false_2 (n ∈ dV)) by naive_solver.
      destruct (SpecEqual _ (CRD i1)).1 eqn:Hse; cbn [negb].
      * rewrite bool_decide_eq_false_2; [done|]. naive_solver.
      * rewrite bool_decide_eq_true_2; [done|]. naive_solver.
    + rewrite bool_decide_eq_true_2; [done|]. naive_solver.
Qed.


(** X13: the planner fails only over the patterns. An error is the list of
    the patterns that match none of the CRDs planned for, it is not empty,
    and a pattern specification was given; the installed CRDs have no part
    in it, and the error for a goal CRD that cannot be found is never
    returned. *)
Theorem plan_fails_only_over_patterns
    (goal existing : list CustomResourceDefinition) (patterns : string) (err : error) :
  DetermineCRDsToInstallOrUpgrade goal existing patterns = inl err →
  patterns ≠ "" ∧
  ∃ unmatched,
    err = PatternValidationError unmatched ∧ unmatched ≠ [] ∧
    ∀ p, p ∈ unmatched ↔
         p ∈ patternsOf patterns ∧
         ∀ n i, seedResultMap goal !! n = Some i →
                patternMatches p (makeMatchString (CRD i)) = false.
Proof.
  unfold DetermineCRDsToInstallOrUpgrade.
  destruct (planResultMap goal existing patterns) as [err'|final] eqn:Hplan; [|done].
  intros [= ->].
  set (m0 := filterCRDsByExisting existing (seedResultMap goal)).
  destruct (filterCRDsByPatterns patterns m0) as [err'|m1] eqn:Hp.
  - rewrite (planResultMap_inl _ _ _ _ Hp) in Hplan. injection Hplan as <-.
    rewrite filterCRDsByPatterns_eq in Hp.
    destruct (decide (patterns = "")) as [|Hne]; [done|]. split; [done|].
    destruct (unmatchedPatterns patterns m0) as [|p0 rest] eqn:Hun; [done|].
    injection Hp as <-. exists (p0 :: rest). split; [done|]. split; [done|].
    intros p. rewrite <- Hun. unfold unmatchedPatterns. rewrite list_elem_of_filter.
    rewrite (comm (∧)). apply and_iff_compat_l.
    rewrite <- not_true_iff_false, existsb_exists. unfold candidates. split.
    + intros Hnone n i Hi.
      pose proof (filterCRDsByExisting_lookup existing (seedResultMap goal) n) as Hl.
      rewrite Hi in Hl. destruct Hl as (i' & Hi' & Hc & _).
      apply not_true_iff_false. intros Hm. apply Hnone.
      exists (makeMatchString (CRD i)). split; [|done].
      apply list_elem_of_In, list_elem_of_fmap. exists (n, i'). simpl.
      split; [by rewrite Hc|]. by apply elem_of_map_to_list.
    + intros Hnone (value & Hin & Hm).
      apply list_elem_of_In, list_elem_of_fmap in Hin as ([n i'] & -> & Hin).
      apply elem_of_map_to_list in Hin. simpl in Hm.
      pose proof (filterCRDsByExisting_lookup existing (seedResultMap goal) n) as Hl.
      destruct (seedResultMap goal !! n) as [i|] eqn:Hi.
      * destruct Hl as (i'' & Hi'' & Hc & _). fold m0 in Hi''.
        rewrite Hin in Hi''. injection Hi'' as <-.
        specialize (Hnone n i Hi). rewrite <- Hc in Hnone. congruence.
      * fold m0 in Hl. congruence.
  - destruct (planResultMap_inr _ _ _ _ Hp) as (m2 & final & _ & _ & Hfinal & _).
    congruence.
Qed.

End PlanDecisions.

Section PlanWitnesses.
#[local] Existing Instance sampleMatchLibrary.


Lemma plan_fails_only_over_patterns_witness :
  let goal := [goalRedis; goalVault] in
  let existing := [installedRedis] in
  ∃ err, DetermineCRDsToInstallOrUpgrade goal existing "nomatch-*;cache.*" = inl err ∧
         ∃ unmatched, err = PatternValidationError unmatched ∧ unmatched ≠ [].
Proof.
  intros goal existing.
  assert (Hfail : DetermineCRDsToInstallOrUpgrade goal existing "nomatch-*;cache.*"
                  = inl (PatternValidationError ["nomatch-*"])).
  { vm_compute. reflexivity. }
  exists (PatternValidationError ["nomatch-*"]). split; [exact Hfail|].
  destruct (plan_fails_only_over_patterns goal existing "nomatch-*;cache.*" _ Hfail)
    as (_ & unmatched & Herr & Hne & _).
  exists unmatched. split; [exact Herr|exact Hne].
Defined.

End PlanWitnesses.

Section PlanInputs.
Context `{ML : MatchLibrary}.

Lemma filterCRDsByExisting_expected goal existing :
  filterCRDsByExisting (expected goal existing) (seedResultMap goal)
    = filterCRDsByExisting existing (seedResultMap goal).
Proof.
  unfold expected.
  induction existing as [|x existing IH] using rev_ind; [done|].
  rewrite filter_app, filterCRDsByExisting_snoc. simpl.
  destruct (decide (Name x ∈ Name <$> goal)) as [Hx|Hx].
  - rewrite (filter_cons_True _ x []) by done. simpl.
    rewrite filterCRDsByExisting_snoc. simpl. by rewrite IH.
  - rewrite (filter_cons_False _ x []) by done. simpl. rewrite app_nil_r, IH.
    assert (Hnone : filterCRDsByExisting existing (seedResultMap goal) !! Name x = None).
    { apply not_elem_of_dom. rewrite filterCRDsByExisting_dom, seedResultMap_dom.
      by rewrite elem_of_list_to_set. }
    by rewrite Hnone.
Qed.

Lemma indexByName_expected goal existing n :
  n ∈ Name <$> goal →
  indexByName (expected goal existing) !! n = indexByName existing !! n.
Proof.
  intros Hn. unfold expected.
  induction existing as [|x existing IH] using rev_ind; [done|].
  rewrite filter_app, indexByName_snoc.
  destruct (decide (Name x ∈ Name <$> goal)) as [Hx|Hx].
  - rewrite (filter_cons_True _ x []) by done. simpl.
    rewrite indexByName_snoc, !lookup_insert. by rewrite IH.
  - rewrite (filter_cons_False _ x []) by done. simpl. rewrite app_nil_r, IH.
    rewrite lookup_insert_ne; [done|]. congruence.
Qed.

Lemma FindMatchingCRDs_same_index existing existing' goals cs :
  (∀ g, g ∈ goals → indexByName existing !! Name g = indexByName existing' !! Name g) →
  FindMatchingCRDs existing goals cs = FindMatchingCRDs existing' goals cs.
Proof.
  induction goals as [|g goals IH] using rev_ind; intros Hsame; [done|].
  rewrite !FindMatchingCRDs_snoc. rewrite IH by (intros; apply Hsame; in_snoc).
  rewrite (Hsame g) by in_snoc. done.
Qed.

(** X14: an installed CRD for which there is no goal CRD, which the code
    logs as unexpected, has no part in the plan: the planner gives for the
    installed CRDs what it gives for those among them that have a goal CRD
    of their name, the instructions and the error alike. *)
Theorem plan_ignores_unexpected_existing
    (goal existing : list CustomResourceDefinition) (patterns : string) :
  DetermineCRDsToInstallOrUpgrade goal existing patterns
    = DetermineCRDsToInstallOrUpgrade goal (expected goal existing) patterns.
Proof.
  unfold DetermineCRDsToInstallOrUpgrade. f_equal.
  unfold planResultMap. rewrite filterCRDsByExisting_expected.
  destruct (filterCRDsByPatterns patterns _) as [err|m1] eqn:Hp; [done|].
  assert (Hsame : ∀ cs, FindNonMatchingCRDs existing (filteredGoals m1) cs
                        = FindNonMatchingCRDs (expected goal existing) (filteredGoals m1) cs).
  { intros cs. unfold FindNonMatchingCRDs. apply FindMatchingCRDs_same_index.
    intros g Hg. symmetry. apply indexByName_expected.
    apply elem_of_filteredGoals in Hg as (n & i & Hi & _ & ->).
    destruct (afterPatterns_lookup _ _ _ _ _ _ Hp Hi) as (Hin & _).
    apply list_elem_of_fmap. eauto. }
  by rewrite !Hsame.
Qed.

Lemma foldl_Permutation {A B} (key : A → string) (f : B → A → B) (l l' : list A) :
  (∀ b x y, key x ≠ key y → f (f b x) y = f (f b y) x) →
  l ≡ₚ l' → NoDup (key <$> l) → ∀ b, foldl f b l = foldl f b l'.
Proof.
  intros Hcomm Hperm. induction Hperm as [|x l l' Hperm IH|x y l|l l' l'' H1 IH1 H2 IH2];
    intros Hnd b.
  - done.
  - simpl. apply IH. by apply NoDup_cons in Hnd as [_ Hnd].
  - simpl. f_equal. apply Hcomm.
    rewrite !fmap_cons in Hnd. apply NoDup_cons in Hnd as [Hy _].
    intros Heq. apply Hy. rewrite Heq. left.
  - rewrite IH1 by done. apply IH2. by rewrite <- H1.
Qed.

Lemma seedResultMap_Permutation goal goal' :
  goal ≡ₚ goal' → NoDup (Name <$> goal) → seedResultMap goal = seedResultMap goal'.
Proof.
  intros Hperm Hnd. unfold seedResultMap.
  apply (foldl_Permutation Name); [|done|done].
  intros m x y Hxy. by apply insert_insert_ne.
Qed.

Lemma indexByName_Permutation existing existing' :
  existing ≡ₚ existing' → NoDup (Name <$> existing) →
  indexByName existing = indexByName existing'.
Proof.
  intros Hperm Hnd. unfold indexByName.
  apply (foldl_Permutation Name); [|done|done].
  intros m x y Hxy. by apply insert_insert_ne.
Qed.

Lemma filterCRDsByExisting_Permutation existing existing' m :
  existing ≡ₚ existing' → NoDup (Name <$> existing) →
  filterCRDsByExisting existing m = filterCRDsByExisting existing' m.
Proof.
  intros Hperm Hnd. unfold filterCRDsByExisting.
  apply (foldl_Permutation Name); [|done|done].
  clear. intros m x y Hxy. simpl.
  destruct (m !! Name x) as [rx|] eqn:Hx, (m !! Name y) as [ry|] eqn:Hy;
    rewrite ?lookup_insert_ne, ?Hx, ?Hy by done; try done.
  by apply insert_insert_ne.
Qed.

(** X15: the plan does not depend on the order of the goal CRDs or of the
    installed CRDs, when no two of either have the same name. *)
Theorem plan_independent_of_order
    (goal goal' existing existing' : list CustomResourceDefinition) (patterns : string) :
  goal ≡ₚ goal' → existing ≡ₚ existing' →
  NoDup (Name <$> goal) → NoDup (Name <$> existing) →
  planResultMap goal existing patterns = planResultMap goal' existing' patterns.
Proof.
  intros Hg He Hndg Hnde. unfold planResultMap.
  rewrite (seedResultMap_Permutation goal goal' Hg Hndg).
  rewrite (filterCRDsByExisting_Permutation existing existing' _ He Hnde).
  destruct (filterCRDsByPatterns patterns _) as [err|m1]; [done|].
  unfold FindNonMatchingCRDs, FindMatchingCRDs.
  by rewrite (indexByName_Permutation existing existing' He Hnde).
Qed.

End PlanInputs.

Section PlanInputWitnesses.
#[local] Existing Instance sampleMatchLibrary.

Lemma plan_independent_of_order_witness :
  NoDup (Name <$> [goalRedis; goalVault]) ∧
  planResultMap [goalRedis; goalVault] [installedRedis] "keyvault.azure.com/*"
    = planResultMap [goalVault; goalRedis] [installedRedis] "keyvault.azure.com/*".
Proof.
  assert (Hnd : NoDup (Name <$> [goalRedis; goalVault])).
  { apply (bool_decide_unpack _). vm_compute. exact I. }
  split; [exact Hnd|].
  apply plan_independent_of_order; [apply perm_swap|done|exact Hnd|].
  apply (bool_decide_unpack _). vm_compute. exact I.
Defined.

End PlanInputWitnesses.

(** ** What is applied *)

Section Applied.
Context `{ML : MatchLibrary}.

Lemma filterInstallationInstructions_filter instructions log :
  filterInstallationInstructions instructions log
    = filter (λ i, ShouldApply i = true) instructions.
Proof.
  unfold filterInstallationInstructions.
  induction instructions as [|i instructions IH] using rev_ind; [done|].
  rewrite foldl_app, filter_app, IH. simpl.
  destruct (ShouldApply i) eqn:Hi.
  - by rewrite (filter_cons_True _ i []) by done.
  - rewrite (filter_cons_False _ i []) by (by rewrite Hi). by rewrite app_nil_r.
Qed.

Lemma list_filter_iff_in {A} (P Q : A → Prop) `{∀ x, Decision (P x)}
    `{∀ x, Decision (Q x)} (l : list A) :
  (∀ x, x ∈ l → P x ↔ Q x) → filter P l = filter Q l.
Proof.
  induction l as [|x l IH]; intros Hiff; [done|].
  rewrite !filter_cons. rewrite IH by (intros y Hy; apply Hiff; by right).
  destruct (decide (P x)) as [Hp|Hp], (decide (Q x)) as [Hq|Hq]; try done.
  - destruct Hq. apply Hiff; [left|done].
  - destruct Hp. apply Hiff; [left|done].
Qed.

(** X16: the instructions that [applyCRDs] keeps of a plan are those of the
    CRDs that are selected, by a pattern or by being installed, and differ
    from what is installed, in version or in spec: a CRD that is installed
    with the version and the spec of the goal is not applied again, and
    neither is a CRD that is not installed and that no pattern asks for.
    The instructions kept stay in the order of the plan, and logging or not
    makes no difference to them. *)
Theorem applied_are_the_selected_that_differ
    (goal existing : list CustomResourceDefinition) (patterns : string)
    (l : list CRDInstallationInstruction) (log : bool) :
  DetermineCRDsToInstallOrUpgrade goal existing patterns = inr l →
  filterInstallationInstructions l log
    = filter (λ i, selection existing patterns (CRD i) ≠ Excluded ∧
                   difference existing (CRD i) ≠ NoDifference) l.
Proof.
  intros Hl. rewrite filterInstallationInstructions_filter.
  apply list_filter_iff_in. intros i Hi.
  assert (Hf : FilterResult i = selection existing patterns (CRD i)
               ∧ DiffResult i = (if decide (FilterResult i = Excluded) then NoDifference
                                 else difference existing (CRD i))).
  { pose proof Hl as Hl'.
    apply DetermineCRDsToInstallOrUpgrade_inr in Hl' as (final & Hplan & ->).
    pose proof Hi as Hi'.
    apply list_elem_of_fmap in Hi' as ([n i'] & -> & Hin). simpl.
    apply elem_of_map_to_list in Hin.
    by destruct (plan_lookup _ _ _ _ _ _ Hplan Hin) as (_ & _ & H2 & H3). }
  destruct Hf as (Hf & Hd).
  unfold ShouldApply. rewrite andb_true_iff, !bool_decide_eq_true.
  rewrite Hd, Hf. destruct (decide (selection existing patterns (CRD i) = Excluded));
    naive_solver.
Qed.

End Applied.

Section AppliedWitness.
#[local] Existing Instance sampleMatchLibrary.

Lemma applied_are_the_selected_that_differ_witness :
  let goal := [goalRedis; goalVault] in
  let existing := [installedRedis] in
  ∃ l, DetermineCRDsToInstallOrUpgrade goal existing "" = inr l ∧
       filterInstallationInstructions l true
         = filter (λ i, selection existing "" (CRD i) ≠ Excluded ∧
                        difference existing (CRD i) ≠ NoDifference) l.
Proof.
  intros goal existing.
  destruct (planResultMap_inr goal existing ""
              (filterCRDsByExisting existing (seedResultMap goal)))
    as (m2 & final & _ & _ & Hplan & _).
  { by rewrite filterCRDsByPatterns_eq. }
  assert (Hl : DetermineCRDsToInstallOrUpgrade goal existing ""
               = inr (map_to_list final).*2).
  { apply DetermineCRDsToInstallOrUpgrade_inr. eauto. }
  exists (map_to_list final).*2. split; [exact Hl|].
  exact (applied_are_the_selected_that_differ goal existing "" _ true Hl).
Defined.

End AppliedWitness.

(** ** More on applyCRDs *)

Section ApplyRuns.
Context `{ML : MatchLibrary}.

Lemma run_cons sc t schedule w :
  run sc (t :: schedule) w = run sc schedule (default w (step sc t w)).
Proof. done. Qed.


Lemma run_stuck sc schedule w :
  (∀ t, t ∈ schedule → step sc t w = None) → run sc schedule w = w.
Proof.
  induction schedule as [|t schedule IH]; intros Hstuck; [done|].
  rewrite run_cons, Hstuck by left. simpl. apply IH. intros t' Ht'. apply Hstuck. by right.
Qed.

Lemma run_exited sc schedule w code : exited w = Some code → run sc schedule w = w.
Proof. intros Hex. apply run_stuck. intros t _. unfold step. by rewrite Hex. Qed.

Lemma run_Returned sc n w ret :
  engine w = Returned ret → run sc (replicate n Engine) w = w.
Proof.
  intros Hret. apply run_stuck. intros t Ht. apply elem_of_replicate in Ht as [-> _].
  unfold step, stepEngine. rewrite Hret. by destruct (exited w).
Qed.

(** Before the election is started its threads cannot run. *)
Lemma idle_threads sc w t :
  elector w = RunNotStarted → started w = StartedNotCalled → t ≠ Engine →
  step sc t w = None.
Proof.
  intros Hel Hst Ht. unfold step, stepElector, stepStarted, stepLeaseTaken.
  rewrite Hel, Hst. destruct (exited w); [done|]. by destruct t.
Qed.

(** X17: with nothing to apply [applyCRDs] returns [nil] from its first
    statement, with or without a lease: the election is not started,
    nothing is sent to the cluster, the context is not cancelled and the
    process does not exit, whatever runs beside it. *)
Theorem applyCRDs_nothing_to_apply (sc : Scenario) (schedule : list thread) :
  firstPlan sc = [] →
  let w := run sc schedule initialWorld in
  engine w = (if decide (engineTurns schedule = 0) then AtStart else Returned None) ∧
  writes w = [] ∧ exited w = None ∧ ctxDone w = false ∧
  elector w = RunNotStarted ∧ started w = StartedNotCalled ∧
  LeaseAcquired w = 1 ∧ LeaseReleased w = 1.
Proof.
  intros Hnone. simpl.
  assert (Hfirst : step sc Engine initialWorld = Some (set_engine initialWorld (Returned None))).
  { unfold step, stepEngine. simpl. unfold firstPlan in Hnone. by rewrite Hnone. }
  assert (Hend : ∀ s, run sc s (set_engine initialWorld (Returned None))
                      = set_engine initialWorld (Returned None)).
  { intros s. apply run_stuck. intros [] _; [done|by apply idle_threads..]. }
  induction schedule as [|t schedule IH]; [done|].
  rewrite run_cons. destruct t.
  - rewrite Hfirst. simpl. by rewrite Hend.
  - rewrite idle_threads by done. simpl. exact IH.
  - rewrite idle_threads by done. simpl. exact IH.
  - rewrite idle_threads by done. simpl. exact IH.
Qed.

(** *** Without a lease *)

Lemma stepEngine_no_election sc w w' :
  leaderElection sc = false → stepEngine sc w = Some w' →
  elector w' = elector w ∧ started w' = started w.
Proof.
  intros Hno. unfold stepEngine, leave. rewrite Hno.
  destruct (engine w) as [| | |[|i rest]| | | | | |];
    repeat (case_match; try done); by intros [= <-].
Qed.

Lemma run_no_election sc schedule w :
  leaderElection sc = false →
  elector w = RunNotStarted → started w = StartedNotCalled →
  run sc schedule w = run sc (replicate (engineTurns schedule) Engine) w.
Proof.
  intros Hno. revert w. induction schedule as [|t schedule IH]; intros w Hel Hst; [done|].
  destruct t; simpl engineTurns.
  - simpl replicate. rewrite !run_cons.
    destruct (step sc Engine w) as [w'|] eqn:Hstep; simpl; [|by apply IH].
    unfold step in Hstep. destruct (exited w); [done|].
    destruct (stepEngine_no_election sc w w' Hno Hstep) as [Hel' Hst'].
    apply IH; congruence.
  - rewrite run_cons, idle_threads by done. by apply IH.
  - rewrite run_cons, idle_threads by done. by apply IH.
  - rewrite run_cons, idle_threads by done. by apply IH.
Qed.

Lemma apply_loop_no_election sc plan n w :
  leaderElection sc = false →
  engine w = AtApply plan → exited w = None →
  length plan + 2 ≤ n →
  let w' := run sc (replicate n Engine) w in
  writes w' = writes w ++ (applyAll (createOrUpdate sc) plan).1 ∧
  match (applyAll (createOrUpdate sc) plan).2 with
  | None => engine w' = AtExit ∧ exited w' = Some 0%Z
  | Some err => engine w' = Returned (Some err) ∧ exited w' = None ∧ ctxDone w' = true
  end.
Proof.
  intros Hno. revert n w. induction plan as [|i rest IH]; intros n w He Hex Hn; simpl.
  - destruct n as [|[|n]]; [simpl in Hn; lia..|]. simpl replicate.
    rewrite !run_cons.
    assert (H1 : step sc Engine w = Some (set_engine w AtExit)).
    { unfold step, stepEngine. by rewrite Hex, He, Hno. }
    rewrite H1. simpl.
    assert (H2 : step sc Engine (set_engine w AtExit)
                 = Some (os_Exit (set_engine w AtExit) 0)).
    { unfold step, stepEngine. simpl. by rewrite Hex. }
    rewrite H2. simpl. rewrite (run_exited _ _ _ 0%Z) by done. simpl.
    by rewrite app_nil_r.
  - destruct n as [|n]; [simpl in Hn; lia|]. simpl replicate. rewrite run_cons.
    destruct (createOrUpdate sc (CRD i)) as [err|] eqn:Hcu; simpl.
    + assert (H1 : step sc Engine w
                   = Some (set_engine (cancel (sendWrite w (Name (CRD i))))
                             (Returned (Some (Wrap err ("failed to apply CRD "
                                                          +:+ Name (CRD i))))))).
      { unfold step, stepEngine, leave. by rewrite Hex, He, Hcu, Hno. }
      rewrite H1. simpl. rewrite (run_Returned _ _ _ (Some (Wrap err _))) by done.
      simpl. by rewrite Hex.
    + assert (H1 : step sc Engine w
                   = Some (set_engine (sendWrite w (Name (CRD i))) (AtApply rest))).
      { unfold step, stepEngine. by rewrite Hex, He, Hcu. }
      rewrite H1. simpl.
      specialize (IH n (set_engine (sendWrite w (Name (CRD i))) (AtApply rest))
                    eq_refl Hex ltac:(simpl in Hn; lia)).
      simpl in IH. destruct IH as [Hw Hret].
      destruct (applyAll (createOrUpdate sc) rest) as [names ret]. simpl in *.
      split; [by rewrite Hw, <- app_assoc|done].
Qed.

(** X18: without a lease [applyCRDs] sends the instructions it keeps to the
    cluster in their order, up to the first that fails. When one fails it
    cancels its context and returns the error of that one, and the process
    goes on; when none fails it does not return: the process exits with
    code 0. Whatever else is scheduled makes no difference. *)
Theorem applyCRDs_without_lease (sc : Scenario) (schedule : list thread) :
  leaderElection sc = false →
  firstPlan sc ≠ [] →
  length (firstPlan sc) + 3 ≤ engineTurns schedule →
  let w := run sc schedule initialWorld in
  writes w = (applyAll (createOrUpdate sc) (firstPlan sc)).1 ∧
  match (applyAll (createOrUpdate sc) (firstPlan sc)).2 with
  | None => engine w = AtExit ∧ exited w = Some 0%Z
  | Some err => engine w = Returned (Some err) ∧ exited w = None ∧ ctxDone w = true
  end.
Proof.
  intros Hno Hsome Hturns. simpl.
  rewrite (run_no_election sc schedule initialWorld Hno eq_refl eq_refl).
  destruct (engineTurns schedule) as [|n]; [lia|]. simpl replicate. rewrite run_cons.
  assert (Hfirst : step sc Engine initialWorld
                   = Some (set_engine initialWorld (AtApply (firstPlan sc)))).
  { unfold step, stepEngine. simpl. unfold firstPlan in *. rewrite Hno.
    by destruct (filterInstallationInstructions (instructions sc) true). }
  rewrite Hfirst. simpl.
  apply (apply_loop_no_election sc (firstPlan sc) n
           (set_engine initialWorld (AtApply (firstPlan sc))) Hno eq_refl eq_refl).
  lia.
Qed.

End ApplyRuns.

Section ApplyRunWitnesses.
#[local] Existing Instance sampleMatchLibrary.

Lemma applyCRDs_nothing_to_apply_witness :
  let sc := {| leaderElection := true; goalCRDs := []; instructions := [];
               CRDPatterns := ""; listed := inr []; createOrUpdate := λ _, None |} in
  let w := run sc [Elector; Engine; StartedCallback; LeaseTaken; Engine] initialWorld in
  engine w = Returned None ∧ elector w = RunNotStarted ∧ exited w = None.
Proof.
  intros sc.
  destruct (applyCRDs_nothing_to_apply sc
              [Elector; Engine; StartedCallback; LeaseTaken; Engine] eq_refl)
    as (He & _ & Hex & _ & Hel & _).
  split; [exact He|]. split; [exact Hel|exact Hex].
Defined.

Lemma applyCRDs_without_lease_witness :
  let sc := {| leaderElection := false; goalCRDs := [goalRedis];
               instructions := staleInstructions; CRDPatterns := "";
               listed := inr [installedRedis]; createOrUpdate := λ _, None |} in
  let w := run sc [Engine; Elector; Engine; Engine; Engine] initialWorld in
  writes w = [redisName] ∧ exited w = Some 0%Z.
Proof.
  intros sc.
  assert (Hplan : length (firstPlan sc) = 1) by (vm_compute; reflexivity).
  assert (Hsome : firstPlan sc ≠ []).
  { intros Hnil. rewrite Hnil in Hplan. discriminate Hplan. }
  assert (Hturns : length (firstPlan sc) + 3
                   ≤ engineTurns [Engine; Elector; Engine; Engine; Engine]).
  { rewrite Hplan. simpl. lia. }
  pose proof (applyCRDs_without_lease sc [Engine; Elector; Engine; Engine; Engine]
                eq_refl Hsome Hturns) as [Hw Hret].
  assert (Heval : applyAll (createOrUpdate sc) (firstPlan sc) = ([redisName], None))
    by (vm_compute; reflexivity).
  rewrite Heval in Hw, Hret. cbn [fst snd] in Hw, Hret.
  split; [exact Hw|exact (proj2 Hret)].
Defined.

End ApplyRunWitnesses.


(** *** Under a lease, whatever the schedule *)

Section ApplyInvariant.
Context `{ML : MatchLibrary}.





#[local] Arguments applyAll : simpl never.









End ApplyInvariant.

Section ApplyUnderLease.
Context `{ML : MatchLibrary}.

#[local] Arguments applyAll : simpl never.


(** *** Two runs under a lease *)





End ApplyUnderLease.

Section ApplyUnderLeaseWitnesses.
#[local] Existing Instance sampleMatchLibrary.



End ApplyUnderLeaseWitnesses.

(** ** Loading the goal CRDs *)

Section LoaderFacts.
Context (join : string → string → string).
Context (parse : list byte → error + CustomResourceDefinition).

Lemma foldl_loadEntry_inl fs path err entries :
  foldl (loadEntry join parse fs path) (inl err) entries = inl err.
Proof. by induction entries. Qed.

Lemma loadEntry_loadFile fs path results entry :
  loadEntry join parse fs path (inr results) entry =
    if IsDir entry then inr results
    else match loadFile join parse fs path entry with
         | inl err => inl err
         | inr crd => inr (results ++ [crd])
         end.
Proof.
  unfold loadEntry, loadFile. destruct (IsDir entry); [done|].
  destruct (os_ReadFile fs _); [done|]. by destruct (parse _).
Qed.

(** The loop from any list of results: it ends with the results and the
    CRDs of all the files, when every file loads; or with the error of the
    first file that does not, after files that all load. *)
Lemma foldl_loadEntry fs path entries results :
  match foldl (loadEntry join parse fs path) (inr results) entries with
  | inr crds =>
      ∃ loaded, crds = results ++ loaded ∧
                Forall2 (λ entry crd, loadFile join parse fs path entry = inr crd)
                        (files entries) loaded
  | inl err =>
      ∃ before entry after loaded,
        entries = before ++ entry :: after ∧ IsDir entry = false ∧
        loadFile join parse fs path entry = inl err ∧
        Forall2 (λ entry crd, loadFile join parse fs path entry = inr crd) (files before) loaded
  end.
Proof.
  revert results. induction entries as [|entry entries IH]; intros results.
  - simpl. exists []. by rewrite app_nil_r.
  - cbn [foldl]. rewrite loadEntry_loadFile. unfold files.
    destruct (IsDir entry) eqn:Hdir.
    + specialize (IH results).
      destruct (foldl (loadEntry join parse fs path) (inr results) entries) as [err|crds].
      * destruct IH as (before & e & after & loaded & -> & ? & ? & ?).
        exists (entry :: before), e, after, loaded.
        split; [done|]. split; [done|]. split; [done|].
        unfold files. rewrite filter_cons_False by (by rewrite Hdir). done.
      * destruct IH as (loaded & -> & ?). exists loaded. split; [done|].
        rewrite filter_cons_False by (by rewrite Hdir). done.
    + destruct (loadFile join parse fs path entry) as [err|crd] eqn:Hfile.
      * rewrite foldl_loadEntry_inl.
        exists [], entry, entries, []. repeat split; try done.
      * specialize (IH (results ++ [crd])).
        destruct (foldl (loadEntry join parse fs path) (inr (results ++ [crd])) entries)
          as [err|crds].
        -- destruct IH as (before & e & after & loaded & -> & ? & ? & ?).
           exists (entry :: before), e, after, (crd :: loaded).
           split; [done|]. split; [done|]. split; [done|].
           unfold files. rewrite filter_cons_True by done. by constructor.
        -- destruct IH as (loaded & -> & ?). exists (crd :: loaded).
           split; [by rewrite <- app_assoc|].
           rewrite filter_cons_True by done. by constructor.
Qed.

(** X21: [loadCRDs] gives one CRD for each entry of the directory that is
    not a directory, in the order of the directory, each read from the path
    joined with the name of the entry and parsed; directories are passed
    over. It fails when the directory cannot be read, or with the error of
    the first file that cannot be read or parsed, every file before it
    having loaded: nothing is returned beside an error. *)
Theorem loadCRDs_loads_every_file (fs : FileSystem) (path : string) :
  match loadCRDs join parse fs path with
  | inr crds =>
      ∃ entries, os_ReadDir fs path = inr entries ∧
                 length crds = length (files entries) ∧
                 Forall2 (λ entry crd, loadFile join parse fs path entry = inr crd)
                         (files entries) crds
  | inl err =>
      (∃ cause, os_ReadDir fs path = inl cause ∧
                err = Wrap cause ("failed to read directory " +:+ path)) ∨
      (∃ before entry after loaded,
         os_ReadDir fs path = inr (before ++ entry :: after) ∧
         IsDir entry = false ∧ loadFile join parse fs path entry = inl err ∧
         Forall2 (λ entry crd, loadFile join parse fs path entry = inr crd) (files before) loaded)
  end.
Proof.
  unfold loadCRDs. destruct (os_ReadDir fs path) as [cause|entries]; [eauto|].
  pose proof (foldl_loadEntry fs path entries []) as H.
  destruct (foldl (loadEntry join parse fs path) (inr []) entries) as [err|crds].
  - right. destruct H as (before & entry & after & loaded & -> & ? & ? & ?). eauto 10.
  - destruct H as (loaded & -> & H). exists entries. split; [done|].
    split; [|done]. simpl. symmetry. by eapply Forall2_length.
Qed.

(** X22: [LoadOperatorCRDs] loads once. On a manager that holds no CRDs it
    returns the CRDs of the directory, each fixed for the pod's namespace,
    and keeps them; a failure to load is returned as it is and leaves the
    manager as it was. On a manager that holds CRDs it returns those, in
    whatever directory and for whatever namespace it is asked, without a
    look at the file system: after a load that gave at least one CRD every
    later call gives the same CRDs, fixed for the namespace of the first
    call, and leaves the manager as it is. A load that gave no CRD is not
    kept. *)
Theorem LoadOperatorCRDs_loads_once
    (fs : FileSystem) (m : Manager) (path podNamespace : string) :
  (crds m = [] →
   match loadCRDs join parse fs path with
   | inl err => LoadOperatorCRDs join parse fs m path podNamespace = (inl err, m)
   | inr loaded =>
       LoadOperatorCRDs join parse fs m path podNamespace
         = (inr (fixCRDNamespaceRefs loaded podNamespace),
            {| crds := fixCRDNamespaceRefs loaded podNamespace |})
   end) ∧
  (crds m ≠ [] → LoadOperatorCRDs join parse fs m path podNamespace = (inr (crds m), m)) ∧
  (∀ l m', LoadOperatorCRDs join parse fs m path podNamespace = (inr l, m') →
     (l ≠ [] →
      ∀ fs' path' podNamespace',
        LoadOperatorCRDs join parse fs' m' path' podNamespace' = (inr l, m')) ∧
     (l = [] → crds m' = [])).
Proof.
  assert (Hheld : ∀ fs0 m0 path0 ns0, crds m0 ≠ [] →
            LoadOperatorCRDs join parse fs0 m0 path0 ns0 = (inr (crds m0), m0)).
  { intros fs0 m0 path0 ns0 Hne. unfold LoadOperatorCRDs.
    rewrite bool_decide_eq_true_2; [done|]. destruct (crds m0); [done|simpl; lia]. }
  assert (Hempty : crds m = [] →
            LoadOperatorCRDs join parse fs m path podNamespace =
              match loadCRDs join parse fs path with
              | inl err => (inl err, m)
              | inr loaded =>
                  (inr (fixCRDNamespaceRefs loaded podNamespace),
                   {| crds := fixCRDNamespaceRefs loaded podNamespace |})
              end).
  { intros Hnil. unfold LoadOperatorCRDs. rewrite Hnil.
    rewrite bool_decide_eq_false_2 by (simpl; lia). done. }
  split; [|split].
  - intros Hnil. rewrite (Hempty Hnil). by destruct (loadCRDs join parse fs path).
  - apply Hheld.
  - intros l m' Hcall.
    assert (Hkept : crds m' = l).
    { destruct (crds m) as [|c rest] eqn:Hm.
      - rewrite (Hempty eq_refl) in Hcall.
        destruct (loadCRDs join parse fs path); [done|]. by injection Hcall as <- <-.
      - rewrite Hheld in Hcall by (by rewrite Hm). injection Hcall as <- <-. done. }
    split.
    + intros Hne fs' path' ns'. rewrite <- Hkept. apply Hheld. by rewrite Hkept.
    + by intros ->.
Qed.

End LoaderFacts.

(** A directory with a CRD file and a subdirectory. *)
Lemma LoadOperatorCRDs_loads_once_witness :
  let fs := {| os_ReadDir := λ _, inr [{| EntryName := "redis.yaml"; IsDir := false |};
                                       {| EntryName := "old"; IsDir := true |}];
               os_ReadFile := λ _, inr [x2d] |} in
  let gone := {| os_ReadDir := λ _, inl (ClientError "no such directory");
                 os_ReadFile := λ _, inl (ClientError "no such file") |} in
  let join := λ dir name : string, dir +:+ "/" +:+ name in
  let parse := λ _ : list byte, inr (sampleWebhookCRD "system" "system/cert") in
  let first := LoadOperatorCRDs join parse fs {| crds := [] |} "crds" "aso" in
  first.1 = inr [fixCRDNamespace (sampleWebhookCRD "system" "system/cert") "aso"] ∧
  LoadOperatorCRDs join parse gone first.2 "elsewhere" "other" = (first.1, first.2).
Proof.
  intros fs gone join parse first.
  assert (Hfirst : first = (inr [fixCRDNamespace (sampleWebhookCRD "system" "system/cert")
                                   "aso"],
                            {| crds := [fixCRDNamespace
                                          (sampleWebhookCRD "system" "system/cert")
                                          "aso"] |})) by reflexivity.
  destruct (LoadOperatorCRDs_loads_once join parse fs {| crds := [] |} "crds" "aso")
    as (_ & _ & Hlater).
  destruct (Hlater _ _ Hfirst) as [Hsame _].
  rewrite Hfirst. split; [reflexivity|].
  apply Hsame. discriminate.
Defined.

Lemma loadCRDs_loads_every_file_example :
  let fs := {| os_ReadDir := λ _, inr [{| EntryName := "redis.yaml"; IsDir := false |};
                                       {| EntryName := "old"; IsDir := true |}];
               os_ReadFile := λ _, inr [x2d] |} in
  loadCRDs (λ dir name, dir +:+ "/" +:+ name) (λ _, inr goalRedis) fs "crds"
    = inr [goalRedis].
Proof. reflexivity. Qed.

(** ** The accessors of CloudError *)

Section CloudErrorAccessorFacts.
Context {ErrorResponse : Type}.
Context (json_Unmarshal : list byte → error + content ErrorResponse).
Context (UnknownErrorCode UnknownErrorMessage : string).

#[local] Notation CodeOf := (CloudError_Code UnknownErrorCode).
#[local] Notation MessageOf := (CloudError_Message UnknownErrorMessage).

(** X23: what the accessors give for a decoded body. With an error object
    in the body, [Code], [Message] and [Target] are those of the error
    object, and the fields at the top level are never looked at: when the
    error object has no code, or an empty one, [Code] is the unknown code
    even though the top level has one. An absent or empty code or message
    reads as the unknown one, an absent target as the empty string; the
    wrapped error is that of the receiver. *)
Theorem accessors_after_UnmarshalJSON
    (e : CloudError ErrorResponse) (data : list byte) (decoded : content ErrorResponse) :
  json_Unmarshal data = inr decoded →
  let e' := (UnmarshalJSON json_Unmarshal e data).2 in
  let orUnknown := λ (unknown : string) (field : option string),
    match field with
    | Some v => if bool_decide (v = "") then unknown else v
    | None => unknown
    end in
  Unwrap e' = Unwrap e ∧
  match InnerError decoded with
  | Some inner =>
      CodeOf e' = orUnknown UnknownErrorCode (InnerCode inner) ∧
      MessageOf e' = orUnknown UnknownErrorMessage (InnerMessage inner) ∧
      CloudError_Target e' = default "" (InnerTarget inner) ∧
      CloudError_Details e' = InnerDetails inner
  | None =>
      CodeOf e' = orUnknown UnknownErrorCode (Code decoded) ∧
      MessageOf e' = orUnknown UnknownErrorMessage (Message decoded) ∧
      CloudError_Target e' = default "" (Target decoded) ∧
      CloudError_Details e' = Details decoded
  end ∧
  (UnknownErrorCode ≠ "" → CodeOf e' ≠ "") ∧
  (UnknownErrorMessage ≠ "" → MessageOf e' ≠ "").
Proof.
  intros Hdecoded e' orUnknown. subst e' orUnknown.
  unfold UnmarshalJSON. rewrite Hdecoded.
  unfold CloudError_Code, CloudError_Message, CloudError_Target, CloudError_Details, Unwrap.
  destruct (InnerError decoded) as [inner|]; simpl; repeat split; try done;
    repeat (first [case_match|case_bool_decide]); simpl in *; subst;
    try done; try congruence.
Qed.

(** X24: an error made by [NewTestCloudError] carries the code and the
    message it was given, read as unknown when empty, and no target; it
    wraps no error unless an option gives it one, and of several
    [WithTestInnerError] options the last one counts. [NewCloudError] wraps
    the error it is given and has the unknown code and message. *)
Theorem test_errors_carry_what_they_are_given
    (c m : string) (errs : list (option error)) (err : option error) :
  let made : CloudError ErrorResponse :=
    NewTestCloudError c m (WithTestInnerError <$> errs) in
  CodeOf made = (if bool_decide (c = "") then UnknownErrorCode else c) ∧
  MessageOf made = (if bool_decide (m = "") then UnknownErrorMessage else m) ∧
  CloudError_Target made = "" ∧
  CloudError_Details made = None ∧
  Unwrap made = default None (last errs) ∧
  Unwrap (NewCloudError (ErrorResponse := ErrorResponse) err) = err ∧
  CodeOf (NewCloudError (ErrorResponse := ErrorResponse) err) = UnknownErrorCode ∧
  MessageOf (NewCloudError (ErrorResponse := ErrorResponse) err) = UnknownErrorMessage.
Proof.
  intros made. subst made.
  assert (Hmade : NewTestCloudError c m
                    (WithTestInnerError (ErrorResponse := ErrorResponse) <$> errs)
                  = {| error_ := default None (last errs); code := Some c;
                       message := Some m; target := None;
                       details := @None (list (option ErrorResponse)) |}).
  { unfold NewTestCloudError.
    induction errs as [|x errs IH] using rev_ind; [done|].
    rewrite fmap_app, foldl_app, IH. simpl. by rewrite last_snoc. }
  rewrite Hmade.
  unfold CloudError_Code, CloudError_Message, CloudError_Target, CloudError_Details, Unwrap.
  simpl. repeat split.
  - destruct (decide (c = "")) as [->|Hc].
    + by rewrite bool_decide_eq_false_2, bool_decide_eq_true_2 by auto.
    + by rewrite bool_decide_eq_true_2, bool_decide_eq_false_2 by auto.
  - destruct (decide (m = "")) as [->|Hm].
    + by rewrite bool_decide_eq_false_2, bool_decide_eq_true_2 by auto.
    + by rewrite bool_decide_eq_true_2, bool_decide_eq_false_2 by auto.
Qed.

End CloudErrorAccessorFacts.

(** The body has an error object without a code beside a code at the top
    level. *)
Lemma accessors_after_UnmarshalJSON_witness :
  let body : list byte := [x7b] in
  let decode := λ _ : list byte,
    inr {| Code := Some "TopLevelCode"; Message := Some "top"; Target := None;
           Details := @None (list (option unit));
           InnerError := Some {| InnerCode := None; InnerMessage := Some "";
                                 InnerTarget := Some "vault";
                                 InnerDetails := None |} |} in
  let e' := (UnmarshalJSON decode emptyCloudError body).2 in
  CloudError_Code "UnknownError" e' = "UnknownError" ∧
  CloudError_Message "There was an unknown error" e' = "There was an unknown error" ∧
  CloudError_Target e' = "vault".
Proof.
  intros body decode e'.
  destruct (accessors_after_UnmarshalJSON decode "UnknownError"
              "There was an unknown error" emptyCloudError body _ eq_refl)
    as (_ & (Hc & Hm & Ht & _) & _).
  split; [exact Hc|]. split; [exact Hm|exact Ht].
Defined.

(** ** The search on shared objects is the search on values *)

Section Simulation.
Implicit Types (st : gmap Shared.loc Shared.cell) (l : Shared.loc).

Lemma ignoreCABundle_whole a : ignoreCABundle a = set_Spec a (withoutCABundle (Spec a)).
Proof.
  unfold ignoreCABundle, withoutCABundle.
  destruct a as [n lb an [g nm sc vs conv p]]; simpl.
  destruct conv as [[strategy [[[cc|] crv]|]]|]; done.
Qed.

Lemma ignoreConversionWebhook_whole a :
  ignoreConversionWebhook a = set_Spec a (withoutWebhook (Spec a)).
Proof.
  unfold ignoreConversionWebhook, withoutWebhook.
  destruct a as [n lb an [g nm sc vs conv p]]; simpl.
  destruct conv as [[strategy [wh|]]|]; done.
Qed.

Lemma load_by_Spec st st' c s :
  Spec (Shared.load st' c) = s → Shared.load st' c = set_Spec (Shared.load st c) s.
Proof. by intros <-. Qed.

(** Two structs, each stripped in turn through its pointers, read as their
    values read once stripped: whether or not they share objects. *)
Lemma stripped_loads
    (strip : CustomResourceDefinitionSpec → CustomResourceDefinitionSpec)
    (ignore : Shared.CRDStruct → gmap Shared.loc Shared.cell →
              Shared.CRDStruct * gmap Shared.loc Shared.cell) :
  (∀ s, strip (strip s) = strip s) →
  (∀ st a, (ignore a st).1 = a) →
  (∀ st a, Spec (Shared.load (ignore a st).2 a) = strip (Spec (Shared.load st a))) →
  (∀ st a c, Spec (Shared.load (ignore a st).2 c) = Spec (Shared.load st c) ∨
             Spec (Shared.load (ignore a st).2 c) = strip (Spec (Shared.load st c))) →
  ∀ st a b,
    let st2 := (let '(a, st) := ignore a st in
                let '(b, st) := ignore b st in
                (bool_decide (Spec (Shared.load st a) = Spec (Shared.load st b)), st)).2 in
    Spec (Shared.load st2 a) = strip (Spec (Shared.load st a)) ∧
    Spec (Shared.load st2 b) = strip (Spec (Shared.load st b)).
Proof.
  intros Hidemp Hsame Hself Hother st a b.
  pose proof (Hself st a) as Ha. pose proof (Hother st a b) as Hb.
  pose proof (Hsame st a) as Ha1.
  destruct (ignore a st) as [a' st1]. cbn [fst snd] in *. subst a'.
  pose proof (Hself st1 b) as Hb2. pose proof (Hother st1 b a) as Ha2.
  pose proof (Hsame st1 b) as Hb1.
  destruct (ignore b st1) as [b' st2]. cbn [fst snd] in *. subst b'.
  split.
  - destruct Ha2 as [-> | ->]; rewrite Ha; [done|apply Hidemp].
  - rewrite Hb2. destruct Hb as [-> | ->]; [done|apply Hidemp].
Qed.

Lemma VersionEqual_behavesLike : behavesLike Shared.VersionEqual VersionEqual.
Proof. intros st a b. done. Qed.

Lemma SpecEqual_behavesLike : behavesLike Shared.SpecEqual SpecEqual.
Proof.
  intros st a b. split; [apply SpecEqual_answersLike|].
  destruct (stripped_loads withoutCABundle Shared.ignoreCABundle
              withoutCABundle_idemp
              ltac:(intros st0 a0; unfold Shared.ignoreCABundle; by repeat case_match)
              load_ignoreCABundle_self load_ignoreCABundle_other st a b) as [Ha Hb].
  unfold SpecEqual. cbn [fst snd]. rewrite !ignoreCABundle_whole.
  split; by apply load_by_Spec.
Qed.

Lemma SpecEqualIgnoreConversionWebhook_behavesLike :
  behavesLike Shared.SpecEqualIgnoreConversionWebhook SpecEqualIgnoreConversionWebhook.
Proof.
  intros st a b. split; [apply SpecEqualIgnoreConversionWebhook_answersLike|].
  destruct (stripped_loads withoutWebhook Shared.ignoreConversionWebhook
              withoutWebhook_idemp
              ltac:(intros st0 a0; unfold Shared.ignoreConversionWebhook;
                    by repeat case_match)
              load_ignoreConversionWebhook_self load_ignoreConversionWebhook_other
              st a b) as [Ha Hb].
  unfold SpecEqualIgnoreConversionWebhook. cbn [fst snd].
  rewrite !ignoreConversionWebhook_whole.
  split; by apply load_by_Spec.
Qed.

Lemma invert_behavesLike c p : behavesLike c p → behavesLike (Shared.invert c) (invert p).
Proof.
  intros Hc st a b. unfold Shared.invert, invert. specialize (Hc st a b).
  destruct (c a b st) as [r st'].
  destruct (p (Shared.load st a) (Shared.load st b)) as [r' ab]. simpl in *.
  destruct Hc as (-> & ? & ?). done.
Qed.

(** *** The comparators of the source keep the store closed *)

Lemma ignoreCABundle_dom st a : dom (Shared.ignoreCABundle a st).2 = dom st.
Proof.
  unfold Shared.ignoreCABundle. repeat case_match; try done. simpl.
  rewrite dom_insert_L. apply (anti_symm (⊆)); [|set_solver].
  apply union_least; [|done]. apply singleton_subseteq_l. by eapply elem_of_dom_2.
Qed.

Lemma ignoreConversionWebhook_dom st a :
  dom (Shared.ignoreConversionWebhook a st).2 = dom st.
Proof.
  unfold Shared.ignoreConversionWebhook. repeat case_match; try done. simpl.
  rewrite dom_insert_L. apply (anti_symm (⊆)); [|set_solver].
  apply union_least; [|done]. apply singleton_subseteq_l. by eapply elem_of_dom_2.
Qed.

Lemma ignoreCABundle_reach st a x :
  Shared.reach (Shared.ignoreCABundle a st).2 x = Shared.reach st x.
Proof.
  destruct (ignoreCABundle_spec ∅ st a) as (_ & _ & H).
  - apply map_empty_subseteq.
  - rewrite dom_empty_L. set_solver.
  - apply H.
Qed.

Lemma ignoreConversionWebhook_reach st a x :
  Shared.reach (Shared.ignoreConversionWebhook a st).2 x ⊆ Shared.reach st x.
Proof.
  destruct (ignoreConversionWebhook_spec ∅ st a) as (_ & _ & H).
  - apply map_empty_subseteq.
  - rewrite dom_empty_L. set_solver.
  - apply H.
Qed.

Lemma VersionEqual_keepsClosed : keepsClosed Shared.VersionEqual.
Proof. intros st a b x Hx. done. Qed.

Lemma SpecEqual_keepsClosed : keepsClosed Shared.SpecEqual.
Proof.
  intros st a b x Hx. unfold Shared.SpecEqual.
  pose proof (ignoreCABundle_dom st a) as Hd1.
  pose proof (ignoreCABundle_reach st a x) as Hr1.
  destruct (Shared.ignoreCABundle a st) as [a' st1]. simpl in *.
  pose proof (ignoreCABundle_dom st1 b) as Hd2.
  pose proof (ignoreCABundle_reach st1 b x) as Hr2.
  destruct (Shared.ignoreCABundle b st1) as [b' st2]. simpl in *.
  by rewrite Hr2, Hr1, Hd2, Hd1.
Qed.

Lemma SpecEqualIgnoreConversionWebhook_keepsClosed :
  keepsClosed Shared.SpecEqualIgnoreConversionWebhook.
Proof.
  intros st a b x Hx. unfold Shared.SpecEqualIgnoreConversionWebhook.
  pose proof (ignoreConversionWebhook_dom st a) as Hd1.
  pose proof (ignoreConversionWebhook_reach st a x) as Hr1.
  destruct (Shared.ignoreConversionWebhook a st) as [a' st1]. simpl in *.
  pose proof (ignoreConversionWebhook_dom st1 b) as Hd2.
  pose proof (ignoreConversionWebhook_reach st1 b x) as Hr2.
  destruct (Shared.ignoreConversionWebhook b st1) as [b' st2]. simpl in *.
  rewrite Hd2, Hd1. set_solver.
Qed.

Lemma invert_keepsClosed c : keepsClosed c → keepsClosed (Shared.invert c).
Proof.
  intros Hc st a b x Hx. unfold Shared.invert. specialize (Hc st a b x Hx).
  by destruct (c a b st).
Qed.

Lemma sourceComparator_sound c p :
  sourceComparator c p → behavesLike c p ∧ Shared.confined c ∧ keepsClosed c.
Proof.
  induction 1 as [| | |c p _ (Hb & Hc & Hk)].
  - split; [apply VersionEqual_behavesLike|].
    split; [apply VersionEqual_confined|apply VersionEqual_keepsClosed].
  - split; [apply SpecEqual_behavesLike|].
    split; [apply SpecEqual_confined|apply SpecEqual_keepsClosed].
  - split; [apply SpecEqualIgnoreConversionWebhook_behavesLike|].
    split; [apply SpecEqualIgnoreConversionWebhook_confined|
            apply SpecEqualIgnoreConversionWebhook_keepsClosed].
  - split; [by apply invert_behavesLike|].
    split; [by apply invert_confined|by apply invert_keepsClosed].
Qed.

(** *** The inner loop *)

Lemma compareAll_behaves cs ps :
  Forall2 behavesLike cs ps →
  ∀ st a b,
    (Shared.compareAll cs a b st).1
      = (compareAll ps (Shared.load st a) (Shared.load st b)).1 ∧
    Shared.load (Shared.compareAll cs a b st).2 a
      = (compareAll ps (Shared.load st a) (Shared.load st b)).2.1 ∧
    Shared.load (Shared.compareAll cs a b st).2 b
      = (compareAll ps (Shared.load st a) (Shared.load st b)).2.2.
Proof.
  induction 1 as [|c p cs ps Hc _ IH]; intros st a b; [done|].
  cbn [Shared.compareAll compareAll].
  destruct (Hc st a b) as (Hr & Ha & Hb).
  destruct (c a b st) as [r st1].
  destruct (p (Shared.load st a) (Shared.load st b)) as [r' [a' b']].
  simpl in Hr, Ha, Hb. subst r' a' b'.
  destruct r; simpl; [apply IH|done].
Qed.

Lemma compareAll_keepsClosed cs :
  Forall keepsClosed cs →
  ∀ st a b x, Shared.reach st x ⊆ dom st →
    Shared.reach (Shared.compareAll cs a b st).2 x ⊆ dom (Shared.compareAll cs a b st).2.
Proof.
  induction 1 as [|c cs Hc _ IH]; intros st a b x Hx; [done|].
  cbn [Shared.compareAll]. specialize (Hc st a b x Hx).
  destruct (c a b st) as [r st1]. simpl in Hc.
  destruct r; simpl; [by apply IH|done].
Qed.

End Simulation.

Section SearchSimulation.
Implicit Types (st : gmap Shared.loc Shared.cell).

Lemma Shared_FindMatchingCRDs_snoc existing goal g cs st :
  Shared.FindMatchingCRDs existing (goal ++ [g]) cs st
    = Shared.findStep (Shared.indexByName existing) cs
        (Shared.FindMatchingCRDs existing goal cs st) g.
Proof. unfold Shared.FindMatchingCRDs. by rewrite foldl_app. Qed.

Lemma Shared_FindMatchingCRDs_simulates cs ps existing goal st :
  Forall2 behavesLike cs ps → Forall Shared.confined cs → Forall keepsClosed cs →
  (∀ x, x ∈ existing ++ goal → Shared.reach st x ⊆ dom st) →
  st ⊆ (Shared.FindMatchingCRDs existing goal cs st).2 ∧
  (∀ n x, (Shared.FindMatchingCRDs existing goal cs st).1 !! n = Some x →
          Shared.reach (Shared.FindMatchingCRDs existing goal cs st).2 x
            ⊆ dom (Shared.FindMatchingCRDs existing goal cs st).2) ∧
  Shared.load (Shared.FindMatchingCRDs existing goal cs st).2
    <$> (Shared.FindMatchingCRDs existing goal cs st).1
    = FindMatchingCRDs (Shared.load st <$> existing) (Shared.load st <$> goal) ps.
Proof.
  intros Hbehaves Hconf Hkeeps Hclosed.
  induction goal as [|g goal IH] using rev_ind.
  - unfold Shared.FindMatchingCRDs, FindMatchingCRDs. simpl.
    split; [done|]. split; [by intros n x; rewrite lookup_empty|].
    by rewrite fmap_empty.
  - destruct IH as (Hsub & Hentries & Hmap).
    { intros x Hx. apply Hclosed. set_solver. }
    rewrite fmap_app. simpl. rewrite FindMatchingCRDs_snoc.
    rewrite Shared_FindMatchingCRDs_snoc.
    pose proof (findStep_frame (Shared.indexByName existing) cs
                  (Shared.FindMatchingCRDs existing goal cs st).2
                  (Shared.FindMatchingCRDs existing goal cs st) g Hconf
                  ltac:(done)) as Hframe.
    destruct (Shared.FindMatchingCRDs existing goal cs st) as [matching st1].
    cbn [fst snd] in *. unfold DeepCopy. rewrite existingFor_load.
    unfold Shared.findStep in *.
    set (e := default Shared.zeroCRDStruct
                (Shared.indexByName existing !! Name (Shared.fields g))) in *.
    change (Name (Shared.load st g)) with (Name (Shared.fields g)). fold e.
    assert (He : Shared.reach st e ⊆ dom st).
    { unfold e. destruct (Shared.indexByName existing !! _) as [x|] eqn:Hx; simpl.
      - apply Hclosed. apply Shared_indexByName_lookup_Some in Hx. set_solver.
      - unfold Shared.reach. simpl. set_solver. }
    assert (Hg : Shared.reach st g ⊆ dom st) by (apply Hclosed; set_solver).
    pose proof (DeepCopy_load st1 e) as Hle.
    destruct (DeepCopy_spec e st1) as (Hsub1 & Hnew1 & _).
    destruct (Shared.DeepCopy e st1) as [e' st2]. cbn [fst snd] in *.
    pose proof (DeepCopy_load st2 g) as Hlg.
    destruct (DeepCopy_spec g st2) as (Hsub2 & Hnew2 & Hfields).
    destruct (Shared.DeepCopy g st2) as [g' st3]. cbn [fst snd] in *.
    assert (He' : Shared.load st3 e' = Shared.load st e).
    { rewrite (load_extend st2 st3 e' Hsub2) by set_solver.
      rewrite Hle. by apply load_extend. }
    assert (Hg' : Shared.load st3 g' = Shared.load st g).
    { rewrite Hlg. apply load_extend; [by etrans|done]. }
    destruct (compareAll_behaves cs ps Hbehaves st3 e' g') as (Hr & _ & Hgb).
    rewrite He', Hg' in Hr, Hgb.
    pose proof (compareAll_keepsClosed cs Hkeeps st3 e' g' g') as Hk.
    destruct (Shared.compareAll cs e' g' st3) as [equal st4]. cbn [fst snd] in *.
    assert (Hsub4 : st1 ⊆ st4) by (by destruct equal).
    assert (Hold : ∀ n x, matching !! n = Some x →
              Shared.reach st4 x ⊆ dom st4 ∧ Shared.load st4 x = Shared.load st1 x).
    { intros n x Hx. specialize (Hentries n x Hx). split.
      - rewrite (reach_extend st1 st4 x Hsub4 Hentries).
        etrans; [exact Hentries|]. by apply subseteq_dom.
      - by apply load_extend. }
    assert (Hmap' : Shared.load st4 <$> matching = Shared.load st1 <$> matching).
    { apply map_fmap_ext. intros n x Hx. by destruct (Hold n x Hx). }
    subst equal.
    destruct (compareAll ps (Shared.load st e) (Shared.load st g)).1; cbn [fst snd].
    + split; [by etrans|]. split.
      * intros n x. rewrite lookup_insert. case_decide.
        -- intros [= <-]. apply Hk. set_solver.
        -- intros Hx. by destruct (Hold n x Hx).
      * by rewrite fmap_insert, Hgb, Hmap', Hmap, Hfields.
    + split; [by etrans|]. split.
      * intros n x Hx. by destruct (Hold n x Hx).
      * by rewrite Hmap', Hmap.
Qed.

(** X25: with the comparators of the source, inverted or not and in any
    number, the search on shared objects is the search on values: the
    CRDs it returns, read through the store it leaves, are the CRDs that
    [FindMatchingCRDs] on values returns for the lists as they read before
    the call, under the same names; so for [FindNonMatchingCRDs]. The
    comparators assign through the copies only, and each comparator sees
    what those before it assigned: what the search on values hands from one
    comparator to the next is what the objects hold. The CRDs given lead
    only to objects of the store. *)
Theorem search_on_copies_is_the_search_on_values
    (cs : list Shared.comparator) (ps : list comparator)
    (existing goal : list Shared.CRDStruct) (st : gmap Shared.loc Shared.cell) :
  Forall2 sourceComparator cs ps →
  (∀ x, x ∈ existing ++ goal → Shared.reach st x ⊆ dom st) →
  let found := Shared.FindMatchingCRDs existing goal cs st in
  let missed := Shared.FindNonMatchingCRDs existing goal cs st in
  Shared.load found.2 <$> found.1
    = FindMatchingCRDs (Shared.load st <$> existing) (Shared.load st <$> goal) ps ∧
  Shared.load missed.2 <$> missed.1
    = FindNonMatchingCRDs (Shared.load st <$> existing) (Shared.load st <$> goal) ps.
Proof.
  intros Hsource Hclosed.
  assert (Hgen : ∀ cs ps, Forall2 sourceComparator cs ps →
            Shared.load (Shared.FindMatchingCRDs existing goal cs st).2
              <$> (Shared.FindMatchingCRDs existing goal cs st).1
            = FindMatchingCRDs (Shared.load st <$> existing) (Shared.load st <$> goal) ps).
  { clear cs ps Hsource. intros cs ps Hsource.
    apply Shared_FindMatchingCRDs_simulates; [| | |done].
    - eapply Forall2_impl; [exact Hsource|]. intros c p H.
      by destruct (sourceComparator_sound c p H).
    - apply Forall_forall. intros c Hc.
      apply list_elem_of_lookup in Hc as [i Hi].
      destruct (Forall2_lookup_l _ _ _ _ _ Hsource Hi) as (p & _ & H).
      by destruct (sourceComparator_sound c p H) as (_ & ? & _).
    - apply Forall_forall. intros c Hc.
      apply list_elem_of_lookup in Hc as [i Hi].
      destruct (Forall2_lookup_l _ _ _ _ _ Hsource Hi) as (p & _ & H).
      by destruct (sourceComparator_sound c p H) as (_ & _ & ?). }
  split; [by apply Hgen|].
  unfold Shared.FindNonMatchingCRDs, FindNonMatchingCRDs. cbv zeta.
  apply Hgen. apply Forall2_fmap. eapply Forall2_impl; [exact Hsource|].
  intros c p H. by constructor.
Qed.

(** The goal CRD of the sample store has a CA bundle and the installed one
    another: [SpecEqual] takes them for equal, and the CRD found reads
    without its CA bundle. *)
Lemma search_on_copies_is_the_search_on_values_witness :
  let found := Shared.FindMatchingCRDs [storedExisting] [storedGoal] [Shared.SpecEqual]
                 sampleStore in
  Forall2 sourceComparator [Shared.SpecEqual] [SpecEqual] ∧
  Shared.load found.2 <$> found.1
    = FindMatchingCRDs [Shared.load sampleStore storedExisting]
        [Shared.load sampleStore storedGoal] [SpecEqual] ∧
  FindMatchingCRDs [Shared.load sampleStore storedExisting]
    [Shared.load sampleStore storedGoal] [SpecEqual] !! redisName
    = Some (ignoreCABundle (Shared.load sampleStore storedGoal)).
Proof.
  intros found.
  assert (Hsource : Forall2 sourceComparator [Shared.SpecEqual] [SpecEqual]).
  { constructor; [constructor|constructor]. }
  split; [exact Hsource|]. split; [|vm_compute; reflexivity].
  apply (search_on_copies_is_the_search_on_values [Shared.SpecEqual] [SpecEqual]
           [storedExisting] [storedGoal] sampleStore Hsource).
  intros x Hx. apply (bool_decide_unpack _).
  apply elem_of_cons in Hx as [->|Hx]; [vm_compute; exact I|].
  apply elem_of_cons in Hx as [->|Hx]; [vm_compute; exact I|].
  by apply elem_of_nil in Hx.
Defined.

End SearchSimulation.
